(** * Indexed d-ary min-heap: a shallow embedding of
      [typescript/src/min-indexed-d-heap.ts] and
      [typescript/src/min-indexed-binary-heap.ts].

    JavaScript arrays are modelled as finite maps from integer indices to
    entries: a read of an index that was never written yields [None]
    (JavaScript's [undefined]) and a write at any index succeeds.  Numbers are
    modelled as integers ([Z]); keys are integers, as the class comment
    requires.  Every TypeScript non-null assertion [e!] is a point where the
    model gets stuck ([Undef]) when [e] is [undefined] or [null].  A counted
    loop [for (j = from; j < to; j++)] runs over the list [from, ..., to - 1];
    the [while] loop of [swim], the [for(;;)] loop of [sink] and the
    recursion of [isMinHeapAt] carry fuel and report [Timeout] when it runs
    out. *)

From stdpp Require Import gmap list fin_maps.
From Stdlib Require Import ZArith Lia.

Local Open Scope Z_scope.

(** ** Errors and outcomes *)

(** The source throws [Error] objects that differ only in their message; the
    constructors name the messages. *)
Inductive error : Type :=
| InvalidCapacity   (* "maxSize <= 0" *)
| KeyOutOfBounds    (* "Key index out of bounds" *)
| DuplicateKey      (* "index already exists" *)
| UnknownKey        (* "Index does not exist" *)
| NullValue         (* "value cannot be null" *)
| EmptyQueue.       (* "Priority queue underflow" *)

(** How a call ends: it returns [a], throws [e], reads [undefined] where the
    source asserts a value, or exhausts the fuel of a loop. *)
Inductive res (A : Type) : Type :=
| Ok (a : A)
| Raise (e : error)
| Undef
| Timeout.

Arguments Ok {A} a.
Arguments Raise {A} e.
Arguments Undef {A}.
Arguments Timeout {A}.

Section Heap.

Context {T : Type}.

(** The comparator handed to the constructor ([this.compare]). *)
Variable compare : T → T → Z.

(** ** The object state *)

Record heap : Type := Heap {
  sz : Z;
  N : Z;
  D : Z;
  child : gmap Z Z;
  parent : gmap Z Z;
  pm : gmap Z Z;
  im : gmap Z Z;
  values : gmap Z (option T)
}.

(** A method is a function from the state of [this] to an outcome and the
    state it leaves behind; a thrown error keeps the state reached at the
    [throw]. *)
Definition M (A : Type) : Type := heap → res A * heap.

Definition ret {A} (a : A) : M A := λ h, (Ok a, h).

Definition bind {A B} (m : M A) (f : A → M B) : M B :=
  λ h, match m h with
       | (Ok a, h') => f a h'
       | (Raise e, h') => (Raise e, h')
       | (Undef, h') => (Undef, h')
       | (Timeout, h') => (Timeout, h')
       end.

Definition throw {A} (e : error) : M A := λ h, (Raise e, h).
Definition undef {A} : M A := λ h, (Undef, h).
Definition timeout {A} : M A := λ h, (Timeout, h).
Definition gets {A} (f : heap → A) : M A := λ h, (Ok (f h), h).
Definition modify (f : heap → heap) : M unit := λ h, (Ok tt, f h).

Notation "x <- m ;; k" := (bind m (λ x, k))
  (at level 100, m at next level, right associativity, only parsing).
Notation "m ;; k" := (bind m (λ _, k))
  (at level 100, right associativity, only parsing).

(** [e!] on an array read: stuck on [undefined]. *)
Definition assert_some {A} (o : option A) : M A :=
  match o with Some a => ret a | None => undef end.

(** [this.values[k]!]: stuck on [undefined] and on [null]. *)
Definition assert_value (o : option (option T)) : M T :=
  match o with Some (Some v) => ret v | _ => undef end.

(** Field and array accesses. *)
Definition read_child (i : Z) : M (option Z) := gets (λ h, child h !! i).
Definition read_parent (i : Z) : M (option Z) := gets (λ h, parent h !! i).
Definition read_pm (k : Z) : M (option Z) := gets (λ h, pm h !! k).
Definition read_im (i : Z) : M (option Z) := gets (λ h, im h !! i).
Definition read_values (k : Z) : M (option (option T)) :=
  gets (λ h, values h !! k).

Definition set_sz (n : Z) : M unit :=
  modify (λ h, Heap n (N h) (D h) (child h) (parent h) (pm h) (im h) (values h)).
Definition write_pm (k v : Z) : M unit :=
  modify (λ h, Heap (sz h) (N h) (D h) (child h) (parent h)
                    (<[k := v]> (pm h)) (im h) (values h)).
Definition write_im (i v : Z) : M unit :=
  modify (λ h, Heap (sz h) (N h) (D h) (child h) (parent h)
                    (pm h) (<[i := v]> (im h)) (values h)).
Definition write_values (k : Z) (v : option T) : M unit :=
  modify (λ h, Heap (sz h) (N h) (D h) (child h) (parent h)
                    (pm h) (im h) (<[k := v]> (values h))).

(** ** Construction *)

(** One pass of the initialisation loop of the constructor. *)
Definition init_slot (h : heap) (i : Z) : heap :=
  Heap (sz h) (N h) (D h)
       (<[i := i * D h + 1]> (child h))
       (<[i := (i - 1) / D h]> (parent h))
       (<[i := -1]> (pm h))
       (<[i := -1]> (im h))
       (<[i := None]> (values h)).

Definition MinIndexedDHeap (degree maxSize : Z) : res heap :=
  if maxSize <=? 0 then Raise InvalidCapacity
  else
    let d := Z.max 2 degree in
    let n := Z.max (d + 1) maxSize in
    Ok (foldl init_slot (Heap 0 n d ∅ ∅ ∅ ∅ ∅) (seqZ 0 n)).

(** [class MinIndexedBinaryHeap extends MinIndexedDHeap]: the constructor
    calls [super(2, maxSize, comparator)] and every method is inherited. *)
Definition MinIndexedBinaryHeap (maxSize : Z) : res heap :=
  MinIndexedDHeap 2 maxSize.

(** ** Validation helpers *)

Definition size : M Z := gets sz.

Definition isEmpty : M bool := gets (λ h, sz h =? 0).

Definition isNotEmptyOrThrow : M unit :=
  e <- isEmpty ;; if e then throw EmptyQueue else ret tt.

Definition keyInBoundsOrThrow (ki : Z) : M unit :=
  n <- gets N ;;
  if (ki <? 0) || (n <=? ki) then throw KeyOutOfBounds else ret tt.

(** [this.pm[ki] !== -1]; an [undefined] entry is different from [-1]. *)
Definition contains (ki : Z) : M bool :=
  keyInBoundsOrThrow ki ;;
  p <- read_pm ki ;;
  ret (negb (bool_decide (p = Some (-1)))).

Definition keyExistsOrThrow (ki : Z) : M unit :=
  c <- contains ki ;; if c then ret tt else throw UnknownKey.

(** The argument is [None] when the caller passes [null]; on success the
    value is known not to be [null]. *)
Definition valueNotNullOrThrow (value : option T) : M T :=
  match value with None => throw NullValue | Some v => ret v end.

Definition keyExistsAndValueNotNullOrThrow (ki : Z) (value : option T) : M T :=
  keyExistsOrThrow ki ;; valueNotNullOrThrow value.

(** ** Heap helpers *)

Definition lessValue (a b : T) : bool := compare a b <? 0.

Definition less (i j : Z) : M bool :=
  ki <- bind (read_im i) assert_some ;;
  a <- bind (read_values ki) assert_value ;;
  kj <- bind (read_im j) assert_some ;;
  b <- bind (read_values kj) assert_value ;;
  ret (compare a b <? 0).

Definition swap (i j : Z) : M unit :=
  imj <- bind (read_im j) assert_some ;;
  write_pm imj i ;;
  imi <- bind (read_im i) assert_some ;;
  write_pm imi j ;;
  tmp <- bind (read_im i) assert_some ;;
  imj' <- bind (read_im j) assert_some ;;
  write_im i imj' ;;
  write_im j tmp.

(** The body of the [for] loop of [minChild], over the pair of the local
    variables [index] and [i]. *)
Definition minChild_step (acc : Z * Z) (j : Z) : M (Z * Z) :=
  b <- less j (snd acc) ;;
  if b then ret (j, j) else ret acc.

(** A counted [for] loop: [body] runs for each [j] of [js] in turn, on the
    local variables [acc] it assigns. *)
Fixpoint for_each {A} (body : A → Z → M A) (acc : A) (js : list Z) : M A :=
  match js with
  | [] => ret acc
  | j :: js' => acc' <- body acc j ;; for_each body acc' js'
  end.

Definition minChild (i : Z) : M Z :=
  from <- bind (read_child i) assert_some ;;
  s <- gets sz ;;
  d <- gets D ;;
  let to := Z.min s (from + d) in
  acc <- for_each minChild_step (-1, i) (seqZ from (to - from)) ;;
  ret (fst acc).

(** [for (let j = this.minChild(i); j !== -1; ) { ... }] from the first test
    of [j] on. *)
Fixpoint sink_loop (fuel : nat) (i j : Z) : M unit :=
  match fuel with
  | O => timeout
  | S fuel' =>
      if j =? -1 then ret tt
      else
        swap i j ;;
        j' <- minChild j ;;
        sink_loop fuel' j j'
  end.

(** The slot moves towards the leaves and stays below [sz]: the loop is given
    [sz - i] iterations and a last test. *)
Definition sink (i : Z) : M unit :=
  j <- minChild i ;;
  s <- gets sz ;;
  sink_loop (S (Z.to_nat (s - i))) i j.

Fixpoint swim_loop (fuel : nat) (i : Z) : M unit :=
  match fuel with
  | O => timeout
  | S fuel' =>
      if 0 <? i then
        p <- bind (read_parent i) assert_some ;;
        b <- less i p ;;
        if b then
          p1 <- bind (read_parent i) assert_some ;;
          swap i p1 ;;
          p2 <- bind (read_parent i) assert_some ;;
          swim_loop fuel' p2
        else ret tt
      else ret tt
  end.

(** The slot moves towards the root: the loop is given [i] iterations and a
    last test. *)
Definition swim (i : Z) : M unit := swim_loop (S (Z.to_nat i)) i.

(** ** Public operations *)

Definition peekMinKeyIndex : M (option Z) :=
  isNotEmptyOrThrow ;; read_im 0.

Definition peekMinValue : M T :=
  isNotEmptyOrThrow ;;
  k <- bind (read_im 0) assert_some ;;
  bind (read_values k) assert_value.

Definition insert (ki : Z) (value : option T) : M unit :=
  c <- contains ki ;;
  if c then throw DuplicateKey
  else
    v <- valueNotNullOrThrow value ;;
    s <- gets sz ;;
    write_pm ki s ;;
    s1 <- gets sz ;;
    write_im s1 ki ;;
    write_values ki (Some v) ;;
    s2 <- gets sz ;;
    set_sz (s2 + 1) ;;
    swim s2.

Definition valueOf (ki : Z) : M T :=
  keyExistsOrThrow ki ;;
  bind (read_values ki) assert_value.

Definition delete (ki : Z) : M T :=
  keyExistsOrThrow ki ;;
  i <- bind (read_pm ki) assert_some ;;
  s <- gets sz ;;
  set_sz (s - 1) ;;
  s1 <- gets sz ;;
  swap i s1 ;;
  sink i ;;
  swim i ;;
  value <- bind (read_values ki) assert_value ;;
  write_values ki None ;;
  write_pm ki (-1) ;;
  s2 <- gets sz ;;
  write_im s2 (-1) ;;
  ret value.

Definition pollMinKeyIndex : M Z :=
  minKi <- bind peekMinKeyIndex assert_some ;;
  delete minKi ;;
  ret minKi.

Definition pollMinValue : M T :=
  minValue <- peekMinValue ;;
  k <- bind peekMinKeyIndex assert_some ;;
  delete k ;;
  ret minValue.

Definition update (ki : Z) (value : option T) : M T :=
  v <- keyExistsAndValueNotNullOrThrow ki value ;;
  i <- bind (read_pm ki) assert_some ;;
  oldValue <- bind (read_values ki) assert_value ;;
  write_values ki (Some v) ;;
  sink i ;;
  swim i ;;
  ret oldValue.

Definition decrease (ki : Z) (value : option T) : M unit :=
  v <- keyExistsAndValueNotNullOrThrow ki value ;;
  cur <- bind (read_values ki) assert_value ;;
  if lessValue v cur then
    write_values ki (Some v) ;;
    p <- bind (read_pm ki) assert_some ;;
    swim p
  else ret tt.

Definition increase (ki : Z) (value : option T) : M unit :=
  v <- keyExistsAndValueNotNullOrThrow ki value ;;
  cur <- bind (read_values ki) assert_value ;;
  if lessValue cur v then
    write_values ki (Some v) ;;
    p <- bind (read_pm ki) assert_some ;;
    sink p
  else ret tt.

(** ** Testing *)

(** A [for] loop whose body may [return false]. *)
Fixpoint all_of (body : Z → M bool) (js : list Z) : M bool :=
  match js with
  | [] => ret true
  | j :: js' => b <- body j ;; if b then all_of body js' else ret false
  end.

(** The recursion descends one tree level per call; [fuel] bounds the depth. *)
Fixpoint isMinHeapAt (fuel : nat) (i : Z) : M bool :=
  match fuel with
  | O => timeout
  | S fuel' =>
      from <- bind (read_child i) assert_some ;;
      s <- gets sz ;;
      d <- gets D ;;
      let to := Z.min s (from + d) in
      all_of (λ j, b <- less i j ;;
                   if negb b then ret false else isMinHeapAt fuel' j)
             (seqZ from (to - from))
  end.

Definition isMinHeap : M bool :=
  s <- gets sz ;;
  isMinHeapAt (S (Z.to_nat s)) 0.

End Heap.

Arguments heap T : clear implicits.
Arguments M T A : clear implicits.

(** ** Operations as data, for sequences of calls *)

Inductive op (T : Type) : Type :=
| Insert (ki : Z) (value : option T)
| Delete (ki : Z)
| Update (ki : Z) (value : option T)
| Increase (ki : Z) (value : option T)
| Decrease (ki : Z) (value : option T)
| PollMinKeyIndex
| PollMinValue
| PeekMinKeyIndex
| PeekMinValue
| Contains (ki : Z)
| ValueOf (ki : Z)
| Size
| IsEmpty
| IsMinHeap.

Arguments Insert {T} ki value.
Arguments Delete {T} ki.
Arguments Update {T} ki value.
Arguments Increase {T} ki value.
Arguments Decrease {T} ki value.
Arguments PollMinKeyIndex {T}.
Arguments PollMinValue {T}.
Arguments PeekMinKeyIndex {T}.
Arguments PeekMinValue {T}.
Arguments Contains {T} ki.
Arguments ValueOf {T} ki.
Arguments Size {T}.
Arguments IsEmpty {T}.
Arguments IsMinHeap {T}.

(** What a call hands back to the caller. *)
Inductive answer (T : Type) : Type :=
| Void
| Key (k : option Z)
| Value (v : T)
| Bool (b : bool)
| Num (n : Z).

Arguments Void {T}.
Arguments Key {T} k.
Arguments Value {T} v.
Arguments Bool {T} b.
Arguments Num {T} n.

Section Calls.

Context {T : Type}.
Variable compare : T → T → Z.

Definition fmapM {A B} (f : A → B) (m : M T A) : M T B :=
  bind m (λ a, ret (f a)).

Definition exec (o : op T) : M T (answer T) :=
  match o with
  | Insert ki value => fmapM (λ _, Void) (insert compare ki value)
  | Delete ki => fmapM Value (delete compare ki)
  | Update ki value => fmapM Value (update compare ki value)
  | Increase ki value => fmapM (λ _, Void) (increase compare ki value)
  | Decrease ki value => fmapM (λ _, Void) (decrease compare ki value)
  | PollMinKeyIndex => fmapM (λ k, Key (Some k)) (pollMinKeyIndex compare)
  | PollMinValue => fmapM Value (pollMinValue compare)
  | PeekMinKeyIndex => fmapM Key peekMinKeyIndex
  | PeekMinValue => fmapM Value peekMinValue
  | Contains ki => fmapM Bool (contains ki)
  | ValueOf ki => fmapM Value (valueOf ki)
  | Size => fmapM Num size
  | IsEmpty => fmapM Bool isEmpty
  | IsMinHeap => fmapM Bool (isMinHeap compare)
  end.

(** The answers of a sequence of calls on one object; a call that throws
    leaves the object as it was at the [throw] and the caller goes on. *)
Fixpoint run_ops (os : list (op T)) (h : heap T) : list (res (answer T)) :=
  match os with
  | [] => []
  | o :: os' => let '(r, h') := exec o h in r :: run_ops os' h'
  end.

Definition is_peek (o : op T) : bool :=
  match o with PeekMinKeyIndex | PeekMinValue => true | _ => false end.

(** The answers of the [peekMinKeyIndex] and [peekMinValue] calls only. *)
Fixpoint peek_trace (os : list (op T)) (h : heap T) : list (res (answer T)) :=
  match os with
  | [] => []
  | o :: os' =>
      let '(r, h') := exec o h in
      if is_peek o then r :: peek_trace os' h' else peek_trace os' h'
  end.

Definition session (new : res (heap T)) (os : list (op T))
  : res (list (res (answer T))) :=
  match new with
  | Ok h => Ok (peek_trace os h)
  | Raise e => Raise e
  | Undef => Undef
  | Timeout => Timeout
  end.

(** The object after a sequence of calls. *)
Fixpoint after (os : list (op T)) (h : heap T) : heap T :=
  match os with
  | [] => h
  | o :: os' => after os' (snd (exec o h))
  end.

(** States an object can be in: freshly constructed, or after one more call
    that returned or threw. *)
Inductive reachable : heap T → Prop :=
| reachable_new degree maxSize h :
    MinIndexedDHeap degree maxSize = Ok h → reachable h
| reachable_call o h a h' :
    reachable h → exec o h = (Ok a, h') → reachable h'
| reachable_throw o h e h' :
    reachable h → exec o h = (Raise e, h') → reachable h'.

End Calls.

(** * Invariants *)

Section Invariants.

Context {T : Type}.
Variable compare : T → T → Z.

(** The caller contract on the comparator: its sign is antisymmetric and
    "not greater" is transitive. *)
Record consistent : Prop := {
  compare_antisym : ∀ a b, compare a b < 0 ↔ 0 < compare b a;
  compare_trans : ∀ a b c, compare a b ≤ 0 → compare b c ≤ 0 → compare a c ≤ 0
}.

(** The value held in a slot: [values[im[s]]]. *)
Definition val_at (h : heap T) (s : Z) : option T :=
  match im h !! s with
  | Some k => match values h !! k with Some (Some v) => Some v | _ => None end
  | None => None
  end.

(** [value(inverse[p]) <= value(inverse[c])] under the comparator. *)
Definition slot_le (h : heap T) (p c : Z) : Prop :=
  match val_at h p, val_at h c with
  | Some a, Some b => compare a b ≤ 0
  | _, _ => False
  end.

Definition slot_lt (h : heap T) (p c : Z) : Prop :=
  match val_at h p, val_at h c with
  | Some a, Some b => compare a b < 0
  | _, _ => False
  end.

(** The topology arrays are the ones the constructor computed. *)
Record topo (h : heap T) : Prop := {
  topo_D : 2 ≤ D h;
  topo_N : D h + 1 ≤ N h;
  topo_parent : ∀ i, 0 ≤ i < N h → parent h !! i = Some ((i - 1) / D h);
  topo_child : ∀ i, 0 ≤ i < N h → child h !! i = Some (i * D h + 1)
}.

(** Keys and the slots below [n] are in bijection through [pm] and [im];
    every key that has a slot has a value and no other key has one. *)
Record bij (n : Z) (h : heap T) : Prop := {
  bij_n : 0 ≤ n ≤ N h;
  bij_im : ∀ s, 0 ≤ s < n →
    ∃ k, im h !! s = Some k ∧ 0 ≤ k < N h ∧ pm h !! k = Some s;
  bij_pm : ∀ k, 0 ≤ k < N h →
    ∃ s, pm h !! k = Some s ∧ (s = -1 ∨ (0 ≤ s < n ∧ im h !! s = Some k));
  bij_free : ∀ s, n ≤ s < N h → im h !! s = Some (-1);
  bij_set : ∀ k s, 0 ≤ k < N h → pm h !! k = Some s → s ≠ -1 →
    ∃ v, values h !! k = Some (Some v);
  bij_unset : ∀ k, 0 ≤ k < N h → pm h !! k = Some (-1) →
    values h !! k = Some None
}.

(** Heap order among the slots below [n]. *)
Definition ordered (n : Z) (h : heap T) : Prop :=
  ∀ c, 0 < c < n → slot_le h ((c - 1) / D h) c.

(** Heap order but for the edge above slot [i] and the edges below it, with
    the parent of [i] not greater than the children of [i]. *)
Definition ordered_but (n : Z) (h : heap T) (i : Z) : Prop :=
  (∀ c, 0 < c < n → c ≠ i → (c - 1) / D h ≠ i → slot_le h ((c - 1) / D h) c) ∧
  (∀ c, 0 < c < n → (c - 1) / D h = i → 0 < i →
        slot_le h ((i - 1) / D h) c).

(** The same, with the edges below [i] in order too. *)
Definition ordered_but_up (n : Z) (h : heap T) (i : Z) : Prop :=
  (∀ c, 0 < c < n → c ≠ i → slot_le h ((c - 1) / D h) c) ∧
  (∀ c, 0 < c < n → (c - 1) / D h = i → 0 < i →
        slot_le h ((i - 1) / D h) c).

(** The same, with the edge above [i] in order instead. *)
Definition ordered_but_down (n : Z) (h : heap T) (i : Z) : Prop :=
  (∀ c, 0 < c < n → (c - 1) / D h ≠ i → slot_le h ((c - 1) / D h) c) ∧
  (∀ c, 0 < c < n → (c - 1) / D h = i → 0 < i →
        slot_le h ((i - 1) / D h) c).

(** What [swap], [sink] and [swim] leave alone: the fields other than [pm]
    and [im], and the slots from [n] on. *)
Record frame (n : Z) (h h' : heap T) : Prop := {
  frame_sz : sz h' = sz h;
  frame_N : N h' = N h;
  frame_D : D h' = D h;
  frame_child : child h' = child h;
  frame_parent : parent h' = parent h;
  frame_values : values h' = values h;
  frame_im : ∀ s, n ≤ s → im h' !! s = im h !! s
}.

(** [j] is what [minChild] answers for slot [i]: [-1] when no child below [n]
    is less than [i], else a child less than [i] and not greater than any
    other child. *)
Definition min_child_of (n : Z) (h : heap T) (i j : Z) : Prop :=
  (j = -1 ∧ ∀ c, 0 < c < n → (c - 1) / D h = i → slot_le h i c) ∨
  (i < j < n ∧ (j - 1) / D h = i ∧ slot_lt h j i ∧
   ∀ c, 0 < c < n → (c - 1) / D h = i → slot_le h j c).

(** The slot [s] after the slots [i] and [j] traded their keys. *)
Definition transp (i j s : Z) : Z :=
  if decide (s = i) then j else if decide (s = j) then i else s.

(** The state after [this.values[ki] = v]. *)
Definition stored (h : heap T) (ki : Z) (v : option T) : heap T :=
  snd (write_values ki v h).

(** The state in which [insert] calls [swim]: the key sits in the first free
    slot and [sz] counts it. *)
Definition placed (h : heap T) (ki : Z) (v : T) : heap T :=
  Heap (sz h + 1) (N h) (D h) (child h) (parent h)
       (<[ki := sz h]> (pm h)) (<[sz h := ki]> (im h))
       (<[ki := Some v]> (values h)).

(** The state after [--this.sz]. *)
Definition shrunk (h : heap T) : heap T := snd (set_sz (sz h - 1) h).

(** The state after the last three writes of [delete]. *)
Definition cleared (h : heap T) (ki : Z) : heap T :=
  Heap (sz h) (N h) (D h) (child h) (parent h)
       (<[ki := -1]> (pm h)) (<[sz h := -1]> (im h))
       (<[ki := None]> (values h)).

(** The invariant of the object between calls. *)
Record wf (h : heap T) : Prop := {
  wf_topo : topo h;
  wf_bij : bij (sz h) h;
  wf_ordered : ordered (sz h) h
}.

(** The topology arrays hold what the constructor wrote and nothing else. *)
Record layout (h : heap T) : Prop := {
  layout_topo : topo h;
  layout_parent : ∀ i p,
    parent h !! i = Some p → 0 ≤ i < N h ∧ p = (i - 1) / D h;
  layout_child : ∀ i f,
    child h !! i = Some f → 0 ≤ i < N h ∧ f = i * D h + 1
}.

(** The fields no method assigns, and those with [sz]. *)
Definition layout_of (h : heap T) : Z * Z * gmap Z Z * gmap Z Z :=
  (N h, D h, child h, parent h).
Definition shape_of (h : heap T) : Z * (Z * Z * gmap Z Z * gmap Z Z) :=
  (sz h, layout_of h).

(** [m] leaves the part [π] of the state as it found it, however it ends. *)
Definition keeps {A B} (π : heap T → B) (m : M T A) : Prop :=
  ∀ h, π (snd (m h)) = π h.

(** [m] does not run out of fuel from [h]; from any state with the
    constructor's topology. *)
Definition halts {A} (m : M T A) (h : heap T) : Prop := fst (m h) ≠ Timeout.
Definition safe {A} (m : M T A) : Prop := ∀ h, layout h → halts m h.

(** A call settles: it throws and leaves the object as it was, or it returns
    and leaves an object that satisfies the invariant.  In particular it
    neither gets stuck nor runs out of fuel. *)
Definition settles {A} (m : M T A) (h : heap T) : Prop :=
  (∃ e, m h = (Raise e, h)) ∨ (∃ a h', m h = (Ok a, h') ∧ wf h').

End Invariants.

(** A call came back to its caller: it returned or it threw. *)
Definition comes_back {A} (r : res A) : Prop :=
  match r with
  | Ok _ | Raise _ => True
  | Undef | Timeout => False
  end.

(** * Observations of an object *)

Section Observations.

Context {T : Type}.

(** What the sifting helpers leave alone: [sz], [N] and the value store. *)
Definition store_of (h : heap T) : Z * Z * gmap Z (option T) :=
  (sz h, N h, values h).

(** [m] never throws. *)
Definition quiet {A} (m : M T A) : Prop := ∀ h e, fst (m h) ≠ Raise e.

(** When [m] throws, the object is as it was before the call. *)
Definition atomic {A} (m : M T A) : Prop :=
  ∀ h e h', m h = (Raise e, h') → h' = h.

(** The keys for which [contains] answers [true]. *)
Definition answers_true (r : res bool) : bool :=
  match r with Ok true => true | _ => false end.

Definition active_keys (h : heap T) : list Z :=
  filter (λ k, answers_true (fst (contains k h)) = true) (seqZ 0 (N h)).

(** The values a sequence of answers hands back. *)
Fixpoint handed_back (rs : list (res (answer T))) : list T :=
  match rs with
  | [] => []
  | Ok (Value v) :: rs' => v :: handed_back rs'
  | _ :: rs' => handed_back rs'
  end.

(** Slot [c] lies in the subtree of slot [i] of the tree of degree [d]. *)
Inductive under (d : Z) (i : Z) : Z → Prop :=
| under_self : under d i i
| under_child j c : 0 < j → (j - 1) / d = i → under d j c → under d i c.

End Observations.

(** * Objects the examples use *)

(** The comparator of the test suite, [(a, b) => a - b]. *)
Definition zcmp (a b : Z) : Z := a - b.

(** [new MinIndexedDHeap<number>(degree, maxSize, (a, b) => a - b)] after a
    construction that succeeds. *)
Definition fresh (degree maxSize : Z) : heap Z :=
  match MinIndexedDHeap degree maxSize with
  | Ok h => h
  | _ => Heap 0 0 0 ∅ ∅ ∅ ∅ ∅
  end.

(** The heap of the test "should insert and peekMinValue". *)
Definition sample : heap Z :=
  after zcmp [Insert 0 (Some 50); Insert 1 (Some 20); Insert 2 (Some 30)]
        (fresh 3 10).

(** A heap with two keys of the same value. *)
Definition twins : heap Z :=
  after zcmp [Insert 0 (Some 5); Insert 1 (Some 5)] (fresh 3 10).

(** A heap of capacity 3 that holds three keys. *)
Definition crowded : heap Z :=
  after zcmp [Insert 0 (Some 7); Insert 1 (Some 5); Insert 2 (Some 9)]
        (fresh 2 1).

(** [sample] after [values[1] = 100] alone: the value of the root slot is
    greater than the values of its children. *)
Definition raised : heap Z := stored sample 1 (Some 100).


(** * Proofs *)

(** Symbolic execution of the monadic code: unfold the plumbing, then use the
    hypotheses that tell what a read yields. *)
Ltac mred :=
  cbv beta iota delta
    [fmapM bind ret throw undef timeout gets modify assert_some assert_value
     read_child read_parent read_pm read_im read_values
     set_sz write_pm write_im write_values];
  cbn [sz N D child parent pm im values fst snd].

Ltac mread :=
  match goal with
  | H : ?x = Some _ |- context [?x] => rewrite H
  end.

Ltac mrun := mred; repeat (mread; mred).

(** Use [H : m h0 = r] for the call of [m] the goal has reached. *)
Ltac mcall H :=
  match type of H with
  | ?m ?h0 = _ =>
      match goal with
      | |- context [m ?h] => change h with h0; rewrite H
      end
  end.

(** Case analysis on every call and test the run [H] went through. *)
Ltac mcase H :=
  repeat match type of H with
    | context [let (_, _) := ?x in _] =>
        let r := fresh "r" in
        destruct x as [r ?]; destruct r; try done
    | context [if ?b then _ else _] => destruct b; try done
    end.

Section Facts.

Context {T : Type}.
Variable compare : T → T → Z.
Hypothesis Hcmp : consistent compare.

Lemma le_of_lt a b : compare a b < 0 → compare a b ≤ 0.
Proof. lia. Qed.

Lemma le_of_not_lt a b : ¬ compare b a < 0 → compare a b ≤ 0.
Proof.
  intros Hn. destruct (Z_le_gt_dec (compare a b) 0) as [|Hgt]; [done|].
  exfalso. apply Hn. apply (compare_antisym _ Hcmp). lia.
Qed.

Lemma not_lt_of_le a b : compare a b ≤ 0 → ¬ compare b a < 0.
Proof.
  intros Hle Hlt. apply (compare_antisym _ Hcmp) in Hlt. lia.
Qed.

(** ** Slot arithmetic *)

Lemma parent_lt d c : 2 ≤ d → 0 < c → 0 ≤ (c - 1) / d < c.
Proof.
  intros Hd Hc. split.
  - apply Z.div_pos; lia.
  - assert ((c - 1) / d ≤ c - 1); [|lia].
    apply Z.div_le_upper_bound; nia.
Qed.

Lemma parent_child d s c : 2 ≤ d → (c - 1) / d = s ↔ s * d + 1 ≤ c ≤ s * d + d.
Proof.
  intros Hd. split.
  - intros <-. pose proof (Z.div_mod (c - 1) d ltac:(lia)).
    pose proof (Z.mod_pos_bound (c - 1) d ltac:(lia)). nia.
  - intros [H1 H2]. symmetry. apply (Z.div_unique (c - 1) d s (c - 1 - s * d)); lia.
Qed.

(** ** [swap] *)

Lemma swap_spec n (h : heap T) i j :
  bij n h → 0 ≤ i < n → 0 ≤ j < n →
  ∃ h', swap i j h = (Ok tt, h') ∧ (∀ m, i < m → j < m → frame m h h') ∧
        bij n h' ∧ (∀ s, im h' !! s = im h !! (transp i j s)).
Proof.
  intros Hb Hi Hj.
  destruct (bij_im _ _ Hb i Hi) as (ki & Hki & Hkir & Hpi).
  destruct (bij_im _ _ Hb j Hj) as (kj & Hkj & Hkjr & Hpj).
  assert (Hinj : ki = kj → i = j) by (intros ->; congruence).
  eexists. split.
  { unfold swap. mrun. reflexivity. }
  split; [|split].
  - intros m Him Hjm. constructor; simpl; try done.
    intros s Hs. rewrite !lookup_insert_ne by lia. done.
  - destruct Hb as [Hn Him Hpm Hfree Hset Hunset]. constructor; simpl.
    + done.
    + intros s Hs.
      destruct (decide (s = j)) as [->|Hsj].
      { exists ki. rewrite !lookup_insert_eq. done. }
      rewrite (lookup_insert_ne _ j s) by done.
      destruct (decide (s = i)) as [->|Hsi].
      { exists kj. rewrite lookup_insert_eq. split; [done|]. split; [done|].
        rewrite lookup_insert_ne by (intros E; apply Hsj; auto).
        by rewrite lookup_insert_eq. }
      rewrite lookup_insert_ne by done.
      destruct (Him s Hs) as (k & Hk & Hkr & Hpk).
      exists k. split; [done|]. split; [done|].
      rewrite !lookup_insert_ne by congruence. done.
    + intros k Hk.
      destruct (decide (k = ki)) as [->|Hkki].
      { exists j. rewrite !lookup_insert_eq. split; [done|]. right. done. }
      rewrite (lookup_insert_ne _ ki k) by done.
      destruct (decide (k = kj)) as [->|Hkkj].
      { exists i. rewrite lookup_insert_eq. split; [done|]. right. split; [done|].
        rewrite lookup_insert_ne by congruence. by rewrite lookup_insert_eq. }
      rewrite lookup_insert_ne by done.
      destruct (Hpm k Hk) as (s & Hs & [->|[Hsr Hsk]]).
      { exists (-1). split; [done|]. by left. }
      exists s. split; [done|]. right. split; [done|].
      rewrite !lookup_insert_ne by congruence. done.
    + intros s Hs. rewrite !lookup_insert_ne by lia. auto.
    + intros k s Hk Hs Hne.
      destruct (decide (k = ki)) as [->|Hkki]; [by eapply (Hset ki i); eauto; lia|].
      destruct (decide (k = kj)) as [->|Hkkj]; [by eapply (Hset kj j); eauto; lia|].
      rewrite !lookup_insert_ne in Hs by done. eauto.
    + intros k Hk Hs.
      destruct (decide (k = ki)) as [->|Hkki].
      { rewrite lookup_insert_eq in Hs. simplify_eq. lia. }
      rewrite (lookup_insert_ne _ ki k) in Hs by done.
      destruct (decide (k = kj)) as [->|Hkkj].
      { rewrite lookup_insert_eq in Hs. simplify_eq. lia. }
      rewrite lookup_insert_ne in Hs by done. auto.
  - intros s. simpl. unfold transp.
    destruct (decide (s = i)) as [->|Hsi].
    + destruct (decide (i = j)) as [->|Hij].
      * rewrite lookup_insert_eq. congruence.
      * rewrite lookup_insert_ne by done. rewrite lookup_insert_eq. done.
    + destruct (decide (s = j)) as [->|Hsj].
      * by rewrite lookup_insert_eq.
      * by rewrite !lookup_insert_ne.
Qed.

Lemma val_at_frame_transp n (h h' : heap T) i j :
  frame n h h' → (∀ s, im h' !! s = im h !! (transp i j s)) →
  ∀ s, val_at h' s = val_at h (transp i j s).
Proof.
  intros Hf Him s. unfold val_at. by rewrite Him, (frame_values _ _ _ Hf).
Qed.

Lemma bij_val_at n (h : heap T) s :
  bij n h → 0 ≤ s < n → ∃ v, val_at h s = Some v.
Proof.
  intros Hb Hs. destruct (bij_im _ _ Hb s Hs) as (k & Hk & Hkr & Hp).
  destruct (bij_set _ _ Hb k s Hkr Hp ltac:(lia)) as [v Hv].
  exists v. unfold val_at. by rewrite Hk, Hv.
Qed.

Lemma less_spec (h : heap T) i j a b :
  val_at h i = Some a → val_at h j = Some b →
  less compare i j h = (Ok (compare a b <? 0), h).
Proof.
  unfold val_at. intros Hi Hj.
  destruct (im h !! i) as [ki|] eqn:Hki; [|done].
  destruct (values h !! ki) as [[va|]|] eqn:Hva; simplify_eq.
  destruct (im h !! j) as [kj|] eqn:Hkj; [|done].
  destruct (values h !! kj) as [[vb|]|] eqn:Hvb; simplify_eq.
  unfold less. mrun. reflexivity.
Qed.

Lemma slot_le_refl n (h : heap T) s : bij n h → 0 ≤ s < n → slot_le compare h s s.
Proof.
  intros Hb Hs. destruct (bij_val_at _ _ _ Hb Hs) as [v Hv].
  unfold slot_le. rewrite Hv. apply le_of_not_lt. intros Hlt.
  pose proof (proj1 (compare_antisym _ Hcmp v v) Hlt). lia.
Qed.

Lemma slot_le_trans (h : heap T) a b c :
  slot_le compare h a b → slot_le compare h b c → slot_le compare h a c.
Proof.
  unfold slot_le. destruct (val_at h a), (val_at h b), (val_at h c); try done.
  apply (compare_trans _ Hcmp).
Qed.

Lemma slot_lt_le (h : heap T) a b : slot_lt compare h a b → slot_le compare h a b.
Proof.
  unfold slot_lt, slot_le. destruct (val_at h a), (val_at h b); try done. lia.
Qed.

Lemma slot_lt_le_trans (h : heap T) a b c :
  slot_lt compare h a b → slot_le compare h b c → slot_lt compare h a c.
Proof.
  unfold slot_lt, slot_le.
  destruct (val_at h a) as [va|], (val_at h b) as [vb|], (val_at h c) as [vc|];
    try done.
  intros Hab Hbc.
  destruct (Z_lt_ge_dec (compare va vc) 0) as [|Hge]; [done|]. exfalso.
  assert (compare vc va ≤ 0) as Hca.
  { apply le_of_not_lt. lia. }
  pose proof (compare_trans _ Hcmp _ _ _ Hbc Hca) as Hba.
  apply not_lt_of_le in Hba. lia.
Qed.

(** ** [minChild] *)

Lemma minChild_loop nb (h : heap T) i from :
  bij nb h → 0 ≤ i < nb → 0 ≤ from →
  ∀ (len : nat) a index cur,
    from ≤ a → a + Z.of_nat len ≤ nb →
    0 ≤ cur < nb →
    (index = -1 ∧ cur = i) ∨
      (index = cur ∧ from ≤ cur < a ∧ slot_lt compare h cur i) →
    (∀ c, from ≤ c < a → slot_le compare h cur c) →
    ∃ index' cur',
      for_each (minChild_step compare) (index, cur) (seqZ a (Z.of_nat len)) h
        = (Ok (index', cur'), h) ∧
      0 ≤ cur' < nb ∧
      ((index' = -1 ∧ cur' = i) ∨
       (index' = cur' ∧ from ≤ cur' < a + Z.of_nat len ∧
        slot_lt compare h cur' i)) ∧
      (∀ c, from ≤ c < a + Z.of_nat len → slot_le compare h cur' c).
Proof.
  intros Hb Hi Hfrom len. induction len as [|len IH];
    intros a index cur Ha Hlen Hcur Hacc Hmin.
  - exists index, cur. simpl. rewrite Z.add_0_r. done.
  - rewrite seqZ_cons by lia.
    replace (Z.pred (Z.of_nat (S len))) with (Z.of_nat len) by lia.
    destruct (bij_val_at _ _ a Hb ltac:(lia)) as [va Hva].
    destruct (bij_val_at _ _ cur Hb Hcur) as [vc Hvc].
    simpl. unfold minChild_step at 1. unfold bind at 1. unfold bind at 1.
    simpl. rewrite (less_spec _ _ _ _ _ Hva Hvc).
    destruct (compare va vc <? 0) eqn:Hlt.
    + apply Z.ltb_lt in Hlt.
      assert (slot_lt compare h a cur) as Hacur.
      { unfold slot_lt. by rewrite Hva, Hvc. }
      unfold ret at 1.
      destruct (IH (Z.succ a) a a) as (index' & cur' & Hrun & Hr & Hacc' & Hmin').
      * lia.
      * lia.
      * lia.
      * right. split; [done|]. split; [lia|].
        destruct Hacc as [[_ ->]|(_ & _ & Hci)]; [done|].
        eapply slot_lt_le_trans; [done|]. by apply slot_lt_le.
      * intros c Hc. destruct (decide (c = a)) as [->|Hne].
        { eapply slot_le_refl; [done|lia]. }
        eapply slot_le_trans; [by apply slot_lt_le|]. apply Hmin. lia.
      * exists index', cur'. split; [done|]. split; [done|].
        split.
        { destruct Hacc' as [?|(? & ? & ?)]; [by left|right]. split; [done|]. split; [lia|done]. }
        intros c Hc. apply Hmin'. lia.
    + apply Z.ltb_ge in Hlt.
      unfold ret at 1.
      destruct (IH (Z.succ a) index cur) as (index' & cur' & Hrun & Hr & Hacc' & Hmin').
      * lia.
      * lia.
      * lia.
      * destruct Hacc as [?|(? & ? & ?)]; [by left|right]. split; [done|]. split; [lia|done].
      * intros c Hc. destruct (decide (c = a)) as [->|Hne].
        { unfold slot_le. rewrite Hvc, Hva. apply le_of_not_lt. lia. }
        apply Hmin. lia.
      * exists index', cur'. split; [done|]. split; [done|].
        split.
        { destruct Hacc' as [?|(? & ? & ?)]; [by left|right]. split; [done|]. split; [lia|done]. }
        intros c Hc. apply Hmin'. lia.
Qed.

Lemma minChild_spec nb (h : heap T) i :
  topo h → bij nb h → sz h ≤ nb → 0 ≤ i < nb →
  ∃ j, minChild compare i h = (Ok j, h) ∧ min_child_of compare (sz h) h i j.
Proof.
  intros Ht Hb Hsz Hi. unfold min_child_of.
  pose proof (topo_D _ Ht) as HD.
  pose proof (bij_n _ _ Hb) as Hn.
  pose proof (topo_child _ Ht i ltac:(lia)) as Hch.
  set (from := i * D h + 1) in *.
  set (to := Z.min (sz h) (from + D h)).
  assert (∀ c, 0 < c < sz h → (c - 1) / D h = i → from ≤ c < to) as Hrange.
  { intros c Hc Hpc. apply parent_child in Hpc; [|done]. subst from to. lia. }
  destruct (decide (to ≤ from)) as [Hempty|Hsome].
  { exists (-1). split.
    - unfold minChild. mrun. fold from. fold to. rewrite seqZ_nil by lia.
      reflexivity.
    - left. split; [done|]. intros c Hc Hpc. specialize (Hrange c Hc Hpc). lia. }
  destruct (minChild_loop nb h i from Hb Hi ltac:(subst from; nia)
              (Z.to_nat (to - from)) from (-1) i) as
    (index & cur & Hrun & Hcur & Hacc & Hmin).
  { lia. } { lia. } { lia. } { by left. } { intros c Hc. lia. }
  rewrite Z2Nat.id in Hrun, Hacc, Hmin by lia.
  exists index. split.
  { unfold minChild. mrun. fold from. fold to. rewrite Hrun. reflexivity. }
  destruct Hacc as [[-> ->]|(-> & Hr & Hlt)].
  - left. split; [done|]. intros c Hc Hpc. apply Hmin.
    specialize (Hrange c Hc Hpc). lia.
  - right.
    split; [subst from to; nia|]. split.
    { apply parent_child; [done|]. subst from to. lia. }
    split; [done|]. intros c Hc Hpc. apply Hmin.
    specialize (Hrange c Hc Hpc). lia.
Qed.

(** ** Frames *)

Lemma frame_refl n (h : heap T) : frame n h h.
Proof. by constructor. Qed.

Lemma frame_trans n (h1 h2 h3 : heap T) :
  frame n h1 h2 → frame n h2 h3 → frame n h1 h3.
Proof.
  intros H12 H23. constructor.
  - rewrite (frame_sz _ _ _ H23). apply (frame_sz _ _ _ H12).
  - rewrite (frame_N _ _ _ H23). apply (frame_N _ _ _ H12).
  - rewrite (frame_D _ _ _ H23). apply (frame_D _ _ _ H12).
  - rewrite (frame_child _ _ _ H23). apply (frame_child _ _ _ H12).
  - rewrite (frame_parent _ _ _ H23). apply (frame_parent _ _ _ H12).
  - rewrite (frame_values _ _ _ H23). apply (frame_values _ _ _ H12).
  - intros s Hs. rewrite (frame_im _ _ _ H23 s Hs). by apply (frame_im _ _ _ H12).
Qed.

Lemma topo_frame n (h h' : heap T) : frame n h h' → topo h → topo h'.
Proof.
  intros Hf Ht.
  pose proof (frame_N _ _ _ Hf) as HN. pose proof (frame_D _ _ _ Hf) as HD.
  constructor.
  - rewrite HD. apply (topo_D _ Ht).
  - rewrite HD, HN. apply (topo_N _ Ht).
  - intros i Hi. rewrite (frame_parent _ _ _ Hf), HD. apply (topo_parent _ Ht). lia.
  - intros i Hi. rewrite (frame_child _ _ _ Hf), HD. apply (topo_child _ Ht). lia.
Qed.

Lemma slot_le_transp n (h h' : heap T) i j x y :
  frame n h h' → (∀ s, im h' !! s = im h !! (transp i j s)) →
  slot_le compare h (transp i j x) (transp i j y) → slot_le compare h' x y.
Proof.
  intros Hf Him. unfold slot_le.
  by rewrite !(val_at_frame_transp _ _ _ _ _ Hf Him).
Qed.

Lemma transp_l i j : transp i j i = j.
Proof. unfold transp. by rewrite decide_True. Qed.

Lemma transp_r i j : transp i j j = i.
Proof. unfold transp. destruct (decide (j = i)); [done|]. by rewrite decide_True. Qed.

Lemma transp_other i j s : s ≠ i → s ≠ j → transp i j s = s.
Proof. intros. unfold transp. by rewrite !decide_False. Qed.

(** ** [swim] *)

Lemma swim_loop_spec nb n :
  n ≤ nb →
  ∀ (fuel : nat) i (h : heap T),
    topo h → bij nb h → 0 ≤ i < n → (Z.to_nat i < fuel)%nat →
    ordered_but_up compare n h i →
    ∃ h', swim_loop compare fuel i h = (Ok tt, h') ∧ frame n h h' ∧
          bij nb h' ∧ ordered compare n h'.
Proof.
  intros Hnb fuel. induction fuel as [|fuel IH]; intros i h Ht Hb Hi Hfuel [Hup1 Hup2];
    [lia|].
  pose proof (topo_D _ Ht) as HD. pose proof (bij_n _ _ Hb) as Hn.
  cbn [swim_loop]. destruct (0 <? i) eqn:Hpos.
  2:{ apply Z.ltb_ge in Hpos. exists h. split; [done|]. split; [apply frame_refl|].
      split; [done|]. intros c Hc. apply Hup1; lia. }
  apply Z.ltb_lt in Hpos.
  pose proof (topo_parent _ Ht i ltac:(lia)) as Hpar.
  set (p := (i - 1) / D h) in *.
  pose proof (parent_lt (D h) i HD Hpos) as Hp. fold p in Hp.
  destruct (bij_val_at _ _ i Hb ltac:(lia)) as [vi Hvi].
  destruct (bij_val_at _ _ p Hb ltac:(lia)) as [vp Hvp].
  mrun. rewrite (less_spec _ _ _ _ _ Hvi Hvp).
  destruct (compare vi vp <? 0) eqn:Hlt.
  2:{ apply Z.ltb_ge in Hlt. exists h. split; [done|]. split; [apply frame_refl|].
      split; [done|]. intros c Hc. destruct (decide (c = i)) as [->|Hne].
      - fold p. unfold slot_le. rewrite Hvp, Hvi. apply le_of_not_lt. lia.
      - by apply Hup1. }
  apply Z.ltb_lt in Hlt.
  assert (slot_lt compare h i p) as Hip by (unfold slot_lt; by rewrite Hvi, Hvp).
  destruct (swap_spec nb h i p Hb ltac:(lia) ltac:(lia)) as (h1 & Hswap & Hfr & Hb1 & Him1).
  specialize (Hfr n ltac:(lia) ltac:(lia)).
  mrun. rewrite Hswap. mred. rewrite (frame_parent _ _ _ Hfr), Hpar. mred.
  destruct (IH p h1) as (h' & Hrun & Hfr' & Hb' & Hord).
  - by eapply topo_frame.
  - done.
  - lia.
  - lia.
  - unfold ordered_but_up. rewrite (frame_D _ _ _ Hfr). split.
    + intros c Hc Hcp. eapply slot_le_transp; [done..|].
      destruct (decide (c = i)) as [->|Hci].
      { fold p. rewrite transp_l, transp_r. by apply slot_lt_le. }
      rewrite (transp_other i p c) by done.
      destruct (decide ((c - 1) / D h = i)) as [Hpc|Hpc].
      { rewrite Hpc, transp_l. fold p in Hup2. by apply Hup2. }
      destruct (decide ((c - 1) / D h = p)) as [Hpc'|Hpc'].
      { rewrite Hpc', transp_r. eapply slot_le_trans; [by apply slot_lt_le|].
        rewrite <- Hpc'. by apply Hup1. }
      rewrite transp_other by done. by apply Hup1.
    + intros c Hc Hpc Hp0.
      pose proof (parent_lt (D h) p HD Hp0) as Hpp.
      eapply slot_le_transp; [done..|].
      rewrite (transp_other i p ((p - 1) / D h)) by lia.
      destruct (decide (c = i)) as [->|Hci].
      { rewrite transp_l. apply Hup1; lia. }
      pose proof (parent_lt (D h) c HD ltac:(lia)) as Hpc'.
      rewrite transp_other by lia.
      eapply slot_le_trans; [apply (Hup1 p); lia|].
      rewrite <- Hpc. by apply Hup1.
  - exists h'. split; [done|]. split; [by eapply frame_trans|]. done.
Qed.

(** ** [sink] *)

Lemma ordered_but_down_but n (h : heap T) i :
  ordered_but_down compare n h i → ordered_but compare n h i.
Proof. intros [H1 H2]. split; [|done]. intros c Hc _. by apply H1. Qed.

Lemma ordered_ordered_but_up n (h : heap T) i :
  topo h → 0 ≤ i < n → ordered compare n h → ordered_but_up compare n h i.
Proof.
  intros Ht Hi Hord. split.
  - intros c Hc _. by apply Hord.
  - intros c Hc Hpc Hi0. eapply slot_le_trans; [apply (Hord i); lia|].
    rewrite <- Hpc. by apply Hord.
Qed.

Lemma sink_swap_down n (h h1 : heap T) i j :
  topo h → 0 ≤ i → i < j < n → (j - 1) / D h = i → slot_lt compare h j i →
  (∀ c, 0 < c < n → (c - 1) / D h = i → slot_le compare h j c) →
  ordered_but compare n h i →
  frame n h h1 → (∀ s, im h1 !! s = im h !! (transp i j s)) →
  ordered_but_down compare n h1 j.
Proof.
  intros Ht Hi Hj Hpj Hlt Hmin [Hb1 Hb2] Hfr Him.
  pose proof (topo_D _ Ht) as HD.
  unfold ordered_but_down. rewrite (frame_D _ _ _ Hfr). split.
  - intros c Hc Hpc. eapply slot_le_transp; [done..|].
    destruct (decide (c = j)) as [->|Hcj].
    { rewrite Hpj, transp_l, transp_r. by apply slot_lt_le. }
    destruct (decide (c = i)) as [->|Hci].
    { pose proof (parent_lt (D h) i HD ltac:(lia)).
      rewrite transp_l, transp_other by lia. apply Hb2; [lia|done|lia]. }
    rewrite (transp_other i j c) by done.
    destruct (decide ((c - 1) / D h = i)) as [Hpi|Hpi].
    { rewrite Hpi, transp_l. by apply Hmin. }
    rewrite transp_other by done. by apply Hb1.
  - intros c Hc Hpc Hj0. eapply slot_le_transp; [done..|].
    pose proof (parent_lt (D h) c HD ltac:(lia)).
    rewrite Hpj, transp_l, transp_other by lia.
    rewrite <- Hpc. apply Hb1; [done|lia|lia].
Qed.

Lemma sink_loop_spec nb :
  ∀ (fuel : nat) i j (h : heap T),
    topo h → bij nb h → sz h ≤ nb → 0 ≤ i < nb →
    (Z.to_nat (sz h - i) < fuel)%nat →
    ordered_but_down compare (sz h) h i →
    min_child_of compare (sz h) h i j →
    ∃ h', sink_loop compare fuel i j h = (Ok tt, h') ∧ frame (sz h) h h' ∧
          bij nb h' ∧ ordered compare (sz h) h'.
Proof.
  intros fuel. induction fuel as [|fuel IH];
    intros i j h Ht Hb Hsz Hi Hfuel Hdown Hj; [lia|].
  cbn [sink_loop]. destruct Hj as [[-> Hmin]|(Hj & Hpj & Hlt & Hmin)].
  - exists h. split; [done|]. split; [apply frame_refl|]. split; [done|].
    intros c Hc. destruct (decide ((c - 1) / D h = i)) as [Hpc|Hpc].
    + rewrite Hpc. by apply Hmin.
    + by apply (proj1 Hdown).
  - destruct (j =? -1) eqn:Hj1; [apply Z.eqb_eq in Hj1; lia|].
    destruct (swap_spec nb h i j Hb ltac:(lia) ltac:(lia))
      as (h1 & Hswap & Hfr & Hb1 & Him1).
    specialize (Hfr (sz h) ltac:(lia) ltac:(lia)).
    pose proof (topo_frame _ _ _ Hfr Ht) as Ht1.
    pose proof (frame_sz _ _ _ Hfr) as Hsz1.
    assert (ordered_but_down compare (sz h) h1 j) as Hdown1.
    { eapply (sink_swap_down _ h h1 i j); try done; try lia.
      by apply ordered_but_down_but. }
    destruct (minChild_spec nb h1 j Ht1 Hb1 ltac:(lia) ltac:(lia))
      as (j' & Hmc & Hj').
    unfold bind at 1. rewrite Hswap. unfold bind at 1. rewrite Hmc.
    rewrite Hsz1 in Hj'.
    destruct (IH j j' h1) as (h' & Hrun & Hfr' & Hb' & Hord); try done; try lia.
    + by rewrite Hsz1.
    + by rewrite Hsz1.
    + rewrite Hsz1 in *. exists h'. split; [done|].
      split; [by eapply frame_trans|]. done.
Qed.

Lemma sink_spec_down nb (h : heap T) i :
  topo h → bij nb h → sz h ≤ nb → 0 ≤ i < nb →
  ordered_but_down compare (sz h) h i →
  ∃ h', sink compare i h = (Ok tt, h') ∧ frame (sz h) h h' ∧
        bij nb h' ∧ ordered compare (sz h) h'.
Proof.
  intros Ht Hb Hsz Hi Hdown.
  destruct (minChild_spec nb h i Ht Hb Hsz Hi) as (j & Hmc & Hj).
  unfold sink. unfold bind at 1. rewrite Hmc. mred.
  apply (sink_loop_spec nb); try done. lia.
Qed.

Lemma sink_spec_but nb (h : heap T) i :
  topo h → bij nb h → sz h ≤ nb → 0 ≤ i < nb →
  ordered_but compare (sz h) h i →
  ∃ h', sink compare i h = (Ok tt, h') ∧ frame (sz h) h h' ∧
        bij nb h' ∧ ordered_but_up compare (sz h) h' i.
Proof.
  intros Ht Hb Hsz Hi Hbut.
  destruct (minChild_spec nb h i Ht Hb Hsz Hi) as (j & Hmc & Hj).
  unfold sink. unfold bind at 1. rewrite Hmc. mred. cbn [sink_loop].
  destruct Hj as [[-> Hmin]|(Hj & Hpj & Hlt & Hmin)].
  - exists h. split; [done|]. split; [apply frame_refl|]. split; [done|].
    destruct Hbut as [H1 H2]. split; [|done].
    intros c Hc Hci. destruct (decide ((c - 1) / D h = i)) as [Hpc|Hpc].
    + rewrite Hpc. by apply Hmin.
    + by apply H1.
  - destruct (j =? -1) eqn:Hj1; [apply Z.eqb_eq in Hj1; lia|].
    destruct (swap_spec nb h i j Hb ltac:(lia) ltac:(lia))
      as (h1 & Hswap & Hfr & Hb1 & Him1).
    specialize (Hfr (sz h) ltac:(lia) ltac:(lia)).
    pose proof (topo_frame _ _ _ Hfr Ht) as Ht1.
    pose proof (frame_sz _ _ _ Hfr) as Hsz1.
    assert (ordered_but_down compare (sz h) h1 j) as Hdown1.
    { eapply (sink_swap_down _ h h1 i j); try done; lia. }
    destruct (minChild_spec nb h1 j Ht1 Hb1 ltac:(lia) ltac:(lia))
      as (j' & Hmc' & Hj').
    unfold bind at 1. rewrite Hswap. unfold bind at 1. rewrite Hmc'.
    destruct (sink_loop_spec nb (Z.to_nat (sz h - i)) j j' h1)
      as (h' & Hrun & Hfr' & Hb' & Hord); try done; try lia.
    + by rewrite Hsz1.
    + rewrite Hsz1 in *. exists h'. split; [done|].
      split; [by eapply frame_trans|]. split; [done|].
      apply ordered_ordered_but_up; [|lia|done].
      eapply topo_frame; [|exact Ht1]. done.
Qed.

(** ** Calls that change nothing *)

Lemma swap_same n (h : heap T) i :
  bij n h → 0 ≤ i < n → swap i i h = (Ok tt, h).
Proof.
  intros Hb Hi. destruct (bij_im _ _ Hb i Hi) as (k & Hk & Hkr & Hp).
  unfold swap. mrun. rewrite !(insert_id (pm h)) by done.
  rewrite !(insert_id (im h)) by done. by destruct h.
Qed.

Lemma sink_leaf nb (h : heap T) i :
  topo h → bij nb h → sz h ≤ nb → 0 ≤ i < nb → sz h ≤ i + 1 →
  sink compare i h = (Ok tt, h).
Proof.
  intros Ht Hb Hsz Hi Hleaf.
  destruct (minChild_spec nb h i Ht Hb Hsz Hi) as (j & Hmc & [[-> _]|[Hj _]]);
    [|lia].
  unfold sink. unfold bind at 1. rewrite Hmc. mred. reflexivity.
Qed.

Lemma swim_root (h : heap T) : swim compare 0 h = (Ok tt, h).
Proof. reflexivity. Qed.

Lemma swim_in_order nb (h : heap T) i :
  topo h → bij nb h → 0 < i < nb →
  slot_le compare h ((i - 1) / D h) i →
  swim compare i h = (Ok tt, h).
Proof.
  intros Ht Hb Hi Hle.
  pose proof (topo_D _ Ht) as HD. pose proof (bij_n _ _ Hb) as Hn.
  pose proof (topo_parent _ Ht i ltac:(lia)) as Hpar.
  pose proof (parent_lt (D h) i HD ltac:(lia)) as Hp.
  destruct (bij_val_at _ _ i Hb ltac:(lia)) as [vi Hvi].
  destruct (bij_val_at _ _ ((i - 1) / D h) Hb ltac:(lia)) as [vp Hvp].
  unfold swim. cbn [swim_loop].
  destruct (0 <? i) eqn:Hpos; [|apply Z.ltb_ge in Hpos; lia].
  mrun. rewrite (less_spec _ _ _ _ _ Hvi Hvp).
  unfold slot_le in Hle. rewrite Hvp, Hvi in Hle.
  apply not_lt_of_le in Hle.
  destruct (compare vi vp <? 0) eqn:Hlt; [apply Z.ltb_lt in Hlt; lia|done].
Qed.

(** ** Validation helpers *)

Lemma keyInBoundsOrThrow_in (h : heap T) ki :
  0 ≤ ki < N h → keyInBoundsOrThrow ki h = (Ok tt, h).
Proof.
  intros Hk. unfold keyInBoundsOrThrow. mred.
  destruct (ki <? 0) eqn:H1; [apply Z.ltb_lt in H1; lia|].
  destruct (N h <=? ki) eqn:H2; [apply Z.leb_le in H2; lia|]. done.
Qed.

Lemma keyInBoundsOrThrow_out (h : heap T) ki :
  ¬ 0 ≤ ki < N h → keyInBoundsOrThrow ki h = (Raise KeyOutOfBounds, h).
Proof.
  intros Hk. unfold keyInBoundsOrThrow. mred.
  destruct (ki <? 0) eqn:H1; [done|]. apply Z.ltb_ge in H1.
  destruct (N h <=? ki) eqn:H2; [done|]. apply Z.leb_gt in H2. lia.
Qed.

Lemma contains_out (h : heap T) ki :
  ¬ 0 ≤ ki < N h → contains ki h = (Raise KeyOutOfBounds, h).
Proof.
  intros Hk. unfold contains. unfold bind at 1.
  by rewrite keyInBoundsOrThrow_out.
Qed.

Lemma contains_in (h : heap T) ki :
  0 ≤ ki < N h →
  contains ki h = (Ok (negb (bool_decide (pm h !! ki = Some (-1)))), h).
Proof.
  intros Hk. unfold contains. unfold bind at 1.
  by rewrite keyInBoundsOrThrow_in.
Qed.

Lemma contains_active (h : heap T) ki s :
  0 ≤ ki < N h → pm h !! ki = Some s → s ≠ -1 → contains ki h = (Ok true, h).
Proof.
  intros Hk Hp Hs. rewrite contains_in by done. rewrite Hp.
  rewrite bool_decide_eq_false_2; [done|]. congruence.
Qed.

Lemma contains_inactive (h : heap T) ki :
  0 ≤ ki < N h → pm h !! ki = Some (-1) → contains ki h = (Ok false, h).
Proof.
  intros Hk Hp. rewrite contains_in by done. by rewrite Hp.
Qed.

(** What [contains] can answer when the maps are in bijection. *)
Lemma contains_cases n (h : heap T) ki :
  bij n h →
  (¬ 0 ≤ ki < N h ∧ contains ki h = (Raise KeyOutOfBounds, h)) ∨
  (0 ≤ ki < N h ∧ pm h !! ki = Some (-1) ∧ contains ki h = (Ok false, h)) ∨
  (0 ≤ ki < N h ∧ contains ki h = (Ok true, h) ∧
   ∃ s v, pm h !! ki = Some s ∧ 0 ≤ s < n ∧ im h !! s = Some ki ∧
          values h !! ki = Some (Some v)).
Proof.
  intros Hb. destruct (decide (0 ≤ ki < N h)) as [Hk|Hk].
  2:{ left. split; [done|]. by apply contains_out. }
  right. destruct (bij_pm _ _ Hb ki Hk) as (s & Hs & [->|[Hsr Him]]).
  - left. split; [done|]. split; [done|]. by apply contains_inactive.
  - right. split; [done|]. split; [apply (contains_active _ _ s); [done..|lia]|].
    destruct (bij_set _ _ Hb ki s Hk Hs ltac:(lia)) as [v Hv].
    exists s, v. done.
Qed.

(** ** Counting: with a key that has no slot, a slot is left *)

Lemma bij_not_full n (h : heap T) k :
  bij n h → 0 ≤ k < N h → pm h !! k = Some (-1) → n < N h.
Proof.
  intros Hb Hk Hp. pose proof (bij_n _ _ Hb) as Hn.
  destruct (decide (n < N h)) as [|Hfull]; [done|]. exfalso.
  set (f := λ s, default 0 (im h !! s)).
  assert (∀ s, 0 ≤ s < n → 0 ≤ f s < N h ∧ pm h !! (f s) = Some s) as Hf.
  { intros s Hs. destruct (bij_im _ _ Hb s Hs) as (k' & Hk' & Hr & Hp').
    unfold f. rewrite Hk'. done. }
  assert (NoDup (k :: (f <$> seqZ 0 n))) as Hnd.
  { constructor.
    - intros Hin. apply list_elem_of_fmap in Hin as (s & -> & Hs).
      apply elem_of_seqZ in Hs. destruct (Hf s ltac:(lia)) as [_ Hps].
      rewrite Hp in Hps. simplify_eq. lia.
    - apply NoDup_fmap_2_strong; [|apply NoDup_seqZ].
      intros x y Hx Hy Hxy. apply elem_of_seqZ in Hx, Hy.
      destruct (Hf x ltac:(lia)) as [_ Hpx]. destruct (Hf y ltac:(lia)) as [_ Hpy].
      rewrite Hxy in Hpx. congruence. }
  assert (∀ x, x ∈ k :: (f <$> seqZ 0 n) → x ∈ seqZ 0 (N h)) as Hsub.
  { intros x Hx. apply elem_of_seqZ. apply elem_of_cons in Hx as [->|Hx]; [lia|].
    apply list_elem_of_fmap in Hx as (s & -> & Hs). apply elem_of_seqZ in Hs.
    destruct (Hf s ltac:(lia)) as [? _]. lia. }
  pose proof (submseteq_length _ _ (NoDup_submseteq _ _ Hnd Hsub)) as Hlen.
  simpl in Hlen. rewrite length_fmap, !length_seqZ in Hlen. lia.
Qed.

(** ** Writing a value *)

Lemma topo_stored (h : heap T) ki v : topo h → topo (stored h ki v).
Proof. intros []. by constructor. Qed.

Lemma bij_stored n (h : heap T) ki i v :
  bij n h → pm h !! ki = Some i → i ≠ -1 → bij n (stored h ki (Some v)).
Proof.
  intros [Hn Him Hpm Hfree Hset Hunset] Hp Hi. constructor; simpl; try done.
  - intros k s Hk Hs Hne. destruct (decide (k = ki)) as [->|Hkk].
    + rewrite lookup_insert_eq. by exists v.
    + rewrite lookup_insert_ne by done. eauto.
  - intros k Hk Hs. destruct (decide (k = ki)) as [->|Hkk]; [congruence|].
    rewrite lookup_insert_ne by done. eauto.
Qed.

Lemma val_at_stored n (h : heap T) ki i v s :
  bij n h → 0 ≤ ki < N h → pm h !! ki = Some i → 0 ≤ s < n →
  val_at (stored h ki (Some v)) s = if decide (s = i) then Some v else val_at h s.
Proof.
  intros Hb Hki Hp Hs. destruct (bij_im _ _ Hb s Hs) as (k & Hk & Hkr & Hpk).
  unfold val_at. simpl. rewrite Hk. destruct (decide (s = i)) as [->|Hsi].
  - assert (k = ki) as ->.
    { destruct (bij_pm _ _ Hb ki Hki) as (s' & Hs' & [->|[_ Hs'']]);
        simplify_eq; [lia|done]. }
    by rewrite lookup_insert_eq.
  - rewrite lookup_insert_ne; [done|]. intros ->. congruence.
Qed.

Lemma slot_le_stored n (h : heap T) ki i v p c :
  bij n h → 0 ≤ ki < N h → pm h !! ki = Some i →
  0 ≤ p < n → 0 ≤ c < n → p ≠ i → c ≠ i →
  slot_le compare h p c → slot_le compare (stored h ki (Some v)) p c.
Proof.
  intros Hb Hki Hp Hpr Hcr Hpi Hci. unfold slot_le.
  rewrite !(val_at_stored n h ki i) by done. by rewrite !decide_False.
Qed.

(** ** [update], [decrease], [increase] *)

Lemma wf_frame (h0 h' : heap T) :
  topo h0 → frame (sz h0) h0 h' → bij (sz h0) h' → ordered compare (sz h0) h' →
  wf compare h'.
Proof.
  intros Ht Hf Hb Hord. pose proof (frame_sz _ _ _ Hf) as Hsz.
  constructor; [by eapply topo_frame|by rewrite Hsz..].
Qed.

Lemma stored_skips_slot (h : heap T) ki v i :
  wf compare h → 0 ≤ ki < N h → pm h !! ki = Some i → 0 ≤ i < sz h →
  (∀ c, 0 < c < sz h → c ≠ i → (c - 1) / D h ≠ i →
        slot_le compare (stored h ki (Some v)) ((c - 1) / D h) c) ∧
  (∀ c, 0 < c < sz h → (c - 1) / D h = i → 0 < i →
        slot_le compare (stored h ki (Some v)) ((i - 1) / D h) c).
Proof.
  intros [Ht Hb Hord] Hki Hp Hi. pose proof (topo_D _ Ht) as HD. split.
  - intros c Hc Hci Hpc. pose proof (parent_lt (D h) c HD ltac:(lia)).
    eapply slot_le_stored; try done; try lia. by apply Hord.
  - intros c Hc Hpc Hi0. pose proof (parent_lt (D h) c HD ltac:(lia)).
    pose proof (parent_lt (D h) i HD ltac:(lia)).
    eapply slot_le_stored; try done; try lia.
    eapply slot_le_trans; [apply (Hord i); lia|]. rewrite <- Hpc. by apply Hord.
Qed.

Lemma update_ok (h : heap T) ki v i old :
  wf compare h → 0 ≤ ki < N h → pm h !! ki = Some i → 0 ≤ i < sz h →
  values h !! ki = Some (Some old) →
  ∃ h', update compare ki (Some v) h = (Ok old, h') ∧ wf compare h'.
Proof.
  intros Hwf Hki Hp Hi Hold.
  destruct (stored_skips_slot h ki v i Hwf Hki Hp Hi) as [Hs1 Hs2].
  destruct Hwf as [Ht Hb Hord].
  set (h0 := stored h ki (Some v)) in *.
  assert (topo h0) as Ht0 by by apply topo_stored.
  assert (bij (sz h0) h0) as Hb0 by (apply (bij_stored _ _ _ i); [done..|lia]).
  destruct (sink_spec_but (sz h0) h0 i Ht0 Hb0 ltac:(lia) Hi)
    as (h1 & Hsink & Hfr1 & Hb1 & Hup); [done|].
  destruct (swim_loop_spec (sz h0) (sz h0) ltac:(lia) (S (Z.to_nat i)) i h1)
    as (h2 & Hswim & Hfr2 & Hb2 & Hord2); try done; try lia.
  { by eapply topo_frame. }
  exists h2. split.
  - unfold update, keyExistsAndValueNotNullOrThrow, keyExistsOrThrow,
      valueNotNullOrThrow. mred.
    rewrite (contains_active _ _ i) by (done || lia). mrun.
    mcall Hsink. mred.
    unfold swim. rewrite Hswim. done.
  - apply (wf_frame h0); [done|by eapply frame_trans|done..].
Qed.

Lemma val_at_active n (h : heap T) ki i old :
  bij n h → 0 ≤ ki < N h → pm h !! ki = Some i → i ≠ -1 →
  values h !! ki = Some (Some old) → val_at h i = Some old.
Proof.
  intros Hb Hki Hp Hi Hold.
  destruct (bij_pm _ _ Hb ki Hki) as (s & Hs & [->|[_ Him]]); simplify_eq.
  unfold val_at. by rewrite Him, Hold.
Qed.

Lemma slot_le_stored_below n (h : heap T) ki i old v c :
  bij n h → 0 ≤ ki < N h → pm h !! ki = Some i → 0 ≤ i < n → 0 ≤ c < n →
  c ≠ i → values h !! ki = Some (Some old) → compare v old ≤ 0 →
  slot_le compare h i c → slot_le compare (stored h ki (Some v)) i c.
Proof.
  intros Hb Hki Hp Hi Hc Hci Hold Hv. unfold slot_le.
  rewrite !(val_at_stored n h ki i) by done.
  rewrite decide_True, decide_False by done.
  rewrite (val_at_active n h ki i old) by (done || lia).
  destruct (val_at h c); [|done]. intros Hle. by eapply (compare_trans _ Hcmp).
Qed.

Lemma slot_le_stored_above n (h : heap T) ki i old v p :
  bij n h → 0 ≤ ki < N h → pm h !! ki = Some i → 0 ≤ i < n → 0 ≤ p < n →
  p ≠ i → values h !! ki = Some (Some old) → compare old v ≤ 0 →
  slot_le compare h p i → slot_le compare (stored h ki (Some v)) p i.
Proof.
  intros Hb Hki Hp Hi Hc Hci Hold Hv. unfold slot_le.
  rewrite !(val_at_stored n h ki i) by done.
  rewrite decide_False, decide_True by done.
  rewrite (val_at_active n h ki i old) by (done || lia).
  destruct (val_at h p); [|done]. intros Hle. by eapply (compare_trans _ Hcmp).
Qed.

Lemma decrease_ok (h : heap T) ki v i old :
  wf compare h → 0 ≤ ki < N h → pm h !! ki = Some i → 0 ≤ i < sz h →
  values h !! ki = Some (Some old) →
  ∃ h', decrease compare ki (Some v) h = (Ok tt, h') ∧ wf compare h'.
Proof.
  intros Hwf Hki Hp Hi Hold.
  destruct (stored_skips_slot h ki v i Hwf Hki Hp Hi) as [Hs1 Hs2].
  pose proof Hwf as [Ht Hb Hord]. pose proof (topo_D _ Ht) as HD.
  unfold decrease, keyExistsAndValueNotNullOrThrow, keyExistsOrThrow,
    valueNotNullOrThrow, lessValue. mred.
  rewrite (contains_active _ _ i) by (done || lia). mrun.
  destruct (compare v old <? 0) eqn:Hlt; [|by exists h].
  apply Z.ltb_lt in Hlt. mrun.
  set (h0 := stored h ki (Some v)) in *.
  change (Heap _ _ _ _ _ _ _ _) with h0.
  destruct (swim_loop_spec (sz h0) (sz h0) ltac:(lia) (S (Z.to_nat i)) i h0)
    as (h1 & Hswim & Hfr1 & Hb1 & Hord1); try done; try lia.
  - by apply topo_stored.
  - apply (bij_stored _ _ _ i); [done..|lia].
  - split; [|done]. intros c Hc Hci. change (sz h0) with (sz h) in Hc.
    destruct (decide ((c - 1) / D h = i)) as [Hpc|Hpc]; [|by apply Hs1].
    simpl. rewrite Hpc.
    eapply (slot_le_stored_below _ _ _ _ old); try done; try lia.
    rewrite <- Hpc. by apply Hord.
  - exists h1. unfold swim. rewrite Hswim. split; [done|].
    apply (wf_frame h0); [by apply topo_stored|done..].
Qed.

Lemma increase_ok (h : heap T) ki v i old :
  wf compare h → 0 ≤ ki < N h → pm h !! ki = Some i → 0 ≤ i < sz h →
  values h !! ki = Some (Some old) →
  ∃ h', increase compare ki (Some v) h = (Ok tt, h') ∧ wf compare h'.
Proof.
  intros Hwf Hki Hp Hi Hold.
  destruct (stored_skips_slot h ki v i Hwf Hki Hp Hi) as [Hs1 Hs2].
  pose proof Hwf as [Ht Hb Hord]. pose proof (topo_D _ Ht) as HD.
  unfold increase, keyExistsAndValueNotNullOrThrow, keyExistsOrThrow,
    valueNotNullOrThrow, lessValue. mred.
  rewrite (contains_active _ _ i) by (done || lia). mrun.
  destruct (compare old v <? 0) eqn:Hlt; [|by exists h].
  apply Z.ltb_lt in Hlt. mrun.
  set (h0 := stored h ki (Some v)) in *.
  change (Heap _ _ _ _ _ _ _ _) with h0.
  destruct (sink_spec_down (sz h0) h0 i)
    as (h1 & Hsink & Hfr1 & Hb1 & Hord1); try done; try lia.
  - by apply topo_stored.
  - apply (bij_stored _ _ _ i); [done..|lia].
  - split; [|done]. intros c Hc Hpc. change (sz h0) with (sz h) in Hc.
    destruct (decide (c = i)) as [->|Hci]; [|by apply Hs1].
    pose proof (parent_lt (D h) i HD ltac:(lia)).
    change (D h0) with (D h) in *.
    eapply (slot_le_stored_above _ _ _ _ old); try done; try lia.
    by apply Hord.
  - exists h1. rewrite Hsink. split; [done|].
    apply (wf_frame h0); [by apply topo_stored|done..].
Qed.

(** ** [insert] *)

Lemma bij_placed (h : heap T) ki v :
  bij (sz h) h → 0 ≤ ki < N h → pm h !! ki = Some (-1) →
  bij (sz h + 1) (placed h ki v).
Proof.
  intros Hb Hki Hp. pose proof (bij_not_full _ _ _ Hb Hki Hp) as Hroom.
  destruct Hb as [Hn Him Hpm Hfree Hset Hunset]. constructor; simpl.
  - lia.
  - intros s Hs. destruct (decide (s = sz h)) as [->|Hne].
    + exists ki. by rewrite !lookup_insert_eq.
    + rewrite lookup_insert_ne by done.
      destruct (Him s ltac:(lia)) as (k & Hk & Hkr & Hpk). exists k.
      split; [done|]. split; [done|].
      rewrite lookup_insert_ne; [done|]. intros ->. simplify_eq. lia.
  - intros k Hk. destruct (decide (k = ki)) as [->|Hne].
    + exists (sz h). rewrite !lookup_insert_eq. split; [done|]. right.
      split; [lia|done].
    + rewrite lookup_insert_ne by done.
      destruct (Hpm k Hk) as (s & Hs & [->|[Hsr Hsk]]).
      * exists (-1). split; [done|]. by left.
      * exists s. split; [done|]. right. split; [lia|].
        rewrite lookup_insert_ne; [done|lia].
  - intros s Hs. rewrite lookup_insert_ne by lia. apply Hfree. lia.
  - intros k s Hk Hs Hne. destruct (decide (k = ki)) as [->|Hkk].
    + rewrite lookup_insert_eq. by exists v.
    + rewrite lookup_insert_ne in Hs by done. rewrite lookup_insert_ne by done.
      eauto.
  - intros k Hk Hs. destruct (decide (k = ki)) as [->|Hkk].
    + rewrite lookup_insert_eq in Hs. simplify_eq. lia.
    + rewrite lookup_insert_ne in Hs by done. rewrite lookup_insert_ne by done.
      eauto.
Qed.

Lemma val_at_placed (h : heap T) ki v s :
  bij (sz h) h → pm h !! ki = Some (-1) → 0 ≤ s < sz h →
  val_at (placed h ki v) s = val_at h s.
Proof.
  intros Hb Hp Hs. destruct (bij_im _ _ Hb s Hs) as (k & Hk & Hkr & Hpk).
  unfold val_at. simpl. rewrite lookup_insert_ne by lia. rewrite Hk.
  rewrite lookup_insert_ne; [done|]. intros ->. simplify_eq. lia.
Qed.

Lemma insert_ok (h : heap T) ki v :
  wf compare h → 0 ≤ ki < N h → pm h !! ki = Some (-1) →
  ∃ h', insert compare ki (Some v) h = (Ok tt, h') ∧ wf compare h' ∧
        sz h' = sz h + 1.
Proof.
  intros [Ht Hb Hord] Hki Hp. pose proof (topo_D _ Ht) as HD.
  pose proof (bij_n _ _ Hb) as Hn.
  set (h0 := placed h ki v).
  assert (topo h0) as Ht0 by (destruct Ht; by constructor).
  pose proof (bij_placed h ki v Hb Hki Hp) as Hb0. fold h0 in Hb0.
  destruct (swim_loop_spec (sz h + 1) (sz h + 1) ltac:(lia)
              (S (Z.to_nat (sz h))) (sz h) h0)
    as (h1 & Hswim & Hfr & Hb1 & Hord1); try done; try lia.
  { split.
    - intros c Hc Hne. pose proof (parent_lt (D h) c HD ltac:(lia)).
      change (D h0) with (D h).
      unfold slot_le. subst h0. rewrite !val_at_placed by (done || lia).
      apply Hord. lia.
    - intros c Hc Hpc _. simpl in Hpc.
      pose proof (parent_lt (D h) c HD ltac:(lia)). lia. }
  exists h1. split; [|split].
  - unfold insert, valueNotNullOrThrow. mred.
    rewrite contains_inactive by done. mrun.
    unfold swim. mcall Hswim. done.
  - apply (wf_frame h0); done.
  - by rewrite (frame_sz _ _ _ Hfr).
Qed.

(** ** [delete] *)

Lemma wf_cleared (h : heap T) ki :
  topo h → 0 ≤ sz h → bij (sz h + 1) h → im h !! sz h = Some ki →
  ordered compare (sz h) h → wf compare (cleared h ki).
Proof.
  intros Ht Hsz Hb Hlast Hord. pose proof (topo_D _ Ht) as HD.
  destruct (bij_im _ _ Hb (sz h) ltac:(lia)) as (k0 & Hk0 & Hkir & Hpki).
  simplify_eq.
  assert (∀ s k, 0 ≤ s < sz h → im h !! s = Some k → k ≠ ki) as Hother.
  { intros s k Hs Hk ->. destruct (bij_im _ _ Hb s ltac:(lia)) as (k' & ? & _ & ?).
    simplify_eq. lia. }
  constructor.
  - destruct Ht. by constructor.
  - destruct Hb as [Hn Him Hpm Hfree Hset Hunset]. constructor; simpl.
    + lia.
    + intros s Hs. rewrite lookup_insert_ne by lia.
      destruct (Him s ltac:(lia)) as (k & Hk & Hkr & Hpk). exists k.
      split; [done|]. split; [done|].
      rewrite lookup_insert_ne; [done|]. intros ->. by eapply Hother.
    + intros k Hk. destruct (decide (k = ki)) as [->|Hne].
      * exists (-1). rewrite lookup_insert_eq. split; [done|]. by left.
      * rewrite lookup_insert_ne by done.
        destruct (Hpm k Hk) as (s & Hs & [->|[Hsr Hsk]]).
        { exists (-1). split; [done|]. by left. }
        exists s. split; [done|]. right.
        assert (s ≠ sz h) by (intros ->; simplify_eq).
        split; [lia|]. by rewrite lookup_insert_ne.
    + intros s Hs. destruct (decide (s = sz h)) as [->|Hne].
      * by rewrite lookup_insert_eq.
      * rewrite lookup_insert_ne by done. apply Hfree. lia.
    + intros k s Hk Hs Hne. destruct (decide (k = ki)) as [->|Hkk].
      * rewrite lookup_insert_eq in Hs. simplify_eq.
      * rewrite lookup_insert_ne in Hs by done.
        rewrite lookup_insert_ne by done. eauto.
    + intros k Hk Hs. destruct (decide (k = ki)) as [->|Hkk].
      * by rewrite lookup_insert_eq.
      * rewrite lookup_insert_ne in Hs by done.
        rewrite lookup_insert_ne by done. eauto.
  - intros c Hc. simpl in *.
    pose proof (parent_lt (D h) c HD ltac:(lia)) as Hpc.
    assert (∀ s, 0 ≤ s < sz h → val_at (cleared h ki) s = val_at h s) as Hval.
    { intros s Hs. destruct (bij_im _ _ Hb s ltac:(lia)) as (k & Hk & _).
      unfold val_at. simpl. rewrite lookup_insert_ne by lia. rewrite Hk.
      rewrite lookup_insert_ne; [done|]. intros ->. by eapply Hother. }
    unfold slot_le. rewrite !Hval by lia. by apply Hord.
Qed.

Lemma bij_shrunk (h : heap T) : bij (sz h) h → bij (sz (shrunk h) + 1) (shrunk h).
Proof.
  intros []. simpl. replace (sz h - 1 + 1) with (sz h) by lia. by constructor.
Qed.

Lemma delete_ok (h : heap T) ki i old :
  wf compare h → 0 ≤ ki < N h → pm h !! ki = Some i → 0 ≤ i < sz h →
  values h !! ki = Some (Some old) →
  ∃ h', delete compare ki h = (Ok old, h') ∧ wf compare h' ∧
        sz h' = sz h - 1.
Proof.
  intros [Ht Hb Hord] Hki Hp Hi Hold. pose proof (topo_D _ Ht) as HD.
  assert (im h !! i = Some ki) as Himi.
  { destruct (bij_pm _ _ Hb ki Hki) as (s & Hs & [->|[_ Hs']]); simplify_eq; [lia|done]. }
  set (h0 := shrunk h).
  assert (topo h0) as Ht0 by (destruct Ht; by constructor).
  pose proof (bij_shrunk h Hb) as Hb0. fold h0 in Hb0.
  assert (sz h0 = sz h - 1) as Hsz0 by done.
  assert (∃ h1 h2 h3, swap i (sz h0) h0 = (Ok tt, h1) ∧
                      sink compare i h1 = (Ok tt, h2) ∧
                      swim compare i h2 = (Ok tt, h3) ∧
                topo h3 ∧ sz h3 = sz h0 ∧ values h3 = values h ∧
                bij (sz h3 + 1) h3 ∧
                im h3 !! sz h3 = Some ki ∧ ordered compare (sz h3) h3)
    as (h1 & h2 & h3 & Hswap & Hsink & Hswim & Ht3 & Hsz3 & Hval3 & Hb3 &
        Hlast & Hord3).
  { destruct (decide (i = sz h0)) as [Hil|Hil].
    - (* the last slot is deleted: nothing moves *)
      exists h0, h0, h0. subst i.
      split; [by apply (swap_same (sz h0 + 1)); [|lia]|].
      split; [by apply (sink_leaf (sz h0 + 1)); [..|lia|lia|lia]|].
      split.
      { destruct (decide (sz h0 = 0)) as [->|Hnz]; [done|].
        apply (swim_in_order (sz h0 + 1)); try done; try lia.
        change (D h0) with (D h).
        assert (slot_le compare h ((sz h0 - 1) / D h) (sz h0)) as Hle
          by (apply Hord; lia).
        exact Hle. }
      split; [done|]. split; [done|]. split; [done|]. split; [done|].
      split; [done|].
      intros c Hc. change (D h0) with (D h). apply (Hord c). lia.
    - (* the last key moves to slot [i] and is sifted *)
      destruct (swap_spec (sz h0 + 1) h0 i (sz h0) Hb0 ltac:(lia) ltac:(lia))
        as (h1 & Hswap & Hfr & Hb1 & Him1).
      specialize (Hfr (sz h0 + 1) ltac:(lia) ltac:(lia)).
      pose proof (topo_frame _ _ _ Hfr Ht0) as Ht1.
      pose proof (frame_sz _ _ _ Hfr) as Hsz1.
      destruct (sink_spec_but (sz h0 + 1) h1 i Ht1 Hb1 ltac:(lia) ltac:(lia))
        as (h2 & Hsink & Hfr2 & Hb2 & Hup).
      { unfold ordered_but. rewrite (frame_D _ _ _ Hfr), Hsz1.
        change (D h0) with (D h). split.
        - intros c Hc Hci Hpc. pose proof (parent_lt (D h) c HD ltac:(lia)).
          eapply slot_le_transp; [done..|].
          rewrite !transp_other by lia. apply (Hord c). lia.
        - intros c Hc Hpc Hi0. pose proof (parent_lt (D h) c HD ltac:(lia)).
          pose proof (parent_lt (D h) i HD ltac:(lia)).
          eapply slot_le_transp; [done..|].
          rewrite !transp_other by lia.
          eapply (slot_le_trans h); [apply (Hord i); lia|].
          rewrite <- Hpc. apply (Hord c). lia. }
      pose proof (topo_frame _ _ _ Hfr2 Ht1) as Ht2.
      pose proof (frame_sz _ _ _ Hfr2) as Hsz2.
      destruct (swim_loop_spec (sz h0 + 1) (sz h1) ltac:(lia)
                  (S (Z.to_nat i)) i h2)
        as (h3 & Hswim & Hfr3 & Hb3 & Hord3); try done; try lia.
      pose proof (frame_sz _ _ _ Hfr3) as Hsz3.
      exists h1, h2, h3. split; [done|]. split; [done|]. split; [done|].
      split; [by eapply topo_frame|]. split; [lia|].
      split.
      { by rewrite (frame_values _ _ _ Hfr3), (frame_values _ _ _ Hfr2),
          (frame_values _ _ _ Hfr). }
      split; [by replace (sz h3) with (sz h0) by lia|].
      split.
      { replace (sz h3) with (sz h0) by lia.
        rewrite (frame_im _ _ _ Hfr3), (frame_im _ _ _ Hfr2) by lia.
        by rewrite Him1, transp_r. }
      by replace (sz h3) with (sz h1) by lia. }
  rewrite <- Hval3 in Hold.
  exists (cleared h3 ki). split; [|split].
  - unfold delete, keyExistsOrThrow. mred.
    rewrite (contains_active _ _ i) by (done || lia). mrun.
    change (sz h0) with (sz h - 1) in Hswap.
    mcall Hswap. mred. mcall Hsink. mred. mcall Hswim. mrun.
    reflexivity.
  - apply wf_cleared; try done. lia.
  - simpl. lia.
Qed.

(** ** The constructor *)

Lemma init_slots_fields (l : list Z) (h : heap T) :
  sz (foldl init_slot h l) = sz h ∧ N (foldl init_slot h l) = N h ∧
  D (foldl init_slot h l) = D h.
Proof.
  revert h. induction l as [|x l IH]; intros h; [done|].
  simpl. destruct (IH (init_slot h x)) as (-> & -> & ->). done.
Qed.

Lemma init_slots_other (l : list Z) (h : heap T) i :
  i ∉ l →
  let h' := foldl init_slot h l in
  child h' !! i = child h !! i ∧ parent h' !! i = parent h !! i ∧
  pm h' !! i = pm h !! i ∧ im h' !! i = im h !! i ∧
  values h' !! i = values h !! i.
Proof.
  revert h. induction l as [|y l IH]; intros h Hl; [done|].
  simpl. apply not_elem_of_cons in Hl as [Hxy Hl].
  destruct (IH (init_slot h y) Hl) as (-> & -> & -> & -> & ->).
  simpl. by rewrite !lookup_insert_ne.
Qed.

Lemma init_slots_lookup (l : list Z) (h : heap T) i :
  i ∈ l →
  let h' := foldl init_slot h l in
  child h' !! i = Some (i * D h + 1) ∧ parent h' !! i = Some ((i - 1) / D h) ∧
  pm h' !! i = Some (-1) ∧ im h' !! i = Some (-1) ∧ values h' !! i = Some None.
Proof.
  revert h. induction l as [|x l IH]; intros h Hin; [by apply elem_of_nil in Hin|].
  simpl. destruct (decide (i ∈ l)) as [Hl|Hl].
  { apply (IH (init_slot h x) Hl). }
  apply elem_of_cons in Hin as [->|?]; [|done].
  destruct (init_slots_other l (init_slot h x) x Hl) as (-> & -> & -> & -> & ->).
  simpl. by rewrite !lookup_insert_eq.
Qed.

Lemma MinIndexedDHeap_wf degree maxSize (h : heap T) :
  MinIndexedDHeap degree maxSize = Ok h → wf compare h ∧ sz h = 0.
Proof.
  unfold MinIndexedDHeap. destruct (maxSize <=? 0); [done|].
  intros [= <-].
  set (d := Z.max 2 degree). set (n := Z.max (d + 1) maxSize).
  set (e := Heap 0 n d ∅ ∅ ∅ ∅ ∅).
  destruct (init_slots_fields (seqZ 0 n) e) as (Hsz & HN & HD).
  assert (∀ i, 0 ≤ i < n → i ∈ seqZ 0 n) as Hin
    by (intros i Hi; apply elem_of_seqZ; lia).
  pose proof (λ i Hi, init_slots_lookup (seqZ 0 n) e i (Hin i Hi)) as Hl.
  simpl in Hl, Hsz, HN, HD.
  split; [|done]. constructor.
  - constructor; rewrite ?HD, ?HN; try lia.
    + intros i Hi. by apply Hl.
    + intros i Hi. by apply Hl.
  - rewrite Hsz. constructor; rewrite ?HN.
    + lia.
    + intros s Hs. lia.
    + intros k Hk. exists (-1). split; [by apply Hl|by left].
    + intros s Hs. by apply Hl.
    + intros k s Hk Hs Hne. destruct (Hl k Hk) as (_ & _ & Hp & _).
      rewrite Hp in Hs. simplify_eq.
    + intros k Hk _. by apply Hl.
  - rewrite Hsz. intros c Hc. lia.
Qed.

(** ** [isMinHeap] *)

Lemma all_of_total (body : Z → M T bool) (js : list Z) (h : heap T) :
  (∀ j, j ∈ js → ∃ b, body j h = (Ok b, h)) →
  ∃ b, all_of body js h = (Ok b, h).
Proof.
  induction js as [|j js IH]; intros Hbody; [by exists true|].
  destruct (Hbody j ltac:(left)) as [b Hb].
  simpl. unfold bind. rewrite Hb. destruct b; [|by exists false].
  apply IH. intros j' Hj'. apply Hbody. by right.
Qed.

Lemma isMinHeapAt_total (h : heap T) :
  topo h → bij (sz h) h →
  ∀ (fuel : nat) i, 0 ≤ i → i < sz h ∨ i = 0 →
    (Z.to_nat (sz h - i) < fuel)%nat →
    ∃ b, isMinHeapAt compare fuel i h = (Ok b, h).
Proof.
  intros Ht Hb fuel. pose proof (topo_D _ Ht) as HD.
  pose proof (topo_N _ Ht) as HN. pose proof (bij_n _ _ Hb) as Hn.
  induction fuel as [|fuel IH]; intros i Hi0 Hi Hfuel; [lia|].
  pose proof (topo_child _ Ht i ltac:(lia)) as Hch.
  cbn [isMinHeapAt]. mrun. apply all_of_total. intros j Hj.
  apply elem_of_seqZ in Hj.
  assert (i < j < sz h) as Hjr by nia.
  destruct (bij_val_at _ _ i Hb ltac:(lia)) as [vi Hvi].
  destruct (bij_val_at _ _ j Hb ltac:(lia)) as [vj Hvj].
  rewrite (less_spec _ _ _ _ _ Hvi Hvj).
  destruct (compare vi vj <? 0); simpl; [|by exists false].
  apply IH; lia.
Qed.

Lemma isMinHeap_total (h : heap T) :
  wf compare h → ∃ b, isMinHeap compare h = (Ok b, h).
Proof.
  intros [Ht Hb _]. pose proof (bij_n _ _ Hb). unfold isMinHeap. mred.
  apply isMinHeapAt_total; try done; lia.
Qed.

(** ** Every call settles *)

Lemma settles_fmapM {A B} (f : A → B) (m : M T A) (h : heap T) :
  settles compare m h → settles compare (fmapM f m) h.
Proof.
  intros [[e He]|(a & h' & Ha & Hwf)]; unfold fmapM, bind.
  - left. exists e. by rewrite He.
  - right. exists (f a), h'. by rewrite Ha.
Qed.

Lemma settles_read {A} (m : M T A) (h : heap T) a :
  wf compare h → m h = (Ok a, h) → settles compare m h.
Proof. intros Hwf Hm. right. by exists a, h. Qed.

Lemma settles_throw {A} (m : M T A) (h : heap T) e :
  m h = (Raise e, h) → settles compare m h.
Proof. intros Hm. left. by exists e. Qed.

Lemma insert_settles (h : heap T) ki value :
  wf compare h → settles compare (insert compare ki value) h.
Proof.
  intros Hwf.
  destruct (contains_cases _ h ki (wf_bij _ _ Hwf))
    as [[Hk Hc]|[(Hk & Hp & Hc)|(Hk & Hc & _)]].
  - apply (settles_throw _ _ KeyOutOfBounds). unfold insert, bind. by rewrite Hc.
  - destruct value as [v|].
    + destruct (insert_ok h ki v Hwf Hk Hp) as (h' & Hrun & Hwf' & _).
      right. by exists tt, h'.
    + apply (settles_throw _ _ NullValue). unfold insert, bind. by rewrite Hc.
  - apply (settles_throw _ _ DuplicateKey). unfold insert, bind. by rewrite Hc.
Qed.

(** What [keyExistsOrThrow] can do when the maps are in bijection. *)
Lemma keyExistsOrThrow_cases n (h : heap T) ki :
  bij n h →
  keyExistsOrThrow ki h = (Raise KeyOutOfBounds, h) ∨
  keyExistsOrThrow ki h = (Raise UnknownKey, h) ∨
  (keyExistsOrThrow ki h = (Ok tt, h) ∧ 0 ≤ ki < N h ∧
   ∃ s v, pm h !! ki = Some s ∧ 0 ≤ s < n ∧ im h !! s = Some ki ∧
          values h !! ki = Some (Some v)).
Proof.
  intros Hb. unfold keyExistsOrThrow, bind.
  destruct (contains_cases _ h ki Hb)
    as [[Hk ->]|[(Hk & Hp & ->)|(Hk & -> & Hs)]]; auto.
Qed.

Lemma delete_settles (h : heap T) ki :
  wf compare h → settles compare (delete compare ki) h.
Proof.
  intros Hwf.
  destruct (keyExistsOrThrow_cases _ h ki (wf_bij _ _ Hwf))
    as [Hc|[Hc|(Hc & Hk & s & v & Hp & Hs & _ & Hv)]].
  - apply (settles_throw _ _ KeyOutOfBounds). unfold delete, bind. by rewrite Hc.
  - apply (settles_throw _ _ UnknownKey). unfold delete, bind. by rewrite Hc.
  - destruct (delete_ok h ki s v Hwf Hk Hp Hs Hv) as (h' & Hrun & Hwf' & _).
    right. by exists v, h'.
Qed.

Lemma update_settles (h : heap T) ki value :
  wf compare h → settles compare (update compare ki value) h.
Proof.
  intros Hwf.
  destruct (keyExistsOrThrow_cases _ h ki (wf_bij _ _ Hwf))
    as [Hc|[Hc|(Hc & Hk & s & old & Hp & Hs & _ & Hv)]].
  - apply (settles_throw _ _ KeyOutOfBounds).
    unfold update, keyExistsAndValueNotNullOrThrow, bind. by rewrite Hc.
  - apply (settles_throw _ _ UnknownKey).
    unfold update, keyExistsAndValueNotNullOrThrow, bind. by rewrite Hc.
  - destruct value as [v|].
    + destruct (update_ok h ki v s old Hwf Hk Hp Hs Hv) as (h' & Hrun & Hwf').
      right. by exists old, h'.
    + apply (settles_throw _ _ NullValue).
      unfold update, keyExistsAndValueNotNullOrThrow, bind. by rewrite Hc.
Qed.

Lemma decrease_settles (h : heap T) ki value :
  wf compare h → settles compare (decrease compare ki value) h.
Proof.
  intros Hwf.
  destruct (keyExistsOrThrow_cases _ h ki (wf_bij _ _ Hwf))
    as [Hc|[Hc|(Hc & Hk & s & old & Hp & Hs & _ & Hv)]].
  - apply (settles_throw _ _ KeyOutOfBounds).
    unfold decrease, keyExistsAndValueNotNullOrThrow, bind. by rewrite Hc.
  - apply (settles_throw _ _ UnknownKey).
    unfold decrease, keyExistsAndValueNotNullOrThrow, bind. by rewrite Hc.
  - destruct value as [v|].
    + destruct (decrease_ok h ki v s old Hwf Hk Hp Hs Hv) as (h' & Hrun & Hwf').
      right. by exists tt, h'.
    + apply (settles_throw _ _ NullValue).
      unfold decrease, keyExistsAndValueNotNullOrThrow, bind. by rewrite Hc.
Qed.

Lemma increase_settles (h : heap T) ki value :
  wf compare h → settles compare (increase compare ki value) h.
Proof.
  intros Hwf.
  destruct (keyExistsOrThrow_cases _ h ki (wf_bij _ _ Hwf))
    as [Hc|[Hc|(Hc & Hk & s & old & Hp & Hs & _ & Hv)]].
  - apply (settles_throw _ _ KeyOutOfBounds).
    unfold increase, keyExistsAndValueNotNullOrThrow, bind. by rewrite Hc.
  - apply (settles_throw _ _ UnknownKey).
    unfold increase, keyExistsAndValueNotNullOrThrow, bind. by rewrite Hc.
  - destruct value as [v|].
    + destruct (increase_ok h ki v s old Hwf Hk Hp Hs Hv) as (h' & Hrun & Hwf').
      right. by exists tt, h'.
    + apply (settles_throw _ _ NullValue).
      unfold increase, keyExistsAndValueNotNullOrThrow, bind. by rewrite Hc.
Qed.

(** The root of a heap that is not empty. *)
Lemma root_key (h : heap T) :
  wf compare h → sz h ≠ 0 →
  ∃ k v, im h !! 0 = Some k ∧ 0 ≤ k < N h ∧ pm h !! k = Some 0 ∧
         values h !! k = Some (Some v) ∧ 0 < sz h.
Proof.
  intros Hwf Hne. pose proof (wf_bij _ _ Hwf) as Hb.
  pose proof (bij_n _ _ Hb).
  destruct (bij_im _ _ Hb 0 ltac:(lia)) as (k & Hk & Hkr & Hp).
  destruct (bij_set _ _ Hb k 0 Hkr Hp ltac:(lia)) as [v Hv].
  exists k, v. repeat split; try done; lia.
Qed.

Lemma isNotEmptyOrThrow_empty (h : heap T) :
  sz h = 0 → isNotEmptyOrThrow h = (Raise EmptyQueue, h).
Proof. intros Hz. unfold isNotEmptyOrThrow, isEmpty. mred. by rewrite Hz. Qed.

Lemma isNotEmptyOrThrow_some (h : heap T) :
  sz h ≠ 0 → isNotEmptyOrThrow h = (Ok tt, h).
Proof.
  intros Hz. unfold isNotEmptyOrThrow, isEmpty. mred.
  by destruct (sz h =? 0) eqn:E; [apply Z.eqb_eq in E|].
Qed.

Lemma peekMinKeyIndex_settles (h : heap T) :
  wf compare h → settles compare peekMinKeyIndex h.
Proof.
  intros Hwf. destruct (decide (sz h = 0)) as [Hz|Hz].
  - apply (settles_throw _ _ EmptyQueue). unfold peekMinKeyIndex, bind.
    by rewrite isNotEmptyOrThrow_empty.
  - eapply settles_read; [done|]. unfold peekMinKeyIndex, bind.
    by rewrite isNotEmptyOrThrow_some.
Qed.

Lemma peekMinValue_settles (h : heap T) :
  wf compare h → settles compare peekMinValue h.
Proof.
  intros Hwf. destruct (decide (sz h = 0)) as [Hz|Hz].
  - apply (settles_throw _ _ EmptyQueue). unfold peekMinValue. unfold bind at 1.
    by rewrite isNotEmptyOrThrow_empty.
  - destruct (root_key h Hwf Hz) as (k & v & Hk & Hkr & Hp & Hv & _).
    eapply (settles_read _ _ v); [done|]. unfold peekMinValue. unfold bind at 1.
    rewrite isNotEmptyOrThrow_some by done. mrun. done.
Qed.

Lemma pollMinKeyIndex_settles (h : heap T) :
  wf compare h → settles compare (pollMinKeyIndex compare) h.
Proof.
  intros Hwf. destruct (decide (sz h = 0)) as [Hz|Hz].
  - apply (settles_throw _ _ EmptyQueue).
    unfold pollMinKeyIndex, peekMinKeyIndex, bind.
    by rewrite isNotEmptyOrThrow_empty.
  - destruct (root_key h Hwf Hz) as (k & v & Hk & Hkr & Hp & Hv & Hpos).
    destruct (delete_ok h k 0 v Hwf Hkr Hp ltac:(lia) Hv) as (h' & Hrun & Hwf' & _).
    right. exists k, h'. split; [|done].
    unfold pollMinKeyIndex, peekMinKeyIndex, bind.
    rewrite isNotEmptyOrThrow_some by done. mrun. by rewrite Hrun.
Qed.

Lemma pollMinValue_settles (h : heap T) :
  wf compare h → settles compare (pollMinValue compare) h.
Proof.
  intros Hwf. destruct (decide (sz h = 0)) as [Hz|Hz].
  - apply (settles_throw _ _ EmptyQueue).
    unfold pollMinValue, peekMinValue. unfold bind at 1. unfold bind at 1.
    by rewrite isNotEmptyOrThrow_empty.
  - destruct (root_key h Hwf Hz) as (k & v & Hk & Hkr & Hp & Hv & Hpos).
    destruct (delete_ok h k 0 v Hwf Hkr Hp ltac:(lia) Hv) as (h' & Hrun & Hwf' & _).
    right. exists v, h'. split; [|done].
    unfold pollMinValue, peekMinValue, peekMinKeyIndex, bind.
    rewrite isNotEmptyOrThrow_some by done. mrun.
    rewrite isNotEmptyOrThrow_some by done. mrun. by rewrite Hrun.
Qed.

Lemma contains_settles (h : heap T) ki :
  wf compare h → settles compare (contains ki) h.
Proof.
  intros Hwf.
  destruct (contains_cases _ h ki (wf_bij _ _ Hwf))
    as [[_ Hc]|[(_ & _ & Hc)|(_ & Hc & _)]].
  - by apply (settles_throw _ _ KeyOutOfBounds).
  - by apply (settles_read _ _ false).
  - by apply (settles_read _ _ true).
Qed.

Lemma valueOf_settles (h : heap T) ki :
  wf compare h → settles compare (valueOf ki) h.
Proof.
  intros Hwf.
  destruct (keyExistsOrThrow_cases _ h ki (wf_bij _ _ Hwf))
    as [Hc|[Hc|(Hc & Hk & s & v & Hp & Hs & _ & Hv)]].
  - apply (settles_throw _ _ KeyOutOfBounds). unfold valueOf, bind. by rewrite Hc.
  - apply (settles_throw _ _ UnknownKey). unfold valueOf, bind. by rewrite Hc.
  - apply (settles_read _ _ v); [done|]. unfold valueOf. unfold bind at 1.
    rewrite Hc. mrun. done.
Qed.

Lemma exec_settles (h : heap T) o :
  wf compare h → settles compare (exec compare o) h.
Proof.
  intros Hwf. destruct o; simpl; apply settles_fmapM.
  - by apply insert_settles.
  - by apply delete_settles.
  - by apply update_settles.
  - by apply increase_settles.
  - by apply decrease_settles.
  - by apply pollMinKeyIndex_settles.
  - by apply pollMinValue_settles.
  - by apply peekMinKeyIndex_settles.
  - by apply peekMinValue_settles.
  - by apply contains_settles.
  - by apply valueOf_settles.
  - by apply (settles_read _ _ (sz h)).
  - by apply (settles_read _ _ (sz h =? 0)).
  - destruct (isMinHeap_total h Hwf) as [b Hb]. by apply (settles_read _ _ b).
Qed.

Lemma reachable_wf (h : heap T) : reachable compare h → wf compare h.
Proof.
  induction 1 as [degree maxSize h Hnew|o h a h' _ IH Hex|o h e h' _ IH Hex].
  - by apply (MinIndexedDHeap_wf degree maxSize).
  - destruct (exec_settles h o IH) as [[e He]|(a' & h'' & Ha & Hwf)];
      rewrite Hex in *; by simplify_eq.
  - destruct (exec_settles h o IH) as [[e' He]|(a' & h'' & Ha & Hwf)];
      rewrite Hex in *; by simplify_eq.
Qed.

Lemma reachable_after (os : list (op T)) (h : heap T) :
  reachable compare h → reachable compare (after compare os h).
Proof.
  revert h. induction os as [|o os IH]; intros h Hr; [done|].
  simpl. apply IH.
  destruct (exec_settles h o (reachable_wf h Hr)) as [[e He]|(a & h' & Ha & _)].
  - rewrite He. by eapply reachable_throw.
  - rewrite Ha. by eapply reachable_call.
Qed.

(** ** Where [minChild] can point *)

Lemma minChild_loop_range (js : list Z) (h h' : heap T) index cur index' cur' :
  for_each (minChild_step compare) (index, cur) js h = (Ok (index', cur'), h') →
  index' = index ∨ index' ∈ js.
Proof.
  revert h index cur. induction js as [|j js IH]; intros h index cur.
  - simpl. unfold ret. intros [= <- <- <-]. by left.
  - simpl. unfold bind at 1. unfold minChild_step at 1. unfold bind at 1.
    destruct (less compare j (snd (index, cur)) h) as [[b| | |] h1]; try done.
    destruct b; unfold ret at 1; intros Hrun; apply IH in Hrun.
    + right. destruct Hrun as [->|?]; [by left|by right].
    + destruct Hrun as [->|?]; [by left|right; by right].
Qed.

(** ** Fuel only bounds the loops *)

Lemma swim_loop_more_fuel (fuel : nat) i (h h' : heap T) r :
  swim_loop compare fuel i h = (r, h') → r ≠ Timeout →
  swim_loop compare (S fuel) i h = (r, h').
Proof.
  revert i h. induction fuel as [|fuel IH]; intros i h Hrun Hr.
  { simpl in Hrun. unfold timeout in Hrun. by simplify_eq. }
  cbn [swim_loop] in Hrun. cbn [swim_loop].
  unfold bind in Hrun. unfold bind. mcase Hrun. by apply IH.
Qed.

Lemma sink_loop_more_fuel (fuel : nat) i j (h h' : heap T) r :
  sink_loop compare fuel i j h = (r, h') → r ≠ Timeout →
  sink_loop compare (S fuel) i j h = (r, h').
Proof.
  revert i j h. induction fuel as [|fuel IH]; intros i j h Hrun Hr.
  { simpl in Hrun. unfold timeout in Hrun. by simplify_eq. }
  cbn [sink_loop] in Hrun. cbn [sink_loop].
  unfold bind in Hrun. unfold bind. mcase Hrun. by apply IH.
Qed.

End Facts.

(** ** Loops end for every comparator *)

Section Halting.

Context {T : Type}.
Variable compare : T → T → Z.

Lemma keeps_bind {A B C} (π : heap T → C) (m : M T A) (f : A → M T B) :
  keeps π m → (∀ a, keeps π (f a)) → keeps π (bind m f).
Proof.
  intros Hm Hf h. unfold bind. specialize (Hm h).
  destruct (m h) as [[a| | |] h']; simpl in *; try done. by rewrite Hf.
Qed.

Lemma keeps_id {A C} (π : heap T → C) (m : M T A) : keeps id m → keeps π m.
Proof. intros Hm h. specialize (Hm h). simpl in Hm. by rewrite Hm. Qed.

Lemma keeps_shape_layout {A} (m : M T A) : keeps shape_of m → keeps layout_of m.
Proof.
  intros Hm h. specialize (Hm h). by apply (f_equal snd) in Hm.
Qed.

Lemma layout_keeps (h h' : heap T) :
  layout_of h' = layout_of h → layout h → layout h'.
Proof.
  unfold layout_of. intros [= HN HD Hc Hp] [[H1 H2 H3 H4] H5 H6].
  constructor; [constructor|..]; rewrite ?HN, ?HD, ?Hc, ?Hp; done.
Qed.

Lemma safe_bind {A B} (m : M T A) (f : A → M T B) :
  safe m → keeps layout_of m → (∀ a, safe (f a)) → safe (bind m f).
Proof.
  intros Hm Hk Hf h Hl. specialize (Hm h Hl). specialize (Hk h).
  unfold halts, bind in *. destruct (m h) as [[a| | |] h']; simpl in *; try done.
  apply Hf. by apply (layout_keeps h).
Qed.

Lemma halts_bind_ok {A B} (m : M T A) (f : A → M T B) (h : heap T) a :
  m h = (Ok a, h) → halts (f a) h → halts (bind m f) h.
Proof. intros Hm Hf. unfold halts, bind. by rewrite Hm. Qed.

Lemma assert_some_keeps {A C} (π : heap T → C) (o : option A) :
  keeps π (assert_some o).
Proof. by destruct o. Qed.

Lemma assert_value_keeps {C} (π : heap T → C) (o : option (option T)) :
  keeps π (assert_value o).
Proof. by destruct o as [[]|]. Qed.

Lemma assert_some_safe {A} (o : option A) : safe (T:=T) (assert_some o).
Proof. by destruct o. Qed.

Lemma assert_value_safe (o : option (option T)) : safe (assert_value o).
Proof. by destruct o as [[]|]. Qed.

End Halting.

(** One step of a proof that straight-line code keeps a part of the state or
    does not time out; calls are looked up in the hint database. *)
Create HintDb effects.

Ltac effects_step :=
  match goal with
  | |- keeps _ (bind _ _) => apply keeps_bind; [|intros ?]
  | |- safe (bind _ _) => apply safe_bind; [| |intros ?]
  | |- keeps _ (match ?x with _ => _ end) => destruct x
  | |- safe (match ?x with _ => _ end) => destruct x
  | |- keeps _ _ => solve [eauto with effects]
  | |- safe _ => solve [eauto with effects]
  | |- keeps _ _ => by intros ?
  | |- safe _ => by intros ? ?
  end.

Ltac effects := repeat effects_step.

#[local] Hint Resolve assert_some_keeps assert_value_keeps assert_some_safe
  assert_value_safe : effects.

Section Effects.

Context {T : Type}.
Variable compare : T → T → Z.

(** *** What each method leaves alone *)

Lemma less_keeps i j : keeps (T:=T) id (less compare i j).
Proof. unfold less. effects. Qed.

Lemma swap_keeps i j : keeps (T:=T) shape_of (swap i j).
Proof. unfold swap. effects. Qed.

Lemma for_each_keeps {A C} (π : heap T → C) (body : A → Z → M T A) acc js :
  (∀ acc j, keeps π (body acc j)) → keeps π (for_each body acc js).
Proof.
  intros Hbody. revert acc. induction js as [|j js IH]; intros acc; simpl;
    effects.
Qed.

Lemma minChild_step_keeps acc j : keeps (T:=T) id (minChild_step compare acc j).
Proof. pose proof less_keeps. unfold minChild_step. effects. Qed.

Lemma minChild_keeps i : keeps (T:=T) id (minChild compare i).
Proof.
  pose proof minChild_step_keeps. unfold minChild. effects.
  by apply for_each_keeps.
Qed.

Lemma sink_loop_keeps fuel i j : keeps (T:=T) shape_of (sink_loop compare fuel i j).
Proof.
  pose proof swap_keeps. pose proof (λ i, keeps_id shape_of _ (minChild_keeps i)).
  revert i j. induction fuel as [|fuel IH]; intros i j; cbn [sink_loop]; effects.
Qed.

Lemma sink_keeps i : keeps (T:=T) shape_of (sink compare i).
Proof.
  pose proof sink_loop_keeps.
  pose proof (λ i, keeps_id shape_of _ (minChild_keeps i)).
  unfold sink. effects.
Qed.

Lemma swim_loop_keeps fuel i : keeps (T:=T) shape_of (swim_loop compare fuel i).
Proof.
  pose proof swap_keeps. pose proof (λ i j, keeps_id shape_of _ (less_keeps i j)).
  revert i. induction fuel as [|fuel IH]; intros i; cbn [swim_loop]; effects.
Qed.

Lemma swim_keeps i : keeps (T:=T) shape_of (swim compare i).
Proof. apply swim_loop_keeps. Qed.

Lemma contains_keeps ki : keeps (T:=T) id (contains ki).
Proof. unfold contains, keyInBoundsOrThrow. effects. Qed.

Lemma keyExistsOrThrow_keeps ki : keeps (T:=T) id (keyExistsOrThrow ki).
Proof. pose proof contains_keeps. unfold keyExistsOrThrow. effects. Qed.

Lemma keyExistsAndValueNotNullOrThrow_keeps ki value :
  keeps (T:=T) id (keyExistsAndValueNotNullOrThrow ki value).
Proof.
  pose proof keyExistsOrThrow_keeps.
  unfold keyExistsAndValueNotNullOrThrow, valueNotNullOrThrow. effects.
Qed.

Lemma isNotEmptyOrThrow_keeps : keeps (T:=T) id isNotEmptyOrThrow.
Proof. unfold isNotEmptyOrThrow, isEmpty. effects. Qed.

Lemma all_of_keeps {C} (π : heap T → C) (body : Z → M T bool) js :
  (∀ j, keeps π (body j)) → keeps π (all_of body js).
Proof. intros Hbody. induction js as [|j js IH]; simpl; effects. Qed.

Lemma isMinHeapAt_keeps fuel i : keeps (T:=T) id (isMinHeapAt compare fuel i).
Proof.
  pose proof less_keeps.
  revert i. induction fuel as [|fuel IH]; intros i; cbn [isMinHeapAt]; effects.
  apply all_of_keeps. intros j. effects.
Qed.

#[local] Hint Resolve keeps_id keeps_shape_layout : effects.
#[local] Hint Resolve less_keeps swap_keeps minChild_keeps sink_keeps
  swim_keeps contains_keeps keyExistsOrThrow_keeps
  keyExistsAndValueNotNullOrThrow_keeps isNotEmptyOrThrow_keeps
  isMinHeapAt_keeps : effects.

Lemma peekMinKeyIndex_keeps : keeps (T:=T) id peekMinKeyIndex.
Proof. unfold peekMinKeyIndex. effects. Qed.

Lemma peekMinValue_keeps : keeps (T:=T) id peekMinValue.
Proof. unfold peekMinValue. effects. Qed.

Lemma insert_keeps ki value : keeps (T:=T) layout_of (insert compare ki value).
Proof. unfold insert, valueNotNullOrThrow. effects. Qed.

Lemma delete_keeps ki : keeps (T:=T) layout_of (delete compare ki).
Proof. unfold delete. effects. Qed.

#[local] Hint Resolve peekMinKeyIndex_keeps peekMinValue_keeps insert_keeps
  delete_keeps : effects.

Lemma exec_keeps o : keeps (T:=T) layout_of (exec compare o).
Proof.
  destruct o; simpl; unfold fmapM, update, increase, decrease, pollMinKeyIndex,
    pollMinValue, valueOf, size, isEmpty, isMinHeap; effects.
Qed.

(** *** Straight-line code does not time out *)

Lemma less_safe i j : safe (T:=T) (less compare i j).
Proof. unfold less. effects. Qed.

Lemma swap_safe i j : safe (T:=T) (swap i j).
Proof. unfold swap. effects. Qed.

Lemma minChild_safe i : safe (T:=T) (minChild compare i).
Proof.
  pose proof less_safe. unfold minChild. effects.
  - generalize (-1, i). induction (seqZ _ _) as [|j js IH]; intros acc; simpl;
      unfold minChild_step; effects.
  - apply for_each_keeps. intros acc j. unfold minChild_step. effects.
Qed.

(** *** The loops *)

Lemma swim_loop_halts (fuel : nat) i (h : heap T) :
  layout h → (Z.to_nat i < fuel)%nat → halts (swim_loop compare fuel i) h.
Proof.
  revert i h. induction fuel as [|fuel IH]; intros i h Hl Hfuel; [lia|].
  cbn [swim_loop]. destruct (0 <? i) eqn:Hpos; [|done]. apply Z.ltb_lt in Hpos.
  unfold halts. mred.
  destruct (parent h !! i) as [p|] eqn:Hp; [|done]. mred.
  destruct (layout_parent _ Hl i p Hp) as [Hi Hpi].
  pose proof (less_keeps i p h) as Hk. pose proof (less_safe i p h Hl) as Hs.
  unfold halts in Hs.
  destruct (less compare i p h) as [[b| | |] h1]; simpl in *; subst h1; try done.
  destruct b; [|done]. mrun.
  pose proof (swap_keeps i p h) as Hk2. pose proof (swap_safe i p h Hl) as Hs2.
  unfold halts in Hs2.
  destruct (swap i p h) as [[[]| | |] h2]; simpl in *; try done.
  assert (parent h2 = parent h) as Hpar by (unfold shape_of, layout_of in Hk2; congruence).
  mred. rewrite Hpar, Hp. mred.
  apply IH.
  - apply (layout_keeps h); [|done]. by apply (f_equal snd) in Hk2.
  - pose proof (parent_lt (D h) i (topo_D _ (layout_topo _ Hl)) Hpos). lia.
Qed.

Lemma swim_safe i : safe (T:=T) (swim compare i).
Proof. intros h Hl. apply swim_loop_halts; [done|lia]. Qed.

Lemma minChild_bounds (h h' : heap T) i j :
  layout h → minChild compare i h = (Ok j, h') → j = -1 ∨ i < j < sz h.
Proof.
  intros Hl. pose proof (topo_D _ (layout_topo _ Hl)) as HD.
  unfold minChild. mred.
  destruct (child h !! i) as [from|] eqn:Hch; [|done]. mred.
  destruct (layout_child _ Hl i from Hch) as [Hi ->].
  destruct (for_each _ _ _ h) as [[[index cur]| | |] h1] eqn:Hloop; try done.
  intros [= <- <-]. apply minChild_loop_range in Hloop as [->|Hin]; [by left|].
  right. apply elem_of_seqZ in Hin. simpl. nia.
Qed.

Lemma sink_loop_halts (fuel : nat) i j (h : heap T) :
  layout h →
  (j = -1 ∧ (0 < fuel)%nat) ∨ (j < sz h ∧ (Z.to_nat (sz h - j) < fuel)%nat) →
  halts (sink_loop compare fuel i j) h.
Proof.
  revert i j h. induction fuel as [|fuel IH]; intros i j h Hl Hj; [lia|].
  cbn [sink_loop]. destruct (j =? -1) eqn:Hj1; [done|].
  apply Z.eqb_neq in Hj1. destruct Hj as [[? _]|[Hjs Hfuel]]; [done|].
  unfold halts, bind.
  pose proof (swap_keeps i j h) as Hk. pose proof (swap_safe i j h Hl) as Hs.
  unfold halts in Hs.
  destruct (swap i j h) as [[[]| | |] h1]; simpl in *; try done.
  assert (layout h1) as Hl1
    by (apply (layout_keeps h); [by apply (f_equal snd) in Hk|done]).
  assert (sz h1 = sz h) as Hsz by (by apply (f_equal fst) in Hk).
  pose proof (minChild_keeps j h1) as Hk2.
  pose proof (minChild_safe j h1 Hl1) as Hs2. unfold halts in Hs2.
  destruct (minChild compare j h1) as [[j'| | |] h2] eqn:Hmc; simpl in *;
    subst h2; try done.
  apply minChild_bounds in Hmc; [|done].
  apply IH; [done|]. rewrite Hsz. destruct Hmc as [->|Hj']; [left|right]; lia.
Qed.

Lemma sink_safe i : safe (T:=T) (sink compare i).
Proof.
  intros h Hl. unfold sink, halts. unfold bind at 1.
  pose proof (minChild_keeps i h) as Hk.
  pose proof (minChild_safe i h Hl) as Hs. unfold halts in Hs.
  destruct (minChild compare i h) as [[j| | |] h1] eqn:Hmc; simpl in *;
    subst h1; try done.
  apply minChild_bounds in Hmc; [|done].
  change (halts (sink_loop compare (S (Z.to_nat (sz h - i))) i j) h).
  apply sink_loop_halts; [done|]. destruct Hmc as [->|Hj]; [left|right]; lia.
Qed.

Lemma all_of_halts (body : Z → M T bool) js (h : heap T) :
  (∀ j, keeps id (body j)) → (∀ j, j ∈ js → halts (body j) h) →
  halts (all_of body js) h.
Proof.
  intros Hk. induction js as [|j js IH]; intros Hbody; [done|].
  simpl. unfold halts, bind. specialize (Hk j h).
  pose proof (Hbody j ltac:(left)) as Hj. unfold halts in Hj.
  destruct (body j h) as [[[]| | |] h1]; simpl in *; subst; try done.
  apply IH. intros j' Hj'. apply Hbody. by right.
Qed.

Lemma isMinHeapAt_halts (fuel : nat) i (h : heap T) :
  layout h → (Z.to_nat (sz h - i) < fuel)%nat →
  halts (isMinHeapAt compare fuel i) h.
Proof.
  revert i. induction fuel as [|fuel IH]; intros i Hl Hfuel; [lia|].
  pose proof (topo_D _ (layout_topo _ Hl)) as HD.
  cbn [isMinHeapAt].
  destruct (child h !! i) as [from|] eqn:Hch.
  2:{ unfold halts, bind, read_child, gets, assert_some. by rewrite Hch. }
  destruct (layout_child _ Hl i from Hch) as [Hi ->].
  eapply halts_bind_ok.
  { unfold bind, read_child, gets, assert_some. rewrite Hch. reflexivity. }
  eapply halts_bind_ok; [reflexivity|]. eapply halts_bind_ok; [reflexivity|].
  apply all_of_halts.
  - intros j. effects.
  - intros j Hj. apply elem_of_seqZ in Hj. unfold halts, bind.
    pose proof (less_keeps i j h) as Hk. pose proof (less_safe i j h Hl) as Hs.
    unfold halts in Hs.
    destruct (less compare i j h) as [[b| | |] h1]; simpl in *; subst h1;
      try done.
    destruct b; simpl; [|done]. apply IH; [done|]. nia.
Qed.

Lemma isMinHeap_safe : safe (T:=T) (isMinHeap compare).
Proof.
  intros h Hl.
  change (halts (isMinHeapAt compare (S (Z.to_nat (sz h))) 0) h).
  apply isMinHeapAt_halts; [done|lia].
Qed.

Lemma isMinHeap_keeps : keeps (T:=T) id (isMinHeap compare).
Proof. unfold isMinHeap. effects. Qed.

#[local] Hint Resolve less_safe swap_safe minChild_safe swim_safe sink_safe
  isMinHeap_safe isMinHeap_keeps : effects.

Lemma delete_safe ki : safe (T:=T) (delete compare ki).
Proof.
  unfold delete, keyExistsOrThrow, contains, keyInBoundsOrThrow. effects.
Qed.

#[local] Hint Resolve delete_safe : effects.

Lemma exec_safe o : safe (T:=T) (exec compare o).
Proof.
  destruct o; simpl; unfold fmapM, insert, update, increase, decrease,
    pollMinKeyIndex, pollMinValue, peekMinKeyIndex, peekMinValue, valueOf,
    keyExistsAndValueNotNullOrThrow, keyExistsOrThrow, valueNotNullOrThrow,
    isNotEmptyOrThrow, contains, keyInBoundsOrThrow, size, isEmpty; effects.
Qed.

(** *** Reachable states keep the constructor's topology *)

Lemma MinIndexedDHeap_layout degree maxSize (h : heap T) :
  MinIndexedDHeap degree maxSize = Ok h → layout h.
Proof.
  unfold MinIndexedDHeap. destruct (maxSize <=? 0); [done|].
  intros [= <-].
  set (d := Z.max 2 degree). set (n := Z.max (d + 1) maxSize).
  set (e := Heap 0 n d ∅ ∅ ∅ ∅ ∅).
  destruct (init_slots_fields (seqZ 0 n) e) as (Hsz & HN & HD).
  assert (∀ i, i ∈ seqZ 0 n ↔ 0 ≤ i < n) as Hin
    by (intros i; rewrite elem_of_seqZ; lia).
  constructor; [constructor|..]; rewrite ?HN, ?HD; simpl; try lia.
  - intros i Hi. by apply (init_slots_lookup (seqZ 0 n) e i), Hin.
  - intros i Hi. by apply (init_slots_lookup (seqZ 0 n) e i), Hin.
  - intros i p Hp. destruct (decide (i ∈ seqZ 0 n)) as [Hi|Hi].
    + destruct (init_slots_lookup _ e i Hi) as (_ & Hp' & _). simpl in Hp'.
      split; [by apply Hin|congruence].
    + destruct (init_slots_other _ e i Hi) as (_ & Hp' & _). simpl in Hp'.
      rewrite Hp' in Hp. done.
  - intros i f Hf. destruct (decide (i ∈ seqZ 0 n)) as [Hi|Hi].
    + destruct (init_slots_lookup _ e i Hi) as (Hf' & _). simpl in Hf'.
      split; [by apply Hin|congruence].
    + destruct (init_slots_other _ e i Hi) as (Hf' & _). simpl in Hf'.
      rewrite Hf' in Hf. done.
Qed.

Lemma reachable_layout (h : heap T) : reachable compare h → layout h.
Proof.
  induction 1 as [degree maxSize h Hnew|o h a h' _ IH Hex|o h e h' _ IH Hex].
  - by apply (MinIndexedDHeap_layout degree maxSize).
  - apply (layout_keeps h); [|done].
    pose proof (exec_keeps o h) as Hk. by rewrite Hex in Hk.
  - apply (layout_keeps h); [|done].
    pose proof (exec_keeps o h) as Hk. by rewrite Hex in Hk.
Qed.

End Effects.

(** * The properties of the specification *)

Lemma zcmp_consistent : consistent zcmp.
Proof. constructor; unfold zcmp; intros; lia. Qed.

Lemma fresh_reachable degree maxSize :
  0 < maxSize → reachable zcmp (fresh degree maxSize).
Proof.
  intros Hpos. apply (reachable_new _ degree maxSize).
  unfold fresh, MinIndexedDHeap.
  by destruct (maxSize <=? 0) eqn:E; [apply Z.leb_le in E; lia|].
Qed.

Lemma sample_reachable : reachable zcmp sample.
Proof.
  apply reachable_after; [apply zcmp_consistent|]. by apply fresh_reachable.
Qed.

Lemma twins_reachable : reachable zcmp twins.
Proof.
  apply reachable_after; [apply zcmp_consistent|]. by apply fresh_reachable.
Qed.

Lemma crowded_reachable : reachable zcmp crowded.
Proof.
  apply reachable_after; [apply zcmp_consistent|]. by apply fresh_reachable.
Qed.

(** C1.  After any sequence of calls on a freshly constructed heap, every
    occupied slot [s] holds a value not greater, under the comparator, than
    the value of each of its children [c] below [sz], the children of [s]
    being the slots [child[s] .. child[s] + D - 1]. *)
Theorem heap_order_after_calls {T} (compare : T → T → Z) (h : heap T) :
  consistent compare → reachable compare h →
  ∀ s, 0 ≤ s < sz h →
    ∃ from, child h !! s = Some from ∧
      ∀ c, from ≤ c < from + D h → c < sz h →
        ∃ a b, val_at h s = Some a ∧ val_at h c = Some b ∧ compare a b ≤ 0.
Proof.
  intros Hcmp Hr s Hs. destruct (reachable_wf _ Hcmp h Hr) as [Ht Hb Hord].
  pose proof (topo_D _ Ht) as HD. pose proof (bij_n _ _ Hb) as Hn.
  exists (s * D h + 1). split; [apply (topo_child _ Ht); lia|].
  intros c Hc Hcs.
  assert ((c - 1) / D h = s) as Hpc by (apply parent_child; lia).
  specialize (Hord c ltac:(nia)). rewrite Hpc in Hord. unfold slot_le in Hord.
  destruct (val_at h s) as [a|]; [|done]. destruct (val_at h c) as [b|]; [|done].
  by exists a, b.
Qed.

Lemma heap_order_after_calls_witness :
  ∃ from, child sample !! 0 = Some from ∧
    ∀ c, from ≤ c < from + D sample → c < sz sample →
      ∃ a b, val_at sample 0 = Some a ∧ val_at sample c = Some b ∧
             zcmp a b ≤ 0.
Proof.
  apply (heap_order_after_calls zcmp sample zcmp_consistent sample_reachable 0).
  vm_compute. split; [discriminate|reflexivity].
Defined.

(** C2.  After any sequence of calls, [pm] and [im] are inverse bijections
    between the active keys and the slots below [sz], and the slots from [sz]
    on hold the absent sentinel. *)
Theorem bijection_after_calls {T} (compare : T → T → Z) (h : heap T) :
  consistent compare → reachable compare h →
  (∀ k, contains k h = (Ok true, h) →
        ∃ s, pm h !! k = Some s ∧ 0 ≤ s < sz h ∧ im h !! s = Some k) ∧
  (∀ s, 0 ≤ s < sz h →
        ∃ k, im h !! s = Some k ∧ contains k h = (Ok true, h) ∧
             pm h !! k = Some s) ∧
  (∀ s, sz h ≤ s < N h → im h !! s = Some (-1)).
Proof.
  intros Hcmp Hr. destruct (reachable_wf _ Hcmp h Hr) as [Ht Hb Hord].
  split; [|split].
  - intros k Hk.
    destruct (contains_cases _ h k Hb)
      as [[_ Hc]|[(_ & _ & Hc)|(_ & _ & s & v & Hp & Hs & Him & _)]];
      [congruence..|].
    by exists s.
  - intros s Hs. destruct (bij_im _ _ Hb s Hs) as (k & Hk & Hkr & Hp).
    exists k. split; [done|]. split; [|done].
    apply (contains_active _ _ s); [done..|lia].
  - apply (bij_free _ _ Hb).
Qed.

Lemma bijection_after_calls_witness :
  (∀ k, contains k sample = (Ok true, sample) →
        ∃ s, pm sample !! k = Some s ∧ 0 ≤ s < sz sample ∧
             im sample !! s = Some k) ∧
  (∀ s, 0 ≤ s < sz sample →
        ∃ k, im sample !! s = Some k ∧ contains k sample = (Ok true, sample) ∧
             pm sample !! k = Some s) ∧
  (∀ s, sz sample ≤ s < N sample → im sample !! s = Some (-1)).
Proof.
  exact (bijection_after_calls zcmp sample zcmp_consistent sample_reachable).
Defined.

(** C3.  [isMinHeap] answers [false] on a heap whose root and first child hold
    the same value, although the heap is reachable and in heap order: the
    check asks for a parent strictly less than its child. *)
Theorem isMinHeap_rejects_equal_values :
  reachable zcmp twins ∧ ordered zcmp (sz twins) twins ∧
  val_at twins 0 = Some 5 ∧ val_at twins 1 = Some 5 ∧
  isMinHeap zcmp twins = (Ok false, twins).
Proof.
  split; [apply twins_reachable|]. split.
  { apply (wf_ordered _ _ (reachable_wf _ zcmp_consistent _ twins_reachable)). }
  repeat split; vm_compute; reflexivity.
Qed.

(** C4, as the specification words it, fails: with [degree = 1] and
    [maxSize = 1] the capacity is [3], not [max (degree + 1) maxSize = 2]. *)
Lemma capacity_from_requested_degree_fails :
  ¬ (∀ h : heap Z, MinIndexedDHeap 1 1 = Ok h → N h = Z.max (1 + 1) 1).
Proof.
  intros Hclaim.
  assert (MinIndexedDHeap (T:=Z) 1 1 = Ok (fresh 1 1)) as Hnew
    by (vm_compute; reflexivity).
  apply Hclaim in Hnew. vm_compute in Hnew. discriminate.
Qed.

(** C4, amended.  Construction throws [InvalidCapacity] exactly when
    [maxSize <= 0]; otherwise the degree is [max 2 degree], the capacity is
    [max (D + 1) maxSize] for that effective degree [D], the heap is empty,
    and for every slot and key below the capacity the topology arrays hold
    [floor ((s - 1) / D)] and [s * D + 1], [pm] and [im] hold [-1] and the
    value is [null]. *)
Theorem construction {T} (degree maxSize : Z) :
  (MinIndexedDHeap (T:=T) degree maxSize = Raise InvalidCapacity ↔ maxSize ≤ 0) ∧
  (0 < maxSize →
   ∃ h : heap T, MinIndexedDHeap degree maxSize = Ok h ∧
     D h = Z.max 2 degree ∧ N h = Z.max (D h + 1) maxSize ∧ sz h = 0 ∧
     ∀ s, 0 ≤ s < N h →
       parent h !! s = Some ((s - 1) / D h) ∧
       child h !! s = Some (s * D h + 1) ∧
       pm h !! s = Some (-1) ∧ im h !! s = Some (-1) ∧
       values h !! s = Some None).
Proof.
  unfold MinIndexedDHeap. split.
  - destruct (maxSize <=? 0) eqn:E.
    + apply Z.leb_le in E. done.
    + apply Z.leb_gt in E. split; [done|lia].
  - intros Hpos. destruct (maxSize <=? 0) eqn:E; [apply Z.leb_le in E; lia|].
    eexists. split; [reflexivity|].
    set (d := Z.max 2 degree). set (n := Z.max (d + 1) maxSize).
    set (e := Heap 0 n d ∅ ∅ ∅ ∅ ∅).
    destruct (init_slots_fields (seqZ 0 n) e) as (Hsz & HN & HD).
    rewrite Hsz, HN, HD. simpl. repeat split; try done.
    all: apply (init_slots_lookup (seqZ 0 n) e s); apply elem_of_seqZ; lia.
Qed.

Lemma construction_witness :
  ∃ h : heap Z, MinIndexedDHeap 1 1 = Ok h ∧
    D h = Z.max 2 1 ∧ N h = Z.max (D h + 1) 1 ∧ sz h = 0 ∧
    ∀ s, 0 ≤ s < N h →
      parent h !! s = Some ((s - 1) / D h) ∧
      child h !! s = Some (s * D h + 1) ∧
      pm h !! s = Some (-1) ∧ im h !! s = Some (-1) ∧
      values h !! s = Some None.
Proof.
  apply (proj2 (construction (T:=Z) 1 1)). lia.
Defined.

(** C5.  For an active key whose stored value is [c]: [decrease] with a value
    not less than [c] and [increase] with a value not greater than [c] return
    and leave the whole state as it was; [decrease] with a lesser value stores
    it and swims the slot of the key, [increase] with a greater value stores
    it and sinks that slot. *)
Theorem decrease_increase_only_improve {T} (compare : T → T → Z)
    (h : heap T) (k : Z) (c : T) :
  consistent compare →
  contains k h = (Ok true, h) → values h !! k = Some (Some c) →
  (∀ v, 0 ≤ compare v c → decrease compare k (Some v) h = (Ok tt, h)) ∧
  (∀ v, compare v c ≤ 0 → increase compare k (Some v) h = (Ok tt, h)) ∧
  (∀ v p, compare v c < 0 → pm h !! k = Some p →
     decrease compare k (Some v) h = swim compare p (stored h k (Some v))) ∧
  (∀ v p, 0 < compare v c → pm h !! k = Some p →
     increase compare k (Some v) h = sink compare p (stored h k (Some v))).
Proof.
  intros Hcmp Hc Hv.
  assert (∀ v, keyExistsAndValueNotNullOrThrow k (Some v) h = (Ok v, h)) as Hpre.
  { intros v. unfold keyExistsAndValueNotNullOrThrow, keyExistsOrThrow, bind.
    by rewrite Hc. }
  repeat split.
  - intros v Hle. unfold decrease. unfold bind at 1. rewrite Hpre. mrun.
    unfold lessValue.
    by destruct (compare v c <? 0) eqn:E; [apply Z.ltb_lt in E; lia|].
  - intros v Hle. unfold increase. unfold bind at 1. rewrite Hpre. mrun.
    unfold lessValue. apply (not_lt_of_le _ Hcmp) in Hle.
    by destruct (compare c v <? 0) eqn:E; [apply Z.ltb_lt in E|].
  - intros v p Hlt Hp. unfold decrease. unfold bind at 1. rewrite Hpre. mrun.
    unfold lessValue.
    destruct (compare v c <? 0) eqn:E; [|apply Z.ltb_ge in E; lia].
    mrun. reflexivity.
  - intros v p Hlt Hp. unfold increase. unfold bind at 1. rewrite Hpre. mrun.
    unfold lessValue. apply (compare_antisym _ Hcmp) in Hlt.
    destruct (compare c v <? 0) eqn:E; [|apply Z.ltb_ge in E; lia].
    mrun. reflexivity.
Qed.

Lemma decrease_increase_only_improve_witness :
  decrease zcmp 1 (Some 25) sample = (Ok tt, sample) ∧
  increase zcmp 1 (Some 10) sample = (Ok tt, sample) ∧
  decrease zcmp 2 (Some 10) sample = swim zcmp 2 (stored sample 2 (Some 10)) ∧
  increase zcmp 1 (Some 60) sample = sink zcmp 0 (stored sample 1 (Some 60)).
Proof.
  assert (contains 1 sample = (Ok true, sample)) as Hc1
    by (vm_compute; reflexivity).
  assert (values sample !! 1 = Some (Some 20)) as Hv1
    by (vm_compute; reflexivity).
  assert (contains 2 sample = (Ok true, sample)) as Hc2
    by (vm_compute; reflexivity).
  assert (values sample !! 2 = Some (Some 30)) as Hv2
    by (vm_compute; reflexivity).
  destruct (decrease_increase_only_improve zcmp sample 1 20 zcmp_consistent
              Hc1 Hv1) as (Hd & Hi & _ & Hs).
  destruct (decrease_increase_only_improve zcmp sample 2 30 zcmp_consistent
              Hc2 Hv2) as (_ & _ & Hw & _).
  split; [apply Hd; vm_compute; discriminate|].
  split; [apply Hi; vm_compute; discriminate|].
  split; [apply Hw; vm_compute; reflexivity|].
  apply Hs; vm_compute; reflexivity.
Defined.

(** C6.  On a fresh heap of degree 3 and capacity 10 with the comparator
    [a - b], inserting [0:50], [1:20], [2:30] and calling [pollMinValue]
    three times returns 20, 30, 50 in that order and leaves size 0. *)
Theorem insert_three_poll_three :
  MinIndexedDHeap 3 10 = Ok (fresh 3 10) ∧
  run_ops zcmp
    [Insert 0 (Some 50); Insert 1 (Some 20); Insert 2 (Some 30);
     PollMinValue; PollMinValue; PollMinValue; Size; IsEmpty]
    (fresh 3 10)
  = [Ok Void; Ok Void; Ok Void;
     Ok (Value 20); Ok (Value 30); Ok (Value 50); Ok (Num 0); Ok (Bool true)].
Proof.
  split; vm_compute; reflexivity.
Qed.

(** C7.  [MinIndexedBinaryHeap] constructs the object that [MinIndexedDHeap]
    constructs for degree 2 and inherits every method; so for every capacity,
    comparator and sequence of calls the two give the same answers to the
    [peekMinKeyIndex] and [peekMinValue] calls of the sequence. *)
Theorem binary_heap_is_degree_two {T} (compare : T → T → Z) (maxSize : Z)
    (os : list (op T)) :
  MinIndexedBinaryHeap (T:=T) maxSize = MinIndexedDHeap 2 maxSize ∧
  session compare (MinIndexedBinaryHeap maxSize) os
    = session compare (MinIndexedDHeap 2 maxSize) os.
Proof. split; reflexivity. Qed.

(** C8.  On every reachable state, whatever the comparator, no public call
    runs out of the iterations its loops are given: [swim] is given [i + 1]
    and [sink] is given [sz - i + 1].  The swim loop moves to [parent[i]], a
    slot strictly below [i] and not below the root; the sink loop moves to
    the answer of [minChild], which is [-1] or a slot strictly above its
    argument and below [sz]; and a loop that has stopped stops in the same
    state when it is given more iterations.  With a comparator that meets
    its contract every public call moreover returns or throws: no read the
    source asserts to be defined is undefined. *)
Theorem calls_come_back {T} (compare : T → T → Z) (h : heap T) :
  reachable compare h →
  (∀ o, fst (exec compare o h) ≠ Timeout) ∧
  (consistent compare → ∀ o, comes_back (fst (exec compare o h))) ∧
  (∀ i, 0 < i < N h → ∃ p, parent h !! i = Some p ∧ 0 ≤ p < i) ∧
  (∀ i j h', minChild compare i h = (Ok j, h') → j = -1 ∨ i < j < sz h) ∧
  (∀ fuel i h0 r h', swim_loop compare fuel i h0 = (r, h') → r ≠ Timeout →
                     swim_loop compare (S fuel) i h0 = (r, h')) ∧
  (∀ fuel i j h0 r h', sink_loop compare fuel i j h0 = (r, h') → r ≠ Timeout →
                       sink_loop compare (S fuel) i j h0 = (r, h')).
Proof.
  intros Hr. pose proof (reachable_layout _ h Hr) as Hl.
  pose proof (layout_topo _ Hl) as Ht. pose proof (topo_D _ Ht) as HD.
  split; [|split; [|split; [|split; [|split]]]].
  - intros o. by apply exec_safe.
  - intros Hcmp o. pose proof (reachable_wf _ Hcmp h Hr) as Hwf.
    destruct (exec_settles _ Hcmp h o Hwf) as [[e ->]|(a & h' & -> & _)]; done.
  - intros i Hi. exists ((i - 1) / D h). split; [apply (topo_parent _ Ht); lia|].
    apply parent_lt; lia.
  - intros i j h'. by apply minChild_bounds.
  - intros fuel i h0 r h'. apply swim_loop_more_fuel.
  - intros fuel i j h0 r h'. apply sink_loop_more_fuel.
Qed.

Lemma calls_come_back_witness :
  (∀ o, fst (exec zcmp o sample) ≠ Timeout) ∧
  (consistent zcmp → ∀ o, comes_back (fst (exec zcmp o sample))) ∧
  (∀ i, 0 < i < N sample → ∃ p, parent sample !! i = Some p ∧ 0 ≤ p < i) ∧
  (∀ i j h', minChild zcmp i sample = (Ok j, h') → j = -1 ∨ i < j < sz sample) ∧
  (∀ fuel i h0 r h', swim_loop zcmp fuel i h0 = (r, h') → r ≠ Timeout →
                     swim_loop zcmp (S fuel) i h0 = (r, h')) ∧
  (∀ fuel i j h0 r h', sink_loop zcmp fuel i j h0 = (r, h') → r ≠ Timeout →
                       sink_loop zcmp (S fuel) i j h0 = (r, h')).
Proof.
  exact (calls_come_back zcmp sample sample_reachable).
Defined.

(** C9.  [insert] of a key that [contains] reports as present throws
    [DuplicateKey], whatever the value, and leaves every field of the object
    as it was. *)
Theorem insert_duplicate_is_atomic {T} (compare : T → T → Z) (h : heap T)
    (k : Z) (value : option T) :
  contains k h = (Ok true, h) →
  insert compare k value h = (Raise DuplicateKey, h).
Proof.
  intros Hc. unfold insert, bind. by rewrite Hc.
Qed.

Lemma insert_duplicate_is_atomic_witness :
  insert zcmp 1 (Some 99) sample = (Raise DuplicateKey, sample).
Proof.
  apply (insert_duplicate_is_atomic zcmp sample 1 (Some 99)).
  vm_compute. reflexivity.
Defined.

(** C10.  On every reachable state [sz <= N]; and when [sz = N], [insert]
    throws for every key and value and changes nothing: [KeyOutOfBounds] for
    a key outside [0, N), and [DuplicateKey] for a key inside, which is then
    necessarily active. *)
Theorem insert_into_full_heap_throws {T} (compare : T → T → Z) (h : heap T) :
  consistent compare → reachable compare h →
  sz h ≤ N h ∧
  (sz h = N h →
   ∀ ki value,
     (¬ 0 ≤ ki < N h →
      insert compare ki value h = (Raise KeyOutOfBounds, h)) ∧
     (0 ≤ ki < N h →
      contains ki h = (Ok true, h) ∧
      insert compare ki value h = (Raise DuplicateKey, h))).
Proof.
  intros Hcmp Hr. destruct (reachable_wf _ Hcmp h Hr) as [Ht Hb Hord].
  split; [apply (bij_n _ _ Hb)|].
  intros Hfull ki value. split.
  - intros Hout. unfold insert, bind. by rewrite contains_out.
  - intros Hin.
    destruct (contains_cases _ h ki Hb)
      as [[Hk _]|[(_ & Hp & _)|(_ & Hc & _)]].
    + done.
    + pose proof (bij_not_full _ _ _ Hb Hin Hp). lia.
    + split; [done|]. unfold insert, bind. by rewrite Hc.
Qed.

Lemma insert_into_full_heap_throws_witness :
  sz crowded ≤ N crowded ∧
  insert zcmp 3 (Some 1) crowded = (Raise KeyOutOfBounds, crowded) ∧
  contains 2 crowded = (Ok true, crowded) ∧
  insert zcmp 2 (Some 1) crowded = (Raise DuplicateKey, crowded).
Proof.
  destruct (insert_into_full_heap_throws zcmp crowded zcmp_consistent
              crowded_reachable) as [Hle Hfull].
  split; [exact Hle|].
  assert (sz crowded = N crowded) as Heq by (vm_compute; reflexivity).
  split.
  - apply (Hfull Heq 3 (Some 1)). vm_compute. intros [_ Hlt]. discriminate.
  - apply (Hfull Heq 2 (Some 1)). vm_compute. split; [discriminate|reflexivity].
Defined.

(** * More of the code: what the calls do to the keys and their values *)

Section Store.

Context {T : Type}.
Variable compare : T → T → Z.

#[local] Hint Resolve keeps_id assert_some_keeps assert_value_keeps
  less_keeps minChild_keeps : effects.

(** ** The sifting helpers leave [sz], [N] and the values alone *)

Lemma swap_store i j : keeps (T:=T) store_of (swap i j).
Proof. unfold swap. effects. Qed.

Lemma sink_loop_store fuel i j :
  keeps (T:=T) store_of (sink_loop compare fuel i j).
Proof.
  pose proof swap_store.
  revert i j. induction fuel as [|fuel IH]; intros i j; cbn [sink_loop]; effects.
Qed.

Lemma sink_store i : keeps (T:=T) store_of (sink compare i).
Proof. pose proof sink_loop_store. unfold sink. effects. Qed.

Lemma swim_loop_store fuel i : keeps (T:=T) store_of (swim_loop compare fuel i).
Proof.
  pose proof swap_store.
  revert i. induction fuel as [|fuel IH]; intros i; cbn [swim_loop]; effects.
Qed.

Lemma swim_store i : keeps (T:=T) store_of (swim compare i).
Proof. apply swim_loop_store. Qed.

(** ** Reading a run backwards *)

Lemma bind_ok_inv {A B} (m : M T A) (f : A → M T B) (h h' : heap T) b :
  bind m f h = (Ok b, h') → ∃ a h1, m h = (Ok a, h1) ∧ f a h1 = (Ok b, h').
Proof.
  unfold bind. destruct (m h) as [[a| | |] h1]; try done. intros Hf. by exists a, h1.
Qed.

Lemma keeps_inv {A C} (π : heap T → C) (m : M T A) (h h' : heap T) r :
  keeps π m → m h = (r, h') → π h' = π h.
Proof. intros Hk Hm. specialize (Hk h). by rewrite Hm in Hk. Qed.

Lemma read_inv {A} (g : heap T → option A) (h h' : heap T) a :
  bind (gets g) assert_some h = (Ok a, h') → g h = Some a ∧ h' = h.
Proof.
  unfold bind, gets, assert_some. destruct (g h) as [x|]; [|done].
  unfold ret. by intros [= -> ->].
Qed.

Lemma read_value_inv k (h h' : heap T) v :
  bind (read_values k) assert_value h = (Ok v, h') →
  values h !! k = Some (Some v) ∧ h' = h.
Proof.
  unfold bind, read_values, gets, assert_value.
  destruct (values h !! k) as [[x|]|]; try done. unfold ret. by intros [= -> ->].
Qed.

Lemma contains_inv ki (h h' : heap T) r :
  contains ki h = (r, h') →
  h' = h ∧
  ((r = Raise KeyOutOfBounds ∧ ¬ 0 ≤ ki < N h) ∨
   (r = Ok (negb (bool_decide (pm h !! ki = Some (-1)))) ∧ 0 ≤ ki < N h)).
Proof.
  destruct (decide (0 ≤ ki < N h)) as [Hin|Hout].
  - rewrite contains_in by done. intros [= <- <-]. split; [done|]. by right.
  - rewrite contains_out by done. intros [= <- <-]. split; [done|]. by left.
Qed.

Lemma keyExistsOrThrow_inv ki (h h' : heap T) :
  keyExistsOrThrow ki h = (Ok tt, h') →
  h' = h ∧ contains ki h = (Ok true, h) ∧ 0 ≤ ki < N h.
Proof.
  unfold keyExistsOrThrow. intros Hrun.
  apply bind_ok_inv in Hrun as (c & h1 & Hc & Hrun).
  pose proof Hc as Hc'. apply contains_inv in Hc' as [Heq Hc'']. subst h1.
  destruct c; [|done]. unfold ret in Hrun. injection Hrun as <-.
  destruct Hc'' as [[? _]|[_ Hin]]; done.
Qed.

Lemma keyExistsAndValueNotNullOrThrow_inv ki value (h h' : heap T) v :
  keyExistsAndValueNotNullOrThrow ki value h = (Ok v, h') →
  h' = h ∧ value = Some v ∧ contains ki h = (Ok true, h) ∧ 0 ≤ ki < N h.
Proof.
  unfold keyExistsAndValueNotNullOrThrow. intros Hrun.
  apply bind_ok_inv in Hrun as ([] & h1 & Hk & Hrun).
  apply keyExistsOrThrow_inv in Hk as (Heq & Hc & Hin). subst h1.
  destruct value as [w|]; [|done]. unfold valueNotNullOrThrow, ret in Hrun.
  by injection Hrun as <- <-.
Qed.

Lemma insert_inv ki value (h h' : heap T) :
  insert compare ki value h = (Ok tt, h') →
  ∃ v, value = Some v ∧ contains ki h = (Ok false, h) ∧ 0 ≤ ki < N h ∧
       sz h' = sz h + 1 ∧ N h' = N h ∧
       values h' = <[ki := Some v]> (values h).
Proof.
  unfold insert. intros Hrun.
  apply bind_ok_inv in Hrun as (c & h1 & Hc & Hrun).
  pose proof Hc as Hc'. apply contains_inv in Hc' as [Heq Hc'']. subst h1.
  destruct c; [done|].
  destruct Hc'' as [[? _]|[_ Hin]]; [done|].
  destruct value as [v|]; [|done]. exists v.
  unfold valueNotNullOrThrow, bind, ret, gets, write_pm, write_im,
    write_values, set_sz, modify in Hrun. simpl in Hrun.
  apply (keeps_inv store_of _ _ _ _ (swim_store _)) in Hrun.
  unfold store_of in Hrun. simpl in Hrun. injection Hrun as Hsz HN Hval.
  done.
Qed.

Lemma delete_inv ki (h h' : heap T) old :
  delete compare ki h = (Ok old, h') →
  contains ki h = (Ok true, h) ∧ 0 ≤ ki < N h ∧
  values h !! ki = Some (Some old) ∧
  sz h' = sz h - 1 ∧ N h' = N h ∧ values h' = <[ki := None]> (values h).
Proof.
  unfold delete. intros Hrun.
  apply bind_ok_inv in Hrun as ([] & ha & Hk & Hrun).
  apply keyExistsOrThrow_inv in Hk as (Heq & Hc & Hin). subst ha.
  apply bind_ok_inv in Hrun as (i & hb & Hi & Hrun).
  apply (read_inv (λ h, pm h !! ki)) in Hi as [Hi Heq]. subst hb.
  apply bind_ok_inv in Hrun as (s & hc & Hs & Hrun).
  unfold gets in Hs. injection Hs as <- <-.
  apply bind_ok_inv in Hrun as ([] & hd & Hs & Hrun).
  unfold set_sz, modify in Hs. injection Hs as <-.
  apply bind_ok_inv in Hrun as (s1 & he & Hs & Hrun).
  unfold gets in Hs. injection Hs as <- <-.
  apply bind_ok_inv in Hrun as ([] & h1 & Hswap & Hrun).
  apply (keeps_inv store_of _ _ _ _ (swap_store _ _)) in Hswap.
  apply bind_ok_inv in Hrun as ([] & h2 & Hsink & Hrun).
  apply (keeps_inv store_of _ _ _ _ (sink_store _)) in Hsink.
  apply bind_ok_inv in Hrun as ([] & h3 & Hswim & Hrun).
  apply (keeps_inv store_of _ _ _ _ (swim_store _)) in Hswim.
  apply bind_ok_inv in Hrun as (value & h4 & Hv & Hrun).
  apply read_value_inv in Hv as [Hv Heq]. subst h4.
  unfold store_of in *. simpl in *.
  assert (sz h3 = sz h - 1 ∧ N h3 = N h ∧ values h3 = values h)
    as (Hsz & HN & Hval) by (repeat split; congruence).
  unfold bind, write_values, write_pm, write_im, modify, gets, ret in Hrun.
  simpl in Hrun. injection Hrun as <- <-. simpl.
  rewrite Hval in Hv. rewrite Hval. done.
Qed.

Lemma update_inv ki value (h h' : heap T) old :
  update compare ki value h = (Ok old, h') →
  ∃ v, value = Some v ∧ contains ki h = (Ok true, h) ∧ 0 ≤ ki < N h ∧
       values h !! ki = Some (Some old) ∧
       sz h' = sz h ∧ N h' = N h ∧ values h' = <[ki := Some v]> (values h).
Proof.
  unfold update. intros Hrun.
  apply bind_ok_inv in Hrun as (v & ha & Hk & Hrun).
  apply keyExistsAndValueNotNullOrThrow_inv in Hk as (Heq & -> & Hc & Hin).
  subst ha. exists v.
  apply bind_ok_inv in Hrun as (i & hb & Hi & Hrun).
  apply (read_inv (λ h, pm h !! ki)) in Hi as [Hi Heq]. subst hb.
  apply bind_ok_inv in Hrun as (o & hc & Ho & Hrun).
  apply read_value_inv in Ho as [Ho Heq]. subst hc.
  apply bind_ok_inv in Hrun as ([] & hd & Hw & Hrun).
  unfold write_values, modify in Hw. injection Hw as <-.
  apply bind_ok_inv in Hrun as ([] & h2 & Hsink & Hrun).
  apply (keeps_inv store_of _ _ _ _ (sink_store _)) in Hsink.
  apply bind_ok_inv in Hrun as ([] & h3 & Hswim & Hrun).
  apply (keeps_inv store_of _ _ _ _ (swim_store _)) in Hswim.
  unfold ret in Hrun. injection Hrun as <- <-.
  unfold store_of in *. simpl in *.
  intuition (done || lia || congruence).
Qed.

Lemma decrease_inv ki value (h h' : heap T) :
  decrease compare ki value h = (Ok tt, h') →
  ∃ v old, value = Some v ∧ contains ki h = (Ok true, h) ∧ 0 ≤ ki < N h ∧
       values h !! ki = Some (Some old) ∧
       sz h' = sz h ∧ N h' = N h ∧
       values h' = if compare v old <? 0 then <[ki := Some v]> (values h)
                   else values h.
Proof.
  unfold decrease. intros Hrun.
  apply bind_ok_inv in Hrun as (v & ha & Hk & Hrun).
  apply keyExistsAndValueNotNullOrThrow_inv in Hk as (Heq & -> & Hc & Hin).
  subst ha. exists v.
  apply bind_ok_inv in Hrun as (old & hb & Ho & Hrun).
  apply read_value_inv in Ho as [Ho Heq]. subst hb. exists old.
  unfold lessValue in Hrun. destruct (compare v old <? 0).
  - apply bind_ok_inv in Hrun as ([] & hd & Hw & Hrun).
    unfold write_values, modify in Hw. injection Hw as <-.
    apply bind_ok_inv in Hrun as (i & hc & Hi & Hrun).
    apply (read_inv (λ h, pm h !! ki)) in Hi as [Hi Heq]. subst hc.
    apply (keeps_inv store_of _ _ _ _ (swim_store _)) in Hrun.
    unfold store_of in *. simpl in *. intuition (done || lia || congruence).
  - unfold ret in Hrun. by injection Hrun as <-.
Qed.

Lemma increase_inv ki value (h h' : heap T) :
  increase compare ki value h = (Ok tt, h') →
  ∃ v old, value = Some v ∧ contains ki h = (Ok true, h) ∧ 0 ≤ ki < N h ∧
       values h !! ki = Some (Some old) ∧
       sz h' = sz h ∧ N h' = N h ∧
       values h' = if compare old v <? 0 then <[ki := Some v]> (values h)
                   else values h.
Proof.
  unfold increase. intros Hrun.
  apply bind_ok_inv in Hrun as (v & ha & Hk & Hrun).
  apply keyExistsAndValueNotNullOrThrow_inv in Hk as (Heq & -> & Hc & Hin).
  subst ha. exists v.
  apply bind_ok_inv in Hrun as (old & hb & Ho & Hrun).
  apply read_value_inv in Ho as [Ho Heq]. subst hb. exists old.
  unfold lessValue in Hrun. destruct (compare old v <? 0).
  - apply bind_ok_inv in Hrun as ([] & hd & Hw & Hrun).
    unfold write_values, modify in Hw. injection Hw as <-.
    apply bind_ok_inv in Hrun as (i & hc & Hi & Hrun).
    apply (read_inv (λ h, pm h !! ki)) in Hi as [Hi Heq]. subst hc.
    apply (keeps_inv store_of _ _ _ _ (sink_store _)) in Hrun.
    unfold store_of in *. simpl in *. intuition (done || lia || congruence).
  - unfold ret in Hrun. by injection Hrun as <-.
Qed.

Lemma isNotEmptyOrThrow_inv (h h' : heap T) :
  isNotEmptyOrThrow h = (Ok tt, h') → h' = h ∧ sz h ≠ 0.
Proof.
  unfold isNotEmptyOrThrow, isEmpty, bind, gets.
  destruct (sz h =? 0) eqn:E; [done|]. apply Z.eqb_neq in E.
  unfold ret. by intros [= <-].
Qed.

Lemma peekMinKeyIndex_inv (h h' : heap T) o :
  peekMinKeyIndex h = (Ok o, h') → h' = h ∧ sz h ≠ 0 ∧ o = im h !! 0.
Proof.
  unfold peekMinKeyIndex. intros Hrun.
  apply bind_ok_inv in Hrun as ([] & ha & He & Hrun).
  apply isNotEmptyOrThrow_inv in He as [-> Hsz].
  unfold read_im, gets in Hrun. by injection Hrun as <- <-.
Qed.

Lemma peekMinValue_inv (h h' : heap T) v :
  peekMinValue h = (Ok v, h') →
  h' = h ∧ sz h ≠ 0 ∧ ∃ k, im h !! 0 = Some k ∧ values h !! k = Some (Some v).
Proof.
  unfold peekMinValue. intros Hrun.
  apply bind_ok_inv in Hrun as ([] & ha & He & Hrun).
  apply isNotEmptyOrThrow_inv in He as [-> Hsz].
  apply bind_ok_inv in Hrun as (k & hb & Hk & Hrun).
  apply (read_inv (λ h, im h !! 0)) in Hk as [Hk ->].
  apply read_value_inv in Hrun as [Hv ->]. eauto.
Qed.

Lemma pollMinKeyIndex_inv (h h' : heap T) k :
  pollMinKeyIndex compare h = (Ok k, h') →
  peekMinKeyIndex h = (Ok (Some k), h) ∧
  ∃ old, delete compare k h = (Ok old, h').
Proof.
  unfold pollMinKeyIndex. intros Hrun.
  apply bind_ok_inv in Hrun as (minKi & ha & Hp & Hrun).
  apply bind_ok_inv in Hp as (o & hb & Hp & Ha).
  pose proof Hp as Hp'. apply peekMinKeyIndex_inv in Hp' as (-> & _ & _).
  destruct o as [k'|]; [|done]. unfold assert_some, ret in Ha.
  injection Ha as <- <-.
  apply bind_ok_inv in Hrun as (old & hc & Hd & Hrun).
  unfold ret in Hrun. injection Hrun as <- <-. eauto.
Qed.

Lemma pollMinValue_inv (h h' : heap T) v :
  pollMinValue compare h = (Ok v, h') →
  peekMinValue h = (Ok v, h) ∧
  ∃ k old, peekMinKeyIndex h = (Ok (Some k), h) ∧
           delete compare k h = (Ok old, h').
Proof.
  unfold pollMinValue. intros Hrun.
  apply bind_ok_inv in Hrun as (minValue & ha & Hv & Hrun).
  pose proof Hv as Hv'. apply peekMinValue_inv in Hv' as (-> & _ & _).
  apply bind_ok_inv in Hrun as (k & hb & Hp & Hrun).
  apply bind_ok_inv in Hp as (o & hc & Hp & Ha).
  pose proof Hp as Hp'. apply peekMinKeyIndex_inv in Hp' as (-> & _ & _).
  destruct o as [k'|]; [|done]. unfold assert_some, ret in Ha.
  injection Ha as <- <-.
  apply bind_ok_inv in Hrun as (old & hd & Hd & Hrun).
  unfold ret in Hrun. injection Hrun as <- <-. eauto.
Qed.

Lemma valueOf_inv ki (h h' : heap T) v :
  valueOf ki h = (Ok v, h') →
  h' = h ∧ contains ki h = (Ok true, h) ∧ 0 ≤ ki < N h ∧
  values h !! ki = Some (Some v).
Proof.
  unfold valueOf. intros Hrun.
  apply bind_ok_inv in Hrun as ([] & ha & Hk & Hrun).
  apply keyExistsOrThrow_inv in Hk as (-> & Hc & Hin).
  by apply read_value_inv in Hrun as [Hv ->].
Qed.

End Store.

Section Lookups.

Context {T : Type}.
Variable compare : T → T → Z.
Hypothesis Hcmp : consistent compare.

(** ** Queries come back with the state they were asked on *)

Lemma contains_pair ki (h : heap T) : contains ki h = (fst (contains ki h), h).
Proof.
  pose proof (contains_keeps ki h) as Hk. simpl in Hk.
  destruct (contains ki h) as [r h1]. simpl in *. by subst.
Qed.

Lemma valueOf_keeps ki : keeps (T:=T) id (valueOf ki).
Proof.
  unfold valueOf. apply keeps_bind; [apply keyExistsOrThrow_keeps|intros _].
  apply keeps_bind; [by intros ?|intros o]. apply assert_value_keeps.
Qed.

Lemma valueOf_pair ki (h : heap T) : valueOf ki h = (fst (valueOf ki h), h).
Proof.
  pose proof (valueOf_keeps ki h) as Hk. simpl in Hk.
  destruct (valueOf ki h) as [r h1]. simpl in *. by subst.
Qed.

(** ** On a well-formed object the values tell which keys are present *)

Lemma contains_fst (h : heap T) k :
  wf compare h →
  fst (contains k h) =
    if decide (0 ≤ k < N h)
    then Ok (match values h !! k with Some (Some _) => true | _ => false end)
    else Raise KeyOutOfBounds.
Proof.
  intros Hwf. destruct (decide (0 ≤ k < N h)) as [Hin|Hout].
  2:{ by rewrite contains_out. }
  destruct (contains_cases _ h k (wf_bij _ _ Hwf))
    as [[? _]|[(_ & Hp & ->)|(_ & -> & s & v & _ & _ & _ & ->)]]; [done| |done].
  by rewrite (bij_unset _ _ (wf_bij _ _ Hwf) k Hin Hp).
Qed.

Lemma valueOf_fst (h : heap T) k :
  wf compare h →
  fst (valueOf k h) =
    if decide (0 ≤ k < N h)
    then match values h !! k with
         | Some (Some v) => Ok v
         | _ => Raise UnknownKey
         end
    else Raise KeyOutOfBounds.
Proof.
  intros Hwf. unfold valueOf, keyExistsOrThrow. unfold bind at 1 2.
  rewrite contains_pair, contains_fst by done.
  destruct (decide (0 ≤ k < N h)) as [Hin|Hout]; [|done].
  destruct (values h !! k) as [[v|]|] eqn:Hv; simpl; try done.
  unfold bind, read_values, gets, assert_value. by rewrite Hv.
Qed.

Lemma same_answers (h h' : heap T) k :
  wf compare h → wf compare h' → N h' = N h →
  values h' !! k = values h !! k →
  fst (contains k h') = fst (contains k h) ∧
  fst (valueOf k h') = fst (valueOf k h).
Proof.
  intros Hwf Hwf' HN Hv.
  by rewrite !contains_fst, !valueOf_fst, HN, Hv.
Qed.

Lemma valueOf_present (h : heap T) k v :
  wf compare h → 0 ≤ k < N h → values h !! k = Some (Some v) →
  valueOf k h = (Ok v, h) ∧ contains k h = (Ok true, h).
Proof.
  intros Hwf Hin Hv.
  rewrite valueOf_pair, contains_pair, valueOf_fst, contains_fst by done.
  rewrite !decide_True by done. by rewrite Hv.
Qed.

Lemma valueOf_absent (h : heap T) k :
  wf compare h → 0 ≤ k < N h → values h !! k = Some None →
  valueOf k h = (Raise UnknownKey, h) ∧ contains k h = (Ok false, h).
Proof.
  intros Hwf Hin Hv.
  rewrite valueOf_pair, contains_pair, valueOf_fst, contains_fst by done.
  rewrite !decide_True by done. by rewrite Hv.
Qed.

(** What [contains] reporting a key says about the arrays. *)
Lemma contains_true_slot (h : heap T) k :
  wf compare h → contains k h = (Ok true, h) →
  0 ≤ k < N h ∧
  ∃ s v, pm h !! k = Some s ∧ 0 ≤ s < sz h ∧ im h !! s = Some k ∧
         values h !! k = Some (Some v) ∧ val_at h s = Some v.
Proof.
  intros Hwf Hc.
  destruct (contains_cases _ h k (wf_bij _ _ Hwf))
    as [[_ Hc']|[(_ & _ & Hc')|(Hin & _ & s & v & Hp & Hs & Him & Hv)]];
    [congruence..|].
  split; [done|]. exists s, v. repeat split; try done; try lia.
  unfold val_at. by rewrite Him, Hv.
Qed.

Lemma settles_ok {A} (m : M T A) (h h' : heap T) a :
  settles compare m h → m h = (Ok a, h') → wf compare h'.
Proof.
  intros [[e He]|(a' & h'' & Ha & Hwf)] Hm; rewrite Hm in *; by simplify_eq.
Qed.

(** ** The root holds a least value *)

Lemma root_le (h : heap T) s :
  wf compare h → 0 ≤ s < sz h → slot_le compare h 0 s.
Proof.
  intros [Ht Hb Hord]. pose proof (topo_D _ Ht) as HD.
  induction s as [s IH] using (well_founded_induction (Z.lt_wf 0)).
  intros Hs. destruct (decide (s = 0)) as [->|Hne].
  { by apply (slot_le_refl _ Hcmp (sz h)). }
  pose proof (parent_lt (D h) s HD ltac:(lia)) as Hp.
  eapply (slot_le_trans _ Hcmp); [apply (IH ((s - 1) / D h)); lia|].
  apply Hord. lia.
Qed.

Lemma root_is_least (h : heap T) v k w :
  wf compare h → peekMinValue h = (Ok v, h) → valueOf k h = (Ok w, h) →
  compare v w ≤ 0.
Proof.
  intros Hwf Hpeek Hval.
  apply peekMinValue_inv in Hpeek as (_ & Hsz & k0 & Hk0 & Hv0).
  apply valueOf_inv in Hval as (_ & Hc & _ & Hw).
  destruct (contains_true_slot h k Hwf Hc) as (_ & s & w' & _ & Hs & _ & Hw' & Hval).
  simplify_eq. pose proof (root_le h s Hwf Hs) as Hle.
  unfold slot_le in Hle. rewrite Hval in Hle.
  unfold val_at in Hle. by rewrite Hk0, Hv0 in Hle.
Qed.

End Lookups.

Section Changes.

Context {T : Type}.
Variable compare : T → T → Z.
Hypothesis Hcmp : consistent compare.

Lemma contains_false_inv (h : heap T) ki :
  contains ki h = (Ok false, h) → 0 ≤ ki < N h ∧ pm h !! ki = Some (-1).
Proof.
  intros Hc. apply contains_inv in Hc as [_ [[? _]|[Hr Hin]]]; [done|].
  split; [done|]. injection Hr as Hr.
  destruct (decide (pm h !! ki = Some (-1))) as [|Hne]; [done|].
  by rewrite bool_decide_eq_false_2 in Hr.
Qed.

(** After a write of the value store at [ki], the other keys answer as
    before. *)
Lemma others_same (h h' : heap T) ki x :
  wf compare h → wf compare h' → N h' = N h →
  values h' = <[ki := x]> (values h) →
  ∀ k, k ≠ ki →
    fst (contains k h') = fst (contains k h) ∧
    fst (valueOf k h') = fst (valueOf k h).
Proof.
  intros Hwf Hwf' HN Hv k Hk. apply (same_answers compare); try done.
  rewrite Hv. by rewrite lookup_insert_ne.
Qed.

Lemma all_same (h h' : heap T) :
  wf compare h → wf compare h' → N h' = N h → values h' = values h →
  ∀ k, fst (contains k h') = fst (contains k h) ∧
       fst (valueOf k h') = fst (valueOf k h).
Proof.
  intros Hwf Hwf' HN Hv k. apply (same_answers compare); try done.
  by rewrite Hv.
Qed.

End Changes.

(** X1.  On a reachable heap, [insert] of a key that [contains] reports absent,
    with a value that is not [null], returns; afterwards [size] is one more,
    [contains] and [valueOf] report the key with that value, and every other
    key answers [contains] and [valueOf] as before. *)
Theorem insert_adds_key {T} (compare : T → T → Z) (h : heap T) ki v :
  consistent compare → reachable compare h →
  contains ki h = (Ok false, h) →
  ∃ h', insert compare ki (Some v) h = (Ok tt, h') ∧
        size h' = (Ok (sz h + 1), h') ∧
        contains ki h' = (Ok true, h') ∧ valueOf ki h' = (Ok v, h') ∧
        ∀ k, k ≠ ki → fst (contains k h') = fst (contains k h) ∧
                      fst (valueOf k h') = fst (valueOf k h).
Proof.
  intros Hcmp Hr Hc. pose proof (reachable_wf _ Hcmp h Hr) as Hwf.
  destruct (contains_false_inv h ki Hc) as [Hin Hp].
  destruct (insert_ok _ Hcmp h ki v Hwf Hin Hp) as (h' & Hrun & Hwf' & Hsz).
  destruct (insert_inv _ _ _ _ _ Hrun) as (v' & [= <-] & _ & _ & _ & HN & Hv).
  exists h'. split; [done|]. split; [by unfold size, gets; rewrite Hsz|].
  destruct (valueOf_present compare h' ki v Hwf') as [Hval Hcon].
  { by rewrite HN. } { by rewrite Hv, lookup_insert_eq. }
  split; [done|]. split; [done|].
  by apply (others_same compare h h' ki (Some v)).
Qed.

Lemma insert_adds_key_witness :
  ∃ h', insert zcmp 3 (Some 10) sample = (Ok tt, h') ∧
        size h' = (Ok (sz sample + 1), h') ∧
        contains 3 h' = (Ok true, h') ∧ valueOf 3 h' = (Ok 10, h') ∧
        ∀ k, k ≠ 3 → fst (contains k h') = fst (contains k sample) ∧
                     fst (valueOf k h') = fst (valueOf k sample).
Proof.
  apply (insert_adds_key zcmp sample 3 10 zcmp_consistent sample_reachable).
  vm_compute. reflexivity.
Defined.

(** X2.  On a reachable heap, [delete] of a key that [contains] reports
    present returns the value [valueOf] reports for it; afterwards [size] is
    one less, [contains] reports the key absent, [valueOf] throws for it, and
    every other key answers as before. *)
Theorem delete_removes_key {T} (compare : T → T → Z) (h : heap T) ki :
  consistent compare → reachable compare h →
  contains ki h = (Ok true, h) →
  ∃ old h', delete compare ki h = (Ok old, h') ∧
        valueOf ki h = (Ok old, h) ∧
        size h' = (Ok (sz h - 1), h') ∧
        contains ki h' = (Ok false, h') ∧
        valueOf ki h' = (Raise UnknownKey, h') ∧
        ∀ k, k ≠ ki → fst (contains k h') = fst (contains k h) ∧
                      fst (valueOf k h') = fst (valueOf k h).
Proof.
  intros Hcmp Hr Hc. pose proof (reachable_wf _ Hcmp h Hr) as Hwf.
  destruct (contains_true_slot compare h ki Hwf Hc)
    as (Hin & s & old & Hp & Hs & _ & Hold & _).
  destruct (delete_ok _ Hcmp h ki s old Hwf Hin Hp Hs Hold)
    as (h' & Hrun & Hwf' & Hsz).
  destruct (delete_inv _ _ _ _ _ Hrun) as (_ & _ & _ & _ & HN & Hv).
  exists old, h'. split; [done|].
  split; [by apply (valueOf_present compare)|].
  split; [by unfold size, gets; rewrite Hsz|].
  destruct (valueOf_absent compare h' ki Hwf') as [Hval Hcon].
  { by rewrite HN. } { by rewrite Hv, lookup_insert_eq. }
  split; [done|]. split; [done|].
  by apply (others_same compare h h' ki None).
Qed.

Lemma delete_removes_key_witness :
  ∃ old h', delete zcmp 1 sample = (Ok old, h') ∧
        valueOf 1 sample = (Ok old, sample) ∧
        size h' = (Ok (sz sample - 1), h') ∧
        contains 1 h' = (Ok false, h') ∧
        valueOf 1 h' = (Raise UnknownKey, h') ∧
        ∀ k, k ≠ 1 → fst (contains k h') = fst (contains k sample) ∧
                     fst (valueOf k h') = fst (valueOf k sample).
Proof.
  apply (delete_removes_key zcmp sample 1 zcmp_consistent sample_reachable).
  vm_compute. reflexivity.
Defined.

(** X3.  On a reachable heap, [update] of a present key with a value that is
    not [null] returns the value stored before; afterwards [valueOf] reports
    the new value, [size] is unchanged and every other key answers as
    before. *)
Theorem update_replaces_value {T} (compare : T → T → Z) (h : heap T) ki v :
  consistent compare → reachable compare h →
  contains ki h = (Ok true, h) →
  ∃ old h', update compare ki (Some v) h = (Ok old, h') ∧
        valueOf ki h = (Ok old, h) ∧
        valueOf ki h' = (Ok v, h') ∧ contains ki h' = (Ok true, h') ∧
        size h' = (Ok (sz h), h') ∧
        ∀ k, k ≠ ki → fst (contains k h') = fst (contains k h) ∧
                      fst (valueOf k h') = fst (valueOf k h).
Proof.
  intros Hcmp Hr Hc. pose proof (reachable_wf _ Hcmp h Hr) as Hwf.
  destruct (contains_true_slot compare h ki Hwf Hc)
    as (Hin & s & old & Hp & Hs & _ & Hold & _).
  destruct (update_ok _ Hcmp h ki v s old Hwf Hin Hp Hs Hold)
    as (h' & Hrun & Hwf').
  destruct (update_inv _ _ _ _ _ _ Hrun)
    as (v' & [= <-] & _ & _ & _ & Hsz & HN & Hv).
  exists old, h'. split; [done|].
  split; [by apply (valueOf_present compare)|].
  destruct (valueOf_present compare h' ki v Hwf') as [Hval Hcon].
  { by rewrite HN. } { by rewrite Hv, lookup_insert_eq. }
  split; [done|]. split; [done|].
  split; [by unfold size, gets; rewrite Hsz|].
  by apply (others_same compare h h' ki (Some v)).
Qed.

Lemma update_replaces_value_witness :
  ∃ old h', update zcmp 0 (Some 10) sample = (Ok old, h') ∧
        valueOf 0 sample = (Ok old, sample) ∧
        valueOf 0 h' = (Ok 10, h') ∧ contains 0 h' = (Ok true, h') ∧
        size h' = (Ok (sz sample), h') ∧
        ∀ k, k ≠ 0 → fst (contains k h') = fst (contains k sample) ∧
                     fst (valueOf k h') = fst (valueOf k sample).
Proof.
  apply (update_replaces_value zcmp sample 0 10 zcmp_consistent
           sample_reachable).
  vm_compute. reflexivity.
Defined.

(** X4.  On a reachable heap, [decrease] of a present key with a value that is
    not [null] returns; afterwards the key holds the new value if it compares
    less than the old one and the old value otherwise; [size] and the other
    keys are as before. *)
Theorem decrease_keeps_lesser {T} (compare : T → T → Z) (h : heap T) ki v :
  consistent compare → reachable compare h →
  contains ki h = (Ok true, h) →
  ∃ old h', valueOf ki h = (Ok old, h) ∧
        decrease compare ki (Some v) h = (Ok tt, h') ∧
        valueOf ki h' = (Ok (if compare v old <? 0 then v else old), h') ∧
        size h' = (Ok (sz h), h') ∧
        ∀ k, k ≠ ki → fst (contains k h') = fst (contains k h) ∧
                      fst (valueOf k h') = fst (valueOf k h).
Proof.
  intros Hcmp Hr Hc. pose proof (reachable_wf _ Hcmp h Hr) as Hwf.
  destruct (contains_true_slot compare h ki Hwf Hc)
    as (Hin & s & old & Hp & Hs & _ & Hold & _).
  destruct (decrease_ok _ Hcmp h ki v s old Hwf Hin Hp Hs Hold)
    as (h' & Hrun & Hwf').
  destruct (decrease_inv _ _ _ _ _ Hrun)
    as (v' & old' & [= <-] & _ & _ & Hold' & Hsz & HN & Hv).
  rewrite Hold in Hold'. injection Hold' as <-.
  exists old, h'. split; [by apply (valueOf_present compare)|].
  split; [done|].
  assert (values h' !! ki = Some (Some (if compare v old <? 0 then v else old)))
    as Hnew.
  { rewrite Hv. destruct (compare v old <? 0); [by rewrite lookup_insert_eq|done]. }
  split; [apply (valueOf_present compare); [done|by rewrite HN|done]|].
  split; [by unfold size, gets; rewrite Hsz|].
  intros k Hk. apply (same_answers compare); try done.
  rewrite Hv. destruct (compare v old <? 0); [by rewrite lookup_insert_ne|done].
Qed.

Lemma decrease_keeps_lesser_witness :
  ∃ old h', valueOf 2 sample = (Ok old, sample) ∧
        decrease zcmp 2 (Some 10) sample = (Ok tt, h') ∧
        valueOf 2 h' = (Ok (if zcmp 10 old <? 0 then 10 else old), h') ∧
        size h' = (Ok (sz sample), h') ∧
        ∀ k, k ≠ 2 → fst (contains k h') = fst (contains k sample) ∧
                     fst (valueOf k h') = fst (valueOf k sample).
Proof.
  apply (decrease_keeps_lesser zcmp sample 2 10 zcmp_consistent
           sample_reachable).
  vm_compute. reflexivity.
Defined.

(** X5.  On a reachable heap, [increase] of a present key with a value that is
    not [null] returns; afterwards the key holds the new value if the old one
    compares less than it and the old value otherwise; [size] and the other
    keys are as before. *)
Theorem increase_keeps_greater {T} (compare : T → T → Z) (h : heap T) ki v :
  consistent compare → reachable compare h →
  contains ki h = (Ok true, h) →
  ∃ old h', valueOf ki h = (Ok old, h) ∧
        increase compare ki (Some v) h = (Ok tt, h') ∧
        valueOf ki h' = (Ok (if compare old v <? 0 then v else old), h') ∧
        size h' = (Ok (sz h), h') ∧
        ∀ k, k ≠ ki → fst (contains k h') = fst (contains k h) ∧
                      fst (valueOf k h') = fst (valueOf k h).
Proof.
  intros Hcmp Hr Hc. pose proof (reachable_wf _ Hcmp h Hr) as Hwf.
  destruct (contains_true_slot compare h ki Hwf Hc)
    as (Hin & s & old & Hp & Hs & _ & Hold & _).
  destruct (increase_ok _ Hcmp h ki v s old Hwf Hin Hp Hs Hold)
    as (h' & Hrun & Hwf').
  destruct (increase_inv _ _ _ _ _ Hrun)
    as (v' & old' & [= <-] & _ & _ & Hold' & Hsz & HN & Hv).
  rewrite Hold in Hold'. injection Hold' as <-.
  exists old, h'. split; [by apply (valueOf_present compare)|].
  split; [done|].
  assert (values h' !! ki = Some (Some (if compare old v <? 0 then v else old)))
    as Hnew.
  { rewrite Hv. destruct (compare old v <? 0); [by rewrite lookup_insert_eq|done]. }
  split; [apply (valueOf_present compare); [done|by rewrite HN|done]|].
  split; [by unfold size, gets; rewrite Hsz|].
  intros k Hk. apply (same_answers compare); try done.
  rewrite Hv. destruct (compare old v <? 0); [by rewrite lookup_insert_ne|done].
Qed.

Lemma increase_keeps_greater_witness :
  ∃ old h', valueOf 1 sample = (Ok old, sample) ∧
        increase zcmp 1 (Some 60) sample = (Ok tt, h') ∧
        valueOf 1 h' = (Ok (if zcmp old 60 <? 0 then 60 else old), h') ∧
        size h' = (Ok (sz sample), h') ∧
        ∀ k, k ≠ 1 → fst (contains k h') = fst (contains k sample) ∧
                     fst (valueOf k h') = fst (valueOf k sample).
Proof.
  apply (increase_keeps_greater zcmp sample 1 60 zcmp_consistent
           sample_reachable).
  vm_compute. reflexivity.
Defined.

(** X6.  Errors of the arguments, on any state and for any comparator; the
    state is left as it was.  A key outside [0, N) makes every keyed call
    throw [KeyOutOfBounds], whatever the value.  A key that [contains] reports
    absent makes [valueOf], [delete], [update], [increase] and [decrease]
    throw [UnknownKey], even with a [null] value, and [insert] of [null]
    throw [NullValue].  For a key that [contains] reports present, [update],
    [increase] and [decrease] of [null] throw [NullValue]. *)
Theorem argument_errors {T} (compare : T → T → Z) (h : heap T) ki value :
  (¬ 0 ≤ ki < N h →
     contains ki h = (Raise KeyOutOfBounds, h) ∧
     insert compare ki value h = (Raise KeyOutOfBounds, h) ∧
     valueOf ki h = (Raise KeyOutOfBounds, h) ∧
     delete compare ki h = (Raise KeyOutOfBounds, h) ∧
     update compare ki value h = (Raise KeyOutOfBounds, h) ∧
     increase compare ki value h = (Raise KeyOutOfBounds, h) ∧
     decrease compare ki value h = (Raise KeyOutOfBounds, h)) ∧
  (contains ki h = (Ok false, h) →
     valueOf ki h = (Raise UnknownKey, h) ∧
     delete compare ki h = (Raise UnknownKey, h) ∧
     update compare ki value h = (Raise UnknownKey, h) ∧
     increase compare ki value h = (Raise UnknownKey, h) ∧
     decrease compare ki value h = (Raise UnknownKey, h) ∧
     insert compare ki None h = (Raise NullValue, h)) ∧
  (contains ki h = (Ok true, h) →
     update compare ki None h = (Raise NullValue, h) ∧
     increase compare ki None h = (Raise NullValue, h) ∧
     decrease compare ki None h = (Raise NullValue, h)).
Proof.
  split; [|split].
  - intros Hout. pose proof (contains_out h ki Hout) as Hc.
    unfold insert, valueOf, delete, update, increase, decrease,
      keyExistsAndValueNotNullOrThrow, keyExistsOrThrow, bind.
    by rewrite Hc.
  - intros Hc.
    unfold insert, valueOf, delete, update, increase, decrease,
      keyExistsAndValueNotNullOrThrow, keyExistsOrThrow, bind.
    by rewrite Hc.
  - intros Hc.
    unfold update, increase, decrease,
      keyExistsAndValueNotNullOrThrow, keyExistsOrThrow, bind.
    by rewrite Hc.
Qed.

Lemma argument_errors_witness :
  (contains 10 sample = (Raise KeyOutOfBounds, sample) ∧
   insert zcmp (-1) None sample = (Raise KeyOutOfBounds, sample) ∧
   delete zcmp 10 sample = (Raise KeyOutOfBounds, sample)) ∧
  (valueOf 5 sample = (Raise UnknownKey, sample) ∧
   update zcmp 5 None sample = (Raise UnknownKey, sample) ∧
   insert zcmp 5 None sample = (Raise NullValue, sample)) ∧
  (update zcmp 1 None sample = (Raise NullValue, sample) ∧
   decrease zcmp 1 None sample = (Raise NullValue, sample)).
Proof.
  split; [|split].
  - destruct (argument_errors zcmp sample 10 None) as [Hout _].
    destruct (argument_errors zcmp sample (-1) None) as [Hneg _].
    destruct Hout as (H1 & _ & _ & H2 & _).
    { vm_compute. intros [_ Hlt]. discriminate. }
    destruct Hneg as (_ & H3 & _).
    { vm_compute. intros [Hle _]. by apply Hle. }
    exact (conj H1 (conj H3 H2)).
  - destruct (argument_errors zcmp sample 5 None) as (_ & Habs & _).
    destruct Habs as (H1 & _ & H2 & _ & _ & H3).
    { vm_compute. reflexivity. }
    exact (conj H1 (conj H2 H3)).
  - destruct (argument_errors zcmp sample 1 None) as (_ & _ & Hpre).
    destruct Hpre as (H1 & _ & H2).
    { vm_compute. reflexivity. }
    exact (conj H1 H2).
Defined.

Section Minimum.

Context {T : Type}.
Variable compare : T → T → Z.
Hypothesis Hcmp : consistent compare.

Lemma isEmpty_false_inv (h : heap T) : isEmpty h = (Ok false, h) → sz h ≠ 0.
Proof.
  unfold isEmpty, gets. intros [= Hz]. by apply Z.eqb_neq in Hz.
Qed.

(** The calls at the root of a heap that is not empty. *)
Lemma poll_ok (h : heap T) :
  wf compare h → sz h ≠ 0 →
  ∃ k v h',
    peekMinKeyIndex h = (Ok (Some k), h) ∧ peekMinValue h = (Ok v, h) ∧
    contains k h = (Ok true, h) ∧ valueOf k h = (Ok v, h) ∧
    delete compare k h = (Ok v, h') ∧
    pollMinKeyIndex compare h = (Ok k, h') ∧
    pollMinValue compare h = (Ok v, h') ∧ wf compare h'.
Proof.
  intros Hwf Hz.
  destruct (root_key compare h Hwf Hz) as (k & v & Hk & Hkr & Hp & Hv & Hpos).
  destruct (delete_ok _ Hcmp h k 0 v Hwf Hkr Hp ltac:(lia) Hv)
    as (h' & Hrun & Hwf' & _).
  destruct (valueOf_present compare h k v Hwf Hkr Hv) as [Hval Hcon].
  exists k, v, h'.
  split. { unfold peekMinKeyIndex, bind.
           rewrite isNotEmptyOrThrow_some by done. mrun. done. }
  split. { unfold peekMinValue. unfold bind at 1.
           rewrite isNotEmptyOrThrow_some by done. mrun. done. }
  split; [done|]. split; [done|]. split; [done|].
  split. { unfold pollMinKeyIndex, peekMinKeyIndex, bind.
           rewrite isNotEmptyOrThrow_some by done. mrun. by rewrite Hrun. }
  split; [|done].
  unfold pollMinValue, peekMinValue, peekMinKeyIndex, bind.
  rewrite isNotEmptyOrThrow_some by done. mrun.
  rewrite isNotEmptyOrThrow_some by done. mrun. by rewrite Hrun.
Qed.

End Minimum.

(** X7.  On a reachable heap that is not empty, [peekMinKeyIndex] returns a
    present key and [peekMinValue] its value, and that value is not greater,
    under the comparator, than the value of any present key. *)
Theorem peek_is_minimum {T} (compare : T → T → Z) (h : heap T) :
  consistent compare → reachable compare h →
  isEmpty h = (Ok false, h) →
  ∃ k v, peekMinKeyIndex h = (Ok (Some k), h) ∧
         peekMinValue h = (Ok v, h) ∧ valueOf k h = (Ok v, h) ∧
         ∀ k' w, valueOf k' h = (Ok w, h) → compare v w ≤ 0.
Proof.
  intros Hcmp Hr He. pose proof (reachable_wf _ Hcmp h Hr) as Hwf.
  apply isEmpty_false_inv in He.
  destruct (poll_ok _ Hcmp h Hwf He) as (k & v & _ & Hpk & Hpv & _ & Hval & _).
  exists k, v. split; [done|]. split; [done|]. split; [done|].
  intros k' w Hw. by apply (root_is_least _ Hcmp h v k' w).
Qed.

Lemma peek_is_minimum_witness :
  ∃ k v, peekMinKeyIndex sample = (Ok (Some k), sample) ∧
         peekMinValue sample = (Ok v, sample) ∧
         valueOf k sample = (Ok v, sample) ∧
         ∀ k' w, valueOf k' sample = (Ok w, sample) → zcmp v w ≤ 0.
Proof.
  apply (peek_is_minimum zcmp sample zcmp_consistent sample_reachable).
  vm_compute. reflexivity.
Defined.

(** X8.  On a reachable heap that is not empty, [pollMinKeyIndex] returns the
    key and [pollMinValue] the value that the peeks report, a least value;
    either call leaves the state that [delete] of that key leaves: the key is
    absent, [size] is one less and the other keys answer as before. *)
Theorem poll_removes_minimum {T} (compare : T → T → Z) (h : heap T) :
  consistent compare → reachable compare h →
  isEmpty h = (Ok false, h) →
  ∃ k v h',
    pollMinKeyIndex compare h = (Ok k, h') ∧
    pollMinValue compare h = (Ok v, h') ∧
    delete compare k h = (Ok v, h') ∧
    peekMinKeyIndex h = (Ok (Some k), h) ∧ peekMinValue h = (Ok v, h) ∧
    (∀ k' w, valueOf k' h = (Ok w, h) → compare v w ≤ 0) ∧
    contains k h' = (Ok false, h') ∧ size h' = (Ok (sz h - 1), h') ∧
    ∀ k', k' ≠ k → fst (contains k' h') = fst (contains k' h) ∧
                   fst (valueOf k' h') = fst (valueOf k' h).
Proof.
  intros Hcmp Hr He. pose proof (reachable_wf _ Hcmp h Hr) as Hwf.
  apply isEmpty_false_inv in He.
  destruct (poll_ok _ Hcmp h Hwf He)
    as (k & v & h' & Hpk & Hpv & Hc & Hval & Hdel & Hqk & Hqv & Hwf').
  destruct (delete_inv _ _ _ _ _ Hdel) as (_ & Hin & _ & Hsz & HN & Hv).
  exists k, v, h'. do 5 (split; [done|]).
  split; [intros k' w Hw; by apply (root_is_least _ Hcmp h v k' w)|].
  destruct (valueOf_absent compare h' k Hwf') as [_ Hcon].
  { by rewrite HN. } { by rewrite Hv, lookup_insert_eq. }
  split; [done|]. split; [by unfold size, gets; rewrite Hsz|].
  by apply (others_same compare h h' k None).
Qed.

Lemma poll_removes_minimum_witness :
  ∃ k v h',
    pollMinKeyIndex zcmp sample = (Ok k, h') ∧
    pollMinValue zcmp sample = (Ok v, h') ∧
    delete zcmp k sample = (Ok v, h') ∧
    peekMinKeyIndex sample = (Ok (Some k), sample) ∧
    peekMinValue sample = (Ok v, sample) ∧
    (∀ k' w, valueOf k' sample = (Ok w, sample) → zcmp v w ≤ 0) ∧
    contains k h' = (Ok false, h') ∧ size h' = (Ok (sz sample - 1), h') ∧
    ∀ k', k' ≠ k → fst (contains k' h') = fst (contains k' sample) ∧
                   fst (valueOf k' h') = fst (valueOf k' sample).
Proof.
  apply (poll_removes_minimum zcmp sample zcmp_consistent sample_reachable).
  vm_compute. reflexivity.
Defined.

Section Draining.

Context {T : Type}.
Variable compare : T → T → Z.
Hypothesis Hcmp : consistent compare.

Lemma pollMinValue_empty (h : heap T) :
  sz h = 0 → pollMinValue compare h = (Raise EmptyQueue, h).
Proof.
  intros Hz. unfold pollMinValue, peekMinValue. unfold bind at 1. unfold bind at 1.
  by rewrite isNotEmptyOrThrow_empty.
Qed.

(** A value a key holds after [delete] of another key is a value it held
    before. *)
Lemma valueOf_before_delete (h h' : heap T) k old k' w :
  wf compare h → delete compare k h = (Ok old, h') →
  valueOf k' h' = (Ok w, h') → valueOf k' h = (Ok w, h).
Proof.
  intros Hwf Hdel Hw.
  destruct (delete_inv _ _ _ _ _ Hdel) as (_ & _ & _ & _ & HN & Hv).
  apply valueOf_inv in Hw as (_ & _ & Hin & Hw). rewrite Hv, HN in *.
  destruct (decide (k' = k)) as [->|Hne].
  { by rewrite lookup_insert_eq in Hw. }
  rewrite lookup_insert_ne in Hw by done.
  by apply (valueOf_present compare).
Qed.

Lemma drain_spec (n : nat) (h : heap T) :
  wf compare h →
  let l := handed_back (run_ops compare (replicate n PollMinValue) h) in
  length l = (n `min` Z.to_nat (sz h))%nat ∧
  (∀ w, w ∈ l → ∃ k, valueOf k h = (Ok w, h)) ∧
  (∀ i j a b, (i < j)%nat → l !! i = Some a → l !! j = Some b →
              compare a b ≤ 0).
Proof.
  revert h. induction n as [|n IH]; intros h Hwf.
  { simpl. split; [done|]. split; [by intros w Hw%elem_of_nil|done]. }
  pose proof (bij_n _ _ (wf_bij _ _ Hwf)) as Hsz.
  cbn [replicate run_ops exec]. unfold fmapM, bind.
  destruct (decide (sz h = 0)) as [Hz|Hz].
  - rewrite (pollMinValue_empty h Hz). cbn [handed_back].
    destruct (IH h Hwf) as (Hlen & Hmem & Hsorted).
    split; [|done]. rewrite Hlen, Hz. lia.
  - destruct (poll_ok _ Hcmp h Hwf Hz)
      as (k & v & h' & _ & Hpv & _ & Hval & Hdel & _ & Hqv & Hwf').
    rewrite Hqv. unfold ret. cbn [handed_back].
    destruct (IH h' Hwf') as (Hlen & Hmem & Hsorted).
    destruct (delete_inv _ _ _ _ _ Hdel) as (_ & _ & _ & Hsz' & _ & _).
    assert (∀ w, w ∈ handed_back (run_ops compare (replicate n PollMinValue) h')
                 → ∃ k0, valueOf k0 h = (Ok w, h)) as Hmem'.
    { intros w Hw. destruct (Hmem w Hw) as [k0 Hk0]. exists k0.
      by apply (valueOf_before_delete h h' k v). }
    split; [|split].
    + cbn [length]. rewrite Hlen, Hsz'. lia.
    + intros w Hw. apply elem_of_cons in Hw as [->|Hw]; [by exists k|by apply Hmem'].
    + intros i j a b Hij Ha Hb. destruct j as [|j]; [lia|]. simpl in Hb.
      destruct i as [|i]; simpl in Ha.
      * injection Ha as <-. apply list_elem_of_lookup_2 in Hb.
        destruct (Hmem' b Hb) as [k0 Hk0].
        by apply (root_is_least _ Hcmp h v k0 b).
      * apply (Hsorted i j); [lia|done..].
Qed.

End Draining.

(** X9.  On a reachable heap, [n] calls of [pollMinValue] in a row hand back
    as many values as there are keys (or [n], if that is less), each a value
    some key held, in ascending order under the comparator. *)
Theorem polls_ascend {T} (compare : T → T → Z) (h : heap T) (n : nat) :
  consistent compare → reachable compare h →
  let l := handed_back (run_ops compare (replicate n PollMinValue) h) in
  length l = (n `min` Z.to_nat (sz h))%nat ∧
  (∀ w, w ∈ l → ∃ k, valueOf k h = (Ok w, h)) ∧
  (∀ i j a b, (i < j)%nat → l !! i = Some a → l !! j = Some b →
              compare a b ≤ 0).
Proof.
  intros Hcmp Hr. apply (drain_spec _ Hcmp). by apply reachable_wf.
Qed.

Lemma polls_ascend_witness :
  let l := handed_back (run_ops zcmp (replicate 5 PollMinValue) sample) in
  length l = (5 `min` Z.to_nat (sz sample))%nat ∧
  (∀ w, w ∈ l → ∃ k, valueOf k sample = (Ok w, sample)) ∧
  (∀ i j a b, (i < j)%nat → l !! i = Some a → l !! j = Some b →
              zcmp a b ≤ 0).
Proof.
  exact (polls_ascend zcmp sample 5 zcmp_consistent sample_reachable).
Defined.

(** X10.  A heap the constructor returns is empty: [size] is 0, [isEmpty]
    holds, no key of [0, N) is contained, the four calls at the root throw
    [EmptyQueue] and leave the state, and [isMinHeap] holds. *)
Theorem new_heap_is_empty {T} (compare : T → T → Z) degree maxSize (h : heap T) :
  MinIndexedDHeap degree maxSize = Ok h →
  size h = (Ok 0, h) ∧ isEmpty h = (Ok true, h) ∧
  (∀ k, 0 ≤ k < N h → contains k h = (Ok false, h) ∧
                      valueOf k h = (Raise UnknownKey, h)) ∧
  peekMinKeyIndex h = (Raise EmptyQueue, h) ∧
  peekMinValue h = (Raise EmptyQueue, h) ∧
  pollMinKeyIndex compare h = (Raise EmptyQueue, h) ∧
  pollMinValue compare h = (Raise EmptyQueue, h) ∧
  isMinHeap compare h = (Ok true, h).
Proof.
  intros Hnew.
  destruct (MinIndexedDHeap_wf compare degree maxSize h Hnew) as [Hwf Hz].
  pose proof (wf_topo _ _ Hwf) as Ht. pose proof (wf_bij _ _ Hwf) as Hb.
  pose proof (topo_D _ Ht) as HD. pose proof (topo_N _ Ht) as HN.
  pose proof (isNotEmptyOrThrow_empty h Hz) as He.
  split; [by unfold size, gets; rewrite Hz|].
  split; [by unfold isEmpty, gets; rewrite Hz|].
  split.
  { intros k Hk. destruct (bij_pm _ _ Hb k Hk) as (s & Hs & [->|[Hsr _]]); [|lia].
    pose proof (contains_inactive h k Hk Hs) as Hc. split; [done|].
    unfold valueOf, keyExistsOrThrow, bind. by rewrite Hc. }
  split; [by unfold peekMinKeyIndex, bind; rewrite He|].
  split; [by unfold peekMinValue; unfold bind at 1; rewrite He|].
  split; [by unfold pollMinKeyIndex, peekMinKeyIndex, bind; rewrite He|].
  split; [by apply pollMinValue_empty|].
  pose proof (topo_child _ Ht 0 ltac:(lia)) as Hch.
  unfold isMinHeap. mred. rewrite Hz. cbn [Z.to_nat isMinHeapAt]. mrun.
  rewrite Hz. rewrite seqZ_nil by lia. done.
Qed.

Lemma new_heap_is_empty_witness :
  size (fresh 3 10) = (Ok 0, fresh 3 10) ∧
  isEmpty (fresh 3 10) = (Ok true, fresh 3 10) ∧
  (∀ k, 0 ≤ k < N (fresh 3 10) →
        contains k (fresh 3 10) = (Ok false, fresh 3 10) ∧
        valueOf k (fresh 3 10) = (Raise UnknownKey, fresh 3 10)) ∧
  peekMinKeyIndex (fresh 3 10) = (Raise EmptyQueue, fresh 3 10) ∧
  peekMinValue (fresh 3 10) = (Raise EmptyQueue, fresh 3 10) ∧
  pollMinKeyIndex zcmp (fresh 3 10) = (Raise EmptyQueue, fresh 3 10) ∧
  pollMinValue zcmp (fresh 3 10) = (Raise EmptyQueue, fresh 3 10) ∧
  isMinHeap zcmp (fresh 3 10) = (Ok true, fresh 3 10).
Proof.
  apply (new_heap_is_empty zcmp 3 10 (fresh 3 10)).
  vm_compute. reflexivity.
Defined.

Section Counting.

Context {T : Type}.
Variable compare : T → T → Z.

Lemma active_keys_length (h : heap T) :
  wf compare h → sz h = Z.of_nat (length (active_keys h)).
Proof.
  intros Hwf. pose proof (wf_bij _ _ Hwf) as Hb.
  pose proof (bij_n _ _ Hb) as Hn.
  set (f := λ s, default 0 (im h !! s)).
  assert (∀ s, 0 ≤ s < sz h → 0 ≤ f s < N h ∧ pm h !! (f s) = Some s ∧
                               im h !! s = Some (f s)) as Hf.
  { intros s Hs. destruct (bij_im _ _ Hb s Hs) as (k & Hk & Hr & Hp).
    unfold f. rewrite Hk. done. }
  assert (NoDup (f <$> seqZ 0 (sz h))) as Hnd.
  { apply NoDup_fmap_2_strong; [|apply NoDup_seqZ].
    intros x y Hx Hy Hxy. apply elem_of_seqZ in Hx, Hy.
    destruct (Hf x ltac:(lia)) as (_ & Hpx & _).
    destruct (Hf y ltac:(lia)) as (_ & Hpy & _).
    rewrite Hxy in Hpx. congruence. }
  assert (NoDup (active_keys h)) as Hnd'.
  { unfold active_keys. apply NoDup_filter, NoDup_seqZ. }
  assert (f <$> seqZ 0 (sz h) ≡ₚ active_keys h) as Hperm.
  { apply NoDup_Permutation; [done..|]. intros k. unfold active_keys.
    rewrite list_elem_of_filter, list_elem_of_fmap, elem_of_seqZ. split.
    - intros (s & -> & Hs). apply elem_of_seqZ in Hs.
      destruct (Hf s ltac:(lia)) as (Hr & Hp & _).
      split; [|lia]. by rewrite (contains_active h (f s) s) by (done || lia).
    - intros [Hc Hk].
      destruct (contains_cases _ h k Hb)
        as [[_ Hc']|[(_ & _ & Hc')|(_ & _ & s & v & Hp & Hs & Him & _)]];
        [by rewrite Hc' in Hc..|].
      exists s. split; [unfold f; by rewrite Him|apply elem_of_seqZ; lia]. }
  apply Permutation_length in Hperm.
  rewrite length_fmap, length_seqZ in Hperm. lia.
Qed.

End Counting.

(** X11.  On a reachable heap, [size] returns the number of keys of [0, N)
    for which [contains] answers [true]. *)
Theorem size_counts_keys {T} (compare : T → T → Z) (h : heap T) :
  consistent compare → reachable compare h →
  size h = (Ok (Z.of_nat (length (active_keys h))), h).
Proof.
  intros Hcmp Hr. unfold size, gets.
  by rewrite <- (active_keys_length compare h (reachable_wf _ Hcmp h Hr)).
Qed.

Lemma size_counts_keys_witness :
  size sample = (Ok (Z.of_nat (length (active_keys sample))), sample).
Proof.
  exact (size_counts_keys zcmp sample zcmp_consistent sample_reachable).
Defined.

(** X13.  The queries leave the object as it is, on any state and whether
    they return or throw: [contains], [valueOf], [peekMinKeyIndex],
    [peekMinValue], [size], [isEmpty] and [isMinHeap]. *)
Theorem queries_do_not_mutate {T} (compare : T → T → Z) (h : heap T) ki :
  snd (contains ki h) = h ∧ snd (valueOf ki h) = h ∧
  snd (peekMinKeyIndex h) = h ∧ snd (peekMinValue h) = h ∧
  snd (size h) = h ∧ snd (isEmpty h) = h ∧
  snd (isMinHeap compare h) = h.
Proof.
  split; [apply (contains_keeps ki h)|].
  split; [apply (valueOf_keeps ki h)|].
  split; [apply (peekMinKeyIndex_keeps h)|].
  split; [apply (peekMinValue_keeps h)|].
  split; [done|]. split; [done|].
  apply (isMinHeap_keeps compare h).
Qed.

(** X14.  No call changes the capacity, the degree or the topology arrays,
    on any state and whether it returns or throws. *)
Theorem topology_is_fixed {T} (compare : T → T → Z) (h : heap T) (o : op T) :
  N (snd (exec compare o h)) = N h ∧ D (snd (exec compare o h)) = D h ∧
  child (snd (exec compare o h)) = child h ∧
  parent (snd (exec compare o h)) = parent h.
Proof.
  pose proof (exec_keeps compare o h) as Hk. unfold layout_of in Hk.
  by injection Hk as -> -> -> ->.
Qed.

(** ** A call that throws has written nothing *)

Section Throws.

Context {T : Type}.
Variable compare : T → T → Z.

Lemma quiet_bind {A B} (m : M T A) (f : A → M T B) :
  quiet m → (∀ a, quiet (f a)) → quiet (bind m f).
Proof.
  intros Hm Hf h e. unfold bind. pose proof (Hm h) as Hq.
  destruct (m h) as [[a|e'| |] h']; simpl in *; try done.
  - apply Hf.
  - by destruct (Hq e').
Qed.

Lemma assert_some_quiet {A} (o : option A) : quiet (T:=T) (assert_some o).
Proof. by destruct o. Qed.

Lemma assert_value_quiet (o : option (option T)) : quiet (assert_value o).
Proof. by destruct o as [[]|]. Qed.

Lemma atomic_of_keeps {A} (m : M T A) : keeps id m → atomic m.
Proof. intros Hk h e h' Hm. specialize (Hk h). by rewrite Hm in Hk. Qed.

Lemma atomic_of_quiet {A} (m : M T A) : quiet m → atomic m.
Proof. intros Hq h e h' Hm. destruct (Hq h e). by rewrite Hm. Qed.

(** A check that writes nothing, then code that is atomic. *)
Lemma atomic_after_check {A B} (m : M T A) (f : A → M T B) :
  keeps id m → (∀ a, atomic (f a)) → atomic (bind m f).
Proof.
  intros Hk Hf h e h'. unfold bind. specialize (Hk h).
  destruct (m h) as [[a|e'| |] h1] eqn:Hm; simpl in Hk; subst h1; try done.
  - apply Hf.
  - by intros [= _ <-].
Qed.

(** Code that is atomic, then code that never throws. *)
Lemma atomic_then_quiet {A B} (m : M T A) (f : A → M T B) :
  atomic m → (∀ a, quiet (f a)) → atomic (bind m f).
Proof.
  intros Hm Hf h e h'. unfold bind. pose proof (Hm h) as Ha.
  destruct (m h) as [[a|e'| |] h1] eqn:Hmh; try done.
  - intros Hr. destruct (Hf a h1 e). by rewrite Hr.
  - intros [= _ <-]. by apply (Ha e').
Qed.

End Throws.

Ltac quiet_step :=
  match goal with
  | |- quiet (bind _ _) => apply quiet_bind; [|intros ?]
  | |- quiet (match ?x with _ => _ end) => destruct x
  | |- quiet _ => solve [eauto with effects]
  | |- quiet _ => by intros ? ?
  end.

Ltac quiets := repeat quiet_step.

#[local] Hint Resolve assert_some_quiet assert_value_quiet : effects.

Section Atomicity.

Context {T : Type}.
Variable compare : T → T → Z.

Lemma less_quiet i j : quiet (T:=T) (less compare i j).
Proof. unfold less. quiets. Qed.

Lemma swap_quiet i j : quiet (T:=T) (swap i j).
Proof. unfold swap. quiets. Qed.

Lemma minChild_quiet i : quiet (T:=T) (minChild compare i).
Proof.
  pose proof less_quiet. unfold minChild. quiets.
  generalize (-1, i). induction (seqZ _ _) as [|j js IH]; intros acc; simpl;
    unfold minChild_step; quiets.
Qed.

Lemma sink_loop_quiet fuel i j : quiet (T:=T) (sink_loop compare fuel i j).
Proof.
  pose proof swap_quiet. pose proof minChild_quiet.
  revert i j. induction fuel as [|fuel IH]; intros i j; cbn [sink_loop]; quiets.
Qed.

Lemma sink_quiet i : quiet (T:=T) (sink compare i).
Proof.
  pose proof sink_loop_quiet. pose proof minChild_quiet. unfold sink. quiets.
Qed.

Lemma swim_loop_quiet fuel i : quiet (T:=T) (swim_loop compare fuel i).
Proof.
  pose proof swap_quiet. pose proof less_quiet.
  revert i. induction fuel as [|fuel IH]; intros i; cbn [swim_loop]; quiets.
Qed.

Lemma swim_quiet i : quiet (T:=T) (swim compare i).
Proof. apply swim_loop_quiet. Qed.

#[local] Hint Resolve swap_quiet sink_quiet swim_quiet : effects.

Lemma insert_atomic ki value : atomic (T:=T) (insert compare ki value).
Proof.
  unfold insert. apply atomic_after_check; [apply contains_keeps|].
  intros [|]; [by apply atomic_of_keeps|].
  apply atomic_after_check; [by destruct value|].
  intros v. apply atomic_of_quiet. quiets.
Qed.

Lemma delete_atomic ki : atomic (T:=T) (delete compare ki).
Proof.
  unfold delete. apply atomic_after_check; [apply keyExistsOrThrow_keeps|].
  intros _. apply atomic_of_quiet. quiets.
Qed.

Lemma update_atomic ki value : atomic (T:=T) (update compare ki value).
Proof.
  unfold update.
  apply atomic_after_check; [apply keyExistsAndValueNotNullOrThrow_keeps|].
  intros v. apply atomic_of_quiet. quiets.
Qed.

Lemma decrease_atomic ki value : atomic (T:=T) (decrease compare ki value).
Proof.
  unfold decrease.
  apply atomic_after_check; [apply keyExistsAndValueNotNullOrThrow_keeps|].
  intros v. apply atomic_of_quiet. quiets.
Qed.

Lemma increase_atomic ki value : atomic (T:=T) (increase compare ki value).
Proof.
  unfold increase.
  apply atomic_after_check; [apply keyExistsAndValueNotNullOrThrow_keeps|].
  intros v. apply atomic_of_quiet. quiets.
Qed.

Lemma root_read_keeps : keeps (T:=T) id (bind peekMinKeyIndex assert_some).
Proof.
  apply keeps_bind; [apply peekMinKeyIndex_keeps|].
  intros o. apply assert_some_keeps.
Qed.

Lemma pollMinKeyIndex_atomic : atomic (T:=T) (pollMinKeyIndex compare).
Proof.
  unfold pollMinKeyIndex. apply atomic_after_check; [apply root_read_keeps|].
  intros k. apply atomic_then_quiet; [apply delete_atomic|]. by intros ? ? ?.
Qed.

Lemma pollMinValue_atomic : atomic (T:=T) (pollMinValue compare).
Proof.
  unfold pollMinValue. apply atomic_after_check; [apply peekMinValue_keeps|].
  intros v. apply atomic_after_check; [apply root_read_keeps|].
  intros k. apply atomic_then_quiet; [apply delete_atomic|]. by intros ? ? ?.
Qed.

Lemma exec_atomic o : atomic (T:=T) (exec compare o).
Proof.
  destruct o; simpl; unfold fmapM.
  1-7: apply atomic_then_quiet; [|by intros ? ? ?].
  - apply insert_atomic.
  - apply delete_atomic.
  - apply update_atomic.
  - apply increase_atomic.
  - apply decrease_atomic.
  - apply pollMinKeyIndex_atomic.
  - apply pollMinValue_atomic.
  - apply atomic_of_keeps, keeps_bind; [apply peekMinKeyIndex_keeps|by intros ? ?].
  - apply atomic_of_keeps, keeps_bind; [apply peekMinValue_keeps|by intros ? ?].
  - apply atomic_of_keeps, keeps_bind; [apply contains_keeps|by intros ? ?].
  - apply atomic_of_keeps, keeps_bind; [apply valueOf_keeps|by intros ? ?].
  - by apply atomic_of_keeps.
  - by apply atomic_of_keeps.
  - apply atomic_of_keeps, keeps_bind; [apply isMinHeap_keeps|by intros ? ?].
Qed.

End Atomicity.

(** X12.  A call that throws leaves the object exactly as it was before the
    call, on any state and for any comparator: every [throw] of the class
    comes before the first write of the call. *)
Theorem throws_leave_state {T} (compare : T → T → Z) (h : heap T) (o : op T) e :
  fst (exec compare o h) = Raise e → snd (exec compare o h) = h.
Proof.
  intros Hr. apply (exec_atomic compare o h e).
  destruct (exec compare o h) as [r h']. simpl in Hr. by subst r.
Qed.

Lemma throws_leave_state_witness :
  snd (exec zcmp (Insert 1 (Some 3)) sample) = sample ∧
  snd (exec zcmp (Update 7 None) sample) = sample ∧
  snd (exec zcmp PollMinValue (fresh 3 10)) = fresh 3 10.
Proof.
  split; [|split].
  - apply (throws_leave_state zcmp sample (Insert 1 (Some 3)) DuplicateKey).
    vm_compute. reflexivity.
  - apply (throws_leave_state zcmp sample (Update 7 None) UnknownKey).
    vm_compute. reflexivity.
  - apply (throws_leave_state zcmp (fresh 3 10) PollMinValue EmptyQueue).
    vm_compute. reflexivity.
Defined.

(** ** What [isMinHeap] tests *)

Section Testing.

Context {T : Type}.
Variable compare : T → T → Z.

Lemma under_le d i c : 1 ≤ d → 0 ≤ i → under d i c → i ≤ c.
Proof.
  intros Hd Hi Hu. induction Hu as [i|i j c Hj Hp Hu IH]; [lia|].
  assert ((j - 1) / d ≤ j - 1) by (apply Z.div_le_upper_bound; nia).
  lia.
Qed.

Lemma under_snoc d i p c :
  under d i p → 0 < c → (c - 1) / d = p → under d i c.
Proof.
  intros Hu Hc Hp. induction Hu as [i|i j p Hj Hji Hu IH].
  - apply (under_child d i c c); [done..|]. apply under_self.
  - apply (under_child d i j c); [done..|]. by apply IH.
Qed.

Lemma under_root d c : 2 ≤ d → 0 ≤ c → under d 0 c.
Proof.
  intros Hd. induction c as [c IH] using (well_founded_induction (Z.lt_wf 0)).
  intros Hc. destruct (decide (c = 0)) as [->|Hne]; [apply under_self|].
  pose proof (parent_lt d c Hd ltac:(lia)) as Hp.
  apply (under_snoc d 0 ((c - 1) / d) c); [|lia|done].
  apply IH; lia.
Qed.

Lemma all_of_spec (body : Z → M T bool) (P : Z → Prop) (js : list Z)
    (h : heap T) :
  (∀ j, j ∈ js → ∃ b, body j h = (Ok b, h) ∧ (b = true ↔ P j)) →
  ∃ b, all_of body js h = (Ok b, h) ∧ (b = true ↔ ∀ j, j ∈ js → P j).
Proof.
  induction js as [|j js IH]; intros Hbody.
  { exists true. split; [done|]. split; [|done]. intros _ j Hj.
    by apply elem_of_nil in Hj. }
  destruct (Hbody j ltac:(left)) as (b & Hb & HP).
  simpl. unfold bind. rewrite Hb. destruct b.
  - destruct IH as (b' & Hrun & Hall).
    { intros j' Hj'. apply Hbody. by right. }
    exists b'. split; [done|]. rewrite Hall. split.
    + intros Hjs j' Hj'. apply elem_of_cons in Hj' as [->|Hj']; [|by apply Hjs].
      by apply HP.
    + intros Hjs j' Hj'. apply Hjs. by right.
  - exists false. split; [done|]. split; [done|].
    intros Hjs. apply HP, Hjs. by left.
Qed.

Lemma isMinHeapAt_spec (h : heap T) :
  topo h → bij (sz h) h →
  ∀ (fuel : nat) i, 0 ≤ i → i < sz h ∨ i = 0 →
    (Z.to_nat (sz h - i) < fuel)%nat →
    ∃ b, isMinHeapAt compare fuel i h = (Ok b, h) ∧
         (b = true ↔
          ∀ c, under (D h) i c → c ≠ i → c < sz h →
               slot_lt compare h ((c - 1) / D h) c).
Proof.
  intros Ht Hb fuel. pose proof (topo_D _ Ht) as HD.
  pose proof (topo_N _ Ht) as HN. pose proof (bij_n _ _ Hb) as Hn.
  induction fuel as [|fuel IH]; intros i Hi0 Hi Hfuel; [lia|].
  pose proof (topo_child _ Ht i ltac:(lia)) as Hch.
  cbn [isMinHeapAt]. mrun.
  set (js := seqZ _ _).
  set (P := λ j, slot_lt compare h i j ∧
                 ∀ c, under (D h) j c → c ≠ j → c < sz h →
                      slot_lt compare h ((c - 1) / D h) c).
  assert (∀ j, j ∈ js ↔ 0 < j < sz h ∧ (j - 1) / D h = i) as Hjs.
  { intros j. unfold js. rewrite elem_of_seqZ.
    rewrite (parent_child (D h) i j HD). lia. }
  destruct (all_of_spec
    (λ j, bind (less compare i j)
            (λ b, if negb b then ret false else isMinHeapAt compare fuel j))
    P js h) as (b & Hrun & Hall).
  { intros j Hj. apply Hjs in Hj as [Hjr Hpar].
    pose proof (parent_lt (D h) j HD ltac:(lia)) as Hlt.
    destruct (bij_val_at _ _ i Hb ltac:(lia)) as [vi Hvi].
    destruct (bij_val_at _ _ j Hb ltac:(lia)) as [vj Hvj].
    unfold bind. rewrite (less_spec _ _ _ _ _ _ Hvi Hvj).
    assert (slot_lt compare h i j ↔ compare vi vj < 0) as Hslot
      by (unfold slot_lt; by rewrite Hvi, Hvj).
    destruct (compare vi vj <? 0) eqn:E; simpl.
    - apply Z.ltb_lt in E.
      destruct (IH j ltac:(lia) ltac:(lia) ltac:(lia)) as (b & Hrun & Hsub).
      exists b. split; [done|]. unfold P. rewrite Hsub, Hslot. tauto.
    - apply Z.ltb_ge in E. exists false. split; [done|].
      unfold P. rewrite Hslot. split; [done|]. lia. }
  exists b. split; [done|]. rewrite Hall. split.
  - intros HP c Hu Hne Hc.
    destruct Hu as [|j c Hj Hpar Hu]; [done|].
    pose proof (parent_lt (D h) j HD Hj) as Hlt.
    pose proof (under_le (D h) j c ltac:(lia) ltac:(lia) Hu) as Hle.
    destruct (HP j) as [Hroot Hsub]; [apply Hjs; split; [lia|done]|].
    destruct (decide (c = j)) as [->|Hcj]; [by rewrite Hpar|].
    by apply Hsub.
  - intros Hsub j Hj. apply Hjs in Hj as [Hjr Hpar].
    pose proof (parent_lt (D h) j HD ltac:(lia)) as Hlt.
    split.
    + rewrite <- Hpar. apply Hsub; [|lia..].
      apply (under_child _ _ j j); [lia|done|apply under_self].
    + intros c Hu Hne Hc.
      pose proof (under_le (D h) j c ltac:(lia) ltac:(lia) Hu) as Hle.
      apply Hsub; [|lia..].
      apply (under_child _ _ j c); [lia|done|done].
Qed.

Lemma isMinHeap_spec (h : heap T) :
  wf compare h →
  ∃ b, isMinHeap compare h = (Ok b, h) ∧
       (b = true ↔
        ∀ c, 0 < c < sz h → slot_lt compare h ((c - 1) / D h) c).
Proof.
  intros [Ht Hb _]. pose proof (bij_n _ _ Hb). pose proof (topo_D _ Ht) as HD.
  destruct (isMinHeapAt_spec h Ht Hb (S (Z.to_nat (sz h))) 0)
    as (b & Hrun & Hspec); [lia..|].
  exists b. split; [by unfold isMinHeap; mred|].
  rewrite Hspec. split.
  - intros Hall c Hc. apply Hall; [|lia..]. apply under_root; lia.
  - intros Hall c Hu Hne Hc.
    pose proof (under_le (D h) 0 c ltac:(lia) ltac:(lia) Hu) as Hle.
    apply Hall. lia.
Qed.

End Testing.

(** X15.  On a reachable heap [isMinHeap] returns, and it answers [true]
    exactly when the value of every slot but the root is strictly greater,
    under the comparator, than the value of its parent slot: a heap in which
    a parent and a child hold equal values is answered [false]. *)
Theorem isMinHeap_iff_strict {T} (compare : T → T → Z) (h : heap T) :
  consistent compare → reachable compare h →
  ∃ b, isMinHeap compare h = (Ok b, h) ∧
       (b = true ↔
        ∀ c, 0 < c < sz h → slot_lt compare h ((c - 1) / D h) c).
Proof.
  intros Hcmp Hr. apply isMinHeap_spec. by apply (reachable_wf _ Hcmp).
Qed.

Lemma isMinHeap_iff_strict_witness :
  ∃ b, isMinHeap zcmp sample = (Ok b, sample) ∧
       (b = true ↔
        ∀ c, 0 < c < sz sample →
             slot_lt zcmp sample ((c - 1) / D sample) c).
Proof.
  exact (isMinHeap_iff_strict zcmp sample zcmp_consistent sample_reachable).
Defined.

(** X16.  In a reachable heap the two topology arrays agree: for a slot [j]
    other than the root, [parent[j]] is [i] exactly when [j] is one of the [D]
    slots from [child[i]] on. *)
Theorem parent_child_agree {T} (compare : T → T → Z) (h : heap T) i j :
  reachable compare h → 0 < j < N h →
  parent h !! j = Some i ↔
  ∃ f, child h !! i = Some f ∧ f ≤ j < f + D h.
Proof.
  intros Hr Hj. destruct (reachable_layout compare h Hr) as [Ht _ Hlc].
  pose proof (topo_D _ Ht) as HD.
  rewrite (topo_parent _ Ht j) by lia. split.
  - intros [= <-]. pose proof (parent_lt (D h) j HD ltac:(lia)) as Hlt.
    exists ((j - 1) / D h * D h + 1). split; [apply (topo_child _ Ht); lia|].
    pose proof (proj1 (parent_child (D h) ((j - 1) / D h) j HD) eq_refl). lia.
  - intros (f & Hf & Hr'). destruct (Hlc i f Hf) as [_ ->].
    f_equal. apply (parent_child (D h) i j HD). lia.
Qed.

Lemma parent_child_agree_witness :
  parent sample !! 5 = Some 1 ↔
  ∃ f, child sample !! 1 = Some f ∧ f ≤ 5 < f + D sample.
Proof.
  apply (parent_child_agree zcmp sample 1 5 sample_reachable).
  vm_compute. split; reflexivity.
Defined.

(** X17.  On a reachable heap, a present key whose value is strictly less,
    under the comparator, than the value of every other present key is the
    key [peekMinKeyIndex] returns, and its value the one [peekMinValue]
    returns. *)
Theorem strict_minimum_is_peeked {T} (compare : T → T → Z) (h : heap T) k v :
  consistent compare → reachable compare h →
  valueOf k h = (Ok v, h) →
  (∀ k' w, k' ≠ k → valueOf k' h = (Ok w, h) → compare v w < 0) →
  peekMinKeyIndex h = (Ok (Some k), h) ∧ peekMinValue h = (Ok v, h).
Proof.
  intros Hcmp Hr Hval Hleast. pose proof (reachable_wf _ Hcmp h Hr) as Hwf.
  pose proof Hval as Hval'.
  apply valueOf_inv in Hval' as (_ & Hc & _ & _).
  destruct (contains_true_slot compare h k Hwf Hc)
    as (_ & s & _ & _ & Hs & _).
  destruct (poll_ok _ Hcmp h Hwf ltac:(lia))
    as (k0 & v0 & _ & Hpk & Hpv & _ & Hval0 & _).
  destruct (decide (k0 = k)) as [->|Hne].
  { rewrite Hval in Hval0. by injection Hval0 as <-. }
  exfalso. pose proof (Hleast k0 v0 Hne Hval0) as Hlt.
  pose proof (root_is_least _ Hcmp h v0 k v Hwf Hpv Hval) as Hle.
  apply (compare_antisym _ Hcmp) in Hlt. lia.
Qed.

Lemma strict_minimum_is_peeked_witness :
  peekMinKeyIndex sample = (Ok (Some 1), sample) ∧
  peekMinValue sample = (Ok 20, sample).
Proof.
  apply (strict_minimum_is_peeked zcmp sample 1 20 zcmp_consistent
           sample_reachable).
  - vm_compute. reflexivity.
  - intros k' w Hne Hw. apply valueOf_inv in Hw as (_ & _ & Hin & Hw).
    change (N sample) with 10 in Hin. unfold zcmp.
    assert (k' = 0 ∨ k' = 2 ∨ k' = 3 ∨ k' = 4 ∨ k' = 5 ∨ k' = 6 ∨ k' = 7 ∨
            k' = 8 ∨ k' = 9) as Hk by lia.
    destruct Hk as [->|[->|[->|[->|[->|[->|[->|[->| ->]]]]]]]];
      vm_compute in Hw; simplify_eq; lia.
Defined.

(** ** The private helpers on their own *)

Section Helpers.

Context {T : Type}.
Variable compare : T → T → Z.
Hypothesis Hcmp : consistent compare.

Lemma swap_swap n (h : heap T) i j :
  bij n h → 0 ≤ i < n → 0 ≤ j < n →
  ∃ h', swap i j h = (Ok tt, h') ∧ swap i j h' = (Ok tt, h).
Proof.
  intros Hb Hi Hj.
  destruct (bij_im _ _ Hb i Hi) as (ki & Hki & Hkir & Hpi).
  destruct (bij_im _ _ Hb j Hj) as (kj & Hkj & Hkjr & Hpj).
  assert (Hinj : ki = kj → i = j) by (intros ->; congruence).
  destruct h as [s n0 d ch pa p m vs]. simpl in *.
  eexists. split.
  { unfold swap. mrun. reflexivity. }
  unfold swap. mred.
  destruct (decide (i = j)) as [->|Hij].
  - simplify_eq. repeat (rewrite lookup_insert_eq; mred).
    f_equal. f_equal.
    + apply map_eq. intros x. destruct (decide (x = ki)) as [->|];
        repeat (first [rewrite lookup_insert_eq
                      |rewrite lookup_insert_ne by done]); done.
    + apply map_eq. intros x. destruct (decide (x = j)) as [->|];
        repeat (first [rewrite lookup_insert_eq
                      |rewrite lookup_insert_ne by done]); done.
  - assert (ki ≠ kj) by auto.
    repeat (first [rewrite lookup_insert_eq
                  |rewrite lookup_insert_ne by done]; mred).
    f_equal. f_equal.
    + apply map_eq. intros x.
      destruct (decide (x = ki)) as [Hx|Hx];
        destruct (decide (x = kj)) as [Hx'|Hx']; subst; try congruence;
        repeat (first [rewrite lookup_insert_eq
                      |rewrite lookup_insert_ne by done]); done.
    + apply map_eq. intros x.
      destruct (decide (x = i)) as [Hx|Hx];
        destruct (decide (x = j)) as [Hx'|Hx']; subst; try congruence;
        repeat (first [rewrite lookup_insert_eq
                      |rewrite lookup_insert_ne by done]); done.
Qed.

End Helpers.

Lemma sample_wf : wf zcmp sample.
Proof. apply (reachable_wf _ zcmp_consistent), sample_reachable. Qed.

Lemma sample_fields : sz sample = 3 ∧ D sample = 3 ∧ N sample = 10.
Proof. vm_compute. done. Qed.

Lemma raised_topo : topo raised.
Proof. apply topo_stored, (wf_topo _ _ sample_wf). Qed.

Lemma raised_bij : bij (sz raised) raised.
Proof.
  change (sz raised) with (sz sample).
  apply (bij_stored _ _ _ 0); [apply (wf_bij _ _ sample_wf)| |done].
  vm_compute. reflexivity.
Qed.



(** X18.  [swap] of two occupied slots exchanges the keys the two slots hold
    and leaves every other slot, [sz] and the values alone; the position map
    and the inverse map stay inverse to one another, and a second [swap] of
    the same slots gives back the state before the first. *)
Theorem swap_exchanges_slots {T} n (h : heap T) i j :
  bij n h → 0 ≤ i < n → 0 ≤ j < n →
  ∃ h', swap i j h = (Ok tt, h') ∧ bij n h' ∧
        im h' !! i = im h !! j ∧ im h' !! j = im h !! i ∧
        (∀ s, s ≠ i → s ≠ j → im h' !! s = im h !! s) ∧
        store_of h' = store_of h ∧
        swap i j h' = (Ok tt, h).
Proof.
  intros Hb Hi Hj.
  destruct (swap_spec n h i j Hb Hi Hj) as (h' & Hrun & Hfr & Hb' & Him).
  destruct (swap_swap n h i j Hb Hi Hj) as (h'' & Hrun' & Hback).
  rewrite Hrun in Hrun'. injection Hrun' as <-.
  exists h'. split; [done|]. split; [done|].
  pose proof (Hfr (Z.max i j + 1) ltac:(lia) ltac:(lia)) as Hf.
  split. { rewrite Him. unfold transp. by rewrite decide_True. }
  split. { rewrite Him. unfold transp.
           destruct (decide (j = i)) as [->|]; [done|by rewrite decide_True]. }
  split. { intros s Hsi Hsj. rewrite Him. unfold transp.
           by rewrite !decide_False. }
  split; [|done]. unfold store_of.
  by rewrite (frame_sz _ _ _ Hf), (frame_N _ _ _ Hf), (frame_values _ _ _ Hf).
Qed.

Lemma swap_exchanges_slots_witness :
  ∃ h', swap 0 2 sample = (Ok tt, h') ∧ bij 3 h' ∧
        im h' !! 0 = im sample !! 2 ∧ im h' !! 2 = im sample !! 0 ∧
        (∀ s, s ≠ 0 → s ≠ 2 → im h' !! s = im sample !! s) ∧
        store_of h' = store_of sample ∧
        swap 0 2 h' = (Ok tt, sample).
Proof.
  apply (swap_exchanges_slots 3 sample 0 2); [|lia|lia].
  destruct sample_fields as (<- & _). apply (wf_bij _ _ sample_wf).
Defined.

(** X19.  [minChild] of an occupied slot returns without a write: [-1] when
    no child slot below [sz] holds a value less than the value of the slot,
    else a child slot below [sz] whose value is less than the value of the
    slot and not greater than the value of any of its child slots. *)
Theorem minChild_finds_least {T} (compare : T → T → Z) (h : heap T) i :
  consistent compare → topo h → bij (sz h) h → 0 ≤ i < sz h →
  ∃ j, minChild compare i h = (Ok j, h) ∧
       ((j = -1 ∧
         ∀ c, 0 < c < sz h → (c - 1) / D h = i → slot_le compare h i c) ∨
        (i < j < sz h ∧ (j - 1) / D h = i ∧ slot_lt compare h j i ∧
         ∀ c, 0 < c < sz h → (c - 1) / D h = i → slot_le compare h j c)).
Proof.
  intros Hcmp Ht Hb Hi.
  apply (minChild_spec _ Hcmp (sz h) h i Ht Hb); [lia|done].
Qed.

Lemma minChild_finds_least_witness :
  ∃ j, minChild zcmp 0 raised = (Ok j, raised) ∧
       ((j = -1 ∧
         ∀ c, 0 < c < sz raised → (c - 1) / D raised = 0 →
              slot_le zcmp raised 0 c) ∨
        (0 < j < sz raised ∧ (j - 1) / D raised = 0 ∧
         slot_lt zcmp raised j 0 ∧
         ∀ c, 0 < c < sz raised → (c - 1) / D raised = 0 →
              slot_le zcmp raised j c)).
Proof.
  apply (minChild_finds_least zcmp raised 0 zcmp_consistent raised_topo
           raised_bij).
  vm_compute. split; [discriminate|reflexivity].
Defined.




